(** * sendu: signaling relay, one-time token store and chunked transfer

    A shallow embedding of the server (server.js, both the stable and the
    hardened variant) and of the browser client (client.js), followed by
    the properties of the token store, the relay broadcast, the ICE
    gathering wait, the token shortening fallback and the chunked file
    transfer. *)

From stdpp Require Import gmap strings list fin_maps pretty.

Local Open Scope Z_scope.

(** ** JavaScript values *)

(** The values that cross the wire are JSON values; [JUndefined] is added
    for absent properties.  Numbers are the integral ones (byte counts and
    JSON integers): they are exact in a double below 2^53. *)
#[local] Unset Elimination Schemes.
Inductive jsval : Type :=
| JUndefined
| JNull
| JBool (b : bool)
| JNum (n : Z)
| JStr (s : string)
| JArr (items : list jsval)
| JObj (fields : list (string * jsval)).
#[local] Set Elimination Schemes.

Inductive js_error : Type :=
| TypeError
| SyntaxError
| NetworkError
| StoreFailed
| NotOpenError.

(** The outcome of evaluating an expression or a statement list. *)
Inductive completion (A : Type) : Type :=
| Normal (a : A)
| Throw (e : js_error).
Arguments Normal {A} a.
Arguments Throw {A} e.

(** [!v] is [negb (truthy v)]. *)
Definition truthy (v : jsval) : bool :=
  match v with
  | JUndefined | JNull => false
  | JBool b => b
  | JNum n => negb (n =? 0)
  | JStr s => negb (String.eqb s EmptyString)
  | JArr _ | JObj _ => true
  end.

Fixpoint lookup_field (k : string) (fields : list (string * jsval)) : jsval :=
  match fields with
  | [] => JUndefined
  | (k', v) :: rest => if String.eqb k k' then v else lookup_field k rest
  end.

(** [v.k] for the property names the handlers read (type, offer, answer,
    candidate, token, id, name, size, fileType): reading a property of
    undefined or null throws, a primitive or an array has none of them. *)
Definition get (v : jsval) (k : string) : completion jsval :=
  match v with
  | JUndefined | JNull => Throw TypeError
  | JObj fields => Normal (lookup_field k fields)
  | _ => Normal JUndefined
  end.

(** [a === b] where [a] is known to be a number. *)
Definition strict_eq_num (a : Z) (b : jsval) : bool :=
  match b with
  | JNum n => a =? n
  | _ => false
  end.

(** [a === s] where [s] is a string literal. *)
Definition strict_eq_str (a : jsval) (s : string) : bool :=
  match a with
  | JStr t => String.eqb t s
  | _ => false
  end.

Fixpoint join (sep : string) (parts : list string) : string :=
  match parts with
  | [] => EmptyString
  | [x] => x
  | x :: rest => x +:+ sep +:+ join sep rest
  end.

(** The engine's JSON object.  [JSON_parse] is [None] when JSON.parse
    throws a SyntaxError and never yields undefined; [JSON_stringify] is
    [None] when JSON.stringify returns undefined. *)
Class JsonApi : Type := {
  JSON_parse : string -> option jsval;
  JSON_stringify : jsval -> option string
}.

(** ** The one-time token store (server.js) *)

Module TokenStore.

(** [tokens] is the Map from id to token; [timers] are the pending
    [setTimeout(() => tokens.delete(id), TTL)] callbacks with the time at
    which each is due. *)
Record store : Type := Store {
  tokens : gmap string jsval;
  timers : list (Z * string)
}.

Definition TOKEN_TTL : Z := 10 * 60 * 1000.

Inductive page : Type :=
| ExpiredPage
| RevealPage (id : string).

Inductive response : Type :=
| Json (status : Z) (body : jsval)
| Html (status : Z) (body : page)
| ServerError.

(** A route handler reads and writes the module-level Map. *)
Definition handler (A : Type) : Type := store -> A * store.

#[local] Instance handler_ret : MRet handler := fun A a st => (a, st).
#[local] Instance handler_bind : MBind handler :=
  fun A B f m st => let '(a, st') := m st in f a st'.

Definition tokens_get (id : string) : handler (option jsval) :=
  fun st => (tokens st !! id, st).
Definition tokens_set (id : string) (v : jsval) : handler unit :=
  fun st => (tt, Store (<[id := v]> (tokens st)) (timers st)).
Definition tokens_delete (id : string) : handler unit :=
  fun st => (tt, Store (delete id (tokens st)) (timers st)).
Definition setTimeout_delete (id : string) (due : Z) : handler unit :=
  fun st => (tt, Store (tokens st) (timers st ++ [(due, id)])).

(** [tokens.get(id)] is undefined when the key is absent. *)
Definition or_undefined (o : option jsval) : jsval :=
  match o with
  | Some v => v
  | None => JUndefined
  end.

(** POST /store.  [uuid] is what [uuidv4()] returns for this request and
    [now] the time of the request. *)
Definition post_store (now : Z) (uuid : string) (body : jsval) : handler response :=
  match get body "token" with
  | Throw _ => mret ServerError
  | Normal token =>
      if negb (truthy token) then
        mret (Json 400 (JObj [("error", JStr "Missing token")]))
      else
        _ ← tokens_set uuid token;
        _ ← setTimeout_delete uuid (now + TOKEN_TTL);
        mret (Json 200 (JObj [("id", JStr uuid)]))
  end.

(** GET /t/:id, the reveal page. *)
Definition get_t (id : string) : handler response :=
  token ← tokens_get id;
  if negb (truthy (or_undefined token)) then
    mret (Html 404 ExpiredPage)
  else
    mret (Html 200 (RevealPage id)).

(** GET /consume/:id. *)
Definition get_consume (id : string) : handler response :=
  token ← tokens_get id;
  if negb (truthy (or_undefined token)) then
    mret (Json 200 (JObj [("error", JStr "expired")]))
  else
    _ ← tokens_delete id;
    mret (Json 200 (JObj [("token", or_undefined token)])).

Inductive request : Type :=
| PostStore (uuid : string) (body : jsval)
| GetT (id : string)
| GetConsume (id : string).

Definition route (now : Z) (r : request) : handler response :=
  match r with
  | PostStore uuid body => post_store now uuid body
  | GetT id => get_t id
  | GetConsume id => get_consume id
  end.

(** The timers phase of the event loop: every callback that is due at
    [now] runs, in the order the timers were set, and is discarded. *)
Definition run_timers (now : Z) (st : store) : store :=
  Store
    (foldl (fun m t => if decide (t.1 <= now) then delete t.2 m else m)
           (tokens st) (timers st))
    (filter (fun t => now < t.1) (timers st)).

(** One request arriving at time [now]. *)
Definition serve (now : Z) (r : request) (st : store) : response * store :=
  route now r (run_timers now st).

Fixpoint serve_all (reqs : list (Z * request)) (st : store) : store :=
  match reqs with
  | [] => st
  | (now, r) :: rest => serve_all rest (serve now r st).2
  end.

Definition stores_at (id : string) (e : Z * request) : bool :=
  match e.2 with
  | PostStore uuid _ => bool_decide (uuid = id)
  | _ => false
  end.

Definition consumes (id : string) (e : Z * request) : bool :=
  match e.2 with
  | GetConsume id' => bool_decide (id' = id)
  | _ => false
  end.

End TokenStore.

(** ** The signaling relay (server.js) *)

Module Relay.

(** A WebSocket object of the server is identified by a number. *)
Definition conn : Type := nat.

Inductive ready_state : Type :=
| CONNECTING
| OPEN
| CLOSING
| CLOSED.

#[global] Instance ready_state_eq_dec : EqDecision ready_state.
Proof. solve_decision. Defined.

(** What the relay writes to a socket, before JSON.stringify. *)
Inductive server_msg : Type :=
| Connected
| OfferCreated (offer : jsval)
| AnswerCreated (answer : jsval)
| IceCandidate (candidate : jsval)
| ErrorMsg.

Inductive log_entry : Type :=
| LogNewClient
| LogReceived (type : jsval)
| LogUnknownType (type : jsval)
| LogMessageError (e : js_error)
| LogDisconnected
| LogSocketError.

(** The two variants of server.js: "final stable version" and "hardened
    for Render". *)
Inductive variant : Type :=
| Stable
| Hardened.

(** [clients] is the Set, in insertion order; [readyState] is the state of
    each socket, which the ws library maintains; [sent] lists the frames
    handed to the sockets and [log] the console. *)
Record relay : Type := MkRelay {
  clients : list conn;
  readyState : conn -> ready_state;
  sent : list (conn * server_msg);
  log : list log_entry
}.

(** The ws package: whether [send] on a socket that is not open throws or
    drops the data depends on its version. *)
Class WsLibrary : Type := {
  send_not_open_throws : bool
}.

(** Statements run on the relay state and may throw. *)
Definition act (A : Type) : Type := relay -> completion A * relay.

#[local] Instance act_ret : MRet act := fun A a st => (Normal a, st).
#[local] Instance act_bind : MBind act :=
  fun A B f m st =>
    match m st with
    | (Normal a, st') => f a st'
    | (Throw e, st') => (Throw e, st')
    end.

Definition throw {A : Type} (e : js_error) : act A := fun st => (Throw e, st).

Definition try_catch {A : Type} (body : act A) (handler : js_error -> act A) : act A :=
  fun st =>
    match body st with
    | (Normal a, st') => (Normal a, st')
    | (Throw e, st') => handler e st'
    end.

Definition lift {A : Type} (c : completion A) : act A := fun st => (c, st).

Definition console (e : log_entry) : act unit :=
  fun st => (Normal tt, MkRelay (clients st) (readyState st) (sent st) (log st ++ [e])).

Definition clients_add (ws : conn) : act unit :=
  fun st =>
    (Normal tt,
     MkRelay (if decide (ws ∈ clients st) then clients st else clients st ++ [ws])
             (readyState st) (sent st) (log st)).

Definition clients_delete (ws : conn) : act unit :=
  fun st =>
    (Normal tt,
     MkRelay (filter (fun c => c ≠ ws) (clients st)) (readyState st) (sent st) (log st)).

Section Handlers.
Context {J : JsonApi} {W : WsLibrary}.

(** [c.send(JSON.stringify(m))]. *)
Definition send (c : conn) (m : server_msg) : act unit :=
  fun st =>
    if decide (readyState st c = OPEN) then
      (Normal tt, MkRelay (clients st) (readyState st) (sent st ++ [(c, m)]) (log st))
    else if send_not_open_throws then (Throw NotOpenError, st)
    else (Normal tt, st).

Definition parse (text : string) : act jsval :=
  match JSON_parse text with
  | Some v => mret v
  | None => throw SyntaxError
  end.

(** [clients.forEach((client) => { if (client !== ws && client.readyState
    === WebSocket.OPEN) client.send(...candidate: data.candidate...) })]. *)
Fixpoint forEach_client (ws : conn) (data : jsval) (cs : list conn) : act unit :=
  match cs with
  | [] => mret tt
  | client :: rest =>
      st ← (fun st => (Normal st, st));
      _ ← (if bool_decide (client ≠ ws) && bool_decide (readyState st client = OPEN) then
             candidate ← lift (get data "candidate");
             send client (IceCandidate candidate)
           else mret tt);
      forEach_client ws data rest
  end.

(** The body of the [try] block of [ws.on('message', ...)]. *)
Definition dispatch (ws : conn) (message : string) : act unit :=
  data ← parse message;
  type ← lift (get data "type");
  _ ← console (LogReceived type);
  if strict_eq_str type "offer" then
    offer ← lift (get data "offer");
    send ws (OfferCreated offer)
  else if strict_eq_str type "answer" then
    answer ← lift (get data "answer");
    send ws (AnswerCreated answer)
  else if strict_eq_str type "ice-candidate" then
    cs ← (fun st => (Normal (clients st), st));
    forEach_client ws data cs
  else
    console (LogUnknownType type).

(** The [catch (error)] clause of the handler: it logs the error; the
    hardened variant also tries to answer with an error frame. *)
Definition on_message_catch (v : variant) (ws : conn) (error : js_error) : act unit :=
  _ ← console (LogMessageError error);
  match v with
  | Stable => mret tt
  | Hardened => try_catch (send ws ErrorMsg) (fun _ => mret tt)
  end.

(** [ws.on('message', (message) => { try { ... } catch (error) { ... } })].
    [message] is the text of the frame (the hardened variant converts a
    Buffer with toString, JSON.parse does the same in the stable one). *)
Definition on_message (v : variant) (ws : conn) (message : string) : act unit :=
  try_catch (dispatch ws message) (on_message_catch v ws).

(** [wss.on('connection', (ws) => { ... })]. *)
Definition on_connection (v : variant) (ws : conn) : act unit :=
  _ ← console LogNewClient;
  _ ← clients_add ws;
  match v with
  | Stable => send ws Connected
  | Hardened =>
      st ← (fun st => (Normal st, st));
      if bool_decide (readyState st ws = OPEN) then
        try_catch (send ws Connected) (fun _ => mret tt)
      else mret tt
  end.

Definition on_close (ws : conn) : act unit :=
  _ ← console LogDisconnected;
  clients_delete ws.

Definition on_error (ws : conn) : act unit :=
  _ ← console LogSocketError;
  clients_delete ws.

(** Whether [message] parses to a value with one of the three types the
    relay expects. *)
Definition expected_shape (message : string) : bool :=
  match JSON_parse message with
  | None => false
  | Some data =>
      match get data "type" with
      | Throw _ => false
      | Normal type =>
          strict_eq_str type "offer" || strict_eq_str type "answer"
          || strict_eq_str type "ice-candidate"
      end
  end.

End Handlers.

(** The frames of [frames] addressed to [c]. *)
Definition delivered_to (c : conn) (frames : list (conn * server_msg)) : list server_msg :=
  (filter (fun f => f.1 = c) frames).*2.

End Relay.

(** ** The chunked transfer over the data channel (client.js) *)

Module Transfer.

(** An ArrayBuffer, and the payload of a data channel message. *)
Definition buffer : Type := list Byte.byte.

Definition byteLength (b : buffer) : Z := Z.of_nat (length b).

Inductive dc_data : Type :=
| Text (s : string)
| Binary (b : buffer).

Record file : Type := MkFile {
  file_name : string;
  file_type : string;
  file_content : buffer
}.

Definition file_size (f : file) : Z := byteLength (file_content f).

(** [blob.slice(start, stop)] for [0 <= start <= stop]: the bytes from
    [start] up to [stop], clamped to the end of the blob. *)
Definition slice (start stop : Z) (b : buffer) : buffer :=
  take (Z.to_nat (stop - start)) (drop (Z.to_nat start) b).

Definition chunkSize : Z := 16384.

Inductive status_text : Type :=
| FileSent
| Receiving (name : jsval)
| FileReceived.

(** What the handlers do to the page and to the download collaborator.
    [ProgressUpdated a b] is [updateProgress((a / b) * 100)]. *)
Inductive effect : Type :=
| ProgressShown
| ProgressHidden
| ProgressUpdated (done : Z) (total : jsval)
| StatusShown (text : status_text) (kind : string)
| Download (blob : buffer) (mime : jsval) (filename : jsval).

(** *** Sender *)

(** What the sender does to the channel and to its FileReader, in order. *)
Inductive action : Type :=
| Send (d : dc_data)
| ReadAsArrayBuffer (start stop : Z).

(** [reading] is the slice the FileReader is reading, until its load event
    is delivered. *)
Record sender : Type := MkSender {
  currentFile : option file;
  offset : Z;
  reading : option buffer;
  wire : list action;
  shown : list effect
}.

Section Client.
Context {J : JsonApi}.

Definition metadata (f : file) : jsval :=
  JObj [("type", JStr "metadata"); ("name", JStr (file_name f));
        ("size", JNum (file_size f)); ("fileType", JStr (file_type f))].

(** [dataChannel.send(x)] with [x] a string or undefined. *)
Definition text_frame (x : option string) : dc_data :=
  Text (default "undefined" x).

Definition readSlice (f : file) (o : Z) (st : sender) : sender :=
  MkSender (currentFile st) (offset st)
    (Some (slice o (o + chunkSize) (file_content f)))
    (wire st ++ [ReadAsArrayBuffer o (o + chunkSize)])
    (shown st).

(** [fileReader.onload], with the bytes that were read. *)
Definition onload (result : buffer) (st : sender) : sender :=
  match currentFile st with
  | None => st
  | Some f =>
      let offset' := offset st + byteLength result in
      let st1 :=
        MkSender (currentFile st) offset' None
          (wire st ++ [Send (Binary result)])
          (shown st ++ [ProgressUpdated offset' (JNum (file_size f))]) in
      if decide (offset' < file_size f) then readSlice f offset' st1
      else
        MkSender (currentFile st1) (offset st1) (reading st1) (wire st1)
          (shown st1 ++ [StatusShown FileSent "success"; ProgressHidden])
  end.

(** [sendFiles()]: only [selectedFiles[0]] is sent. *)
Definition sendFiles (selectedFiles : list file) (st : sender) : completion unit * sender :=
  match selectedFiles with
  | [] => (Throw TypeError, MkSender None 0 (reading st) (wire st) (shown st))
  | f :: _ =>
      let st1 :=
        MkSender (Some f) 0 (reading st)
          (wire st ++ [Send (text_frame (JSON_stringify (metadata f)))])
          (shown st ++ [ProgressShown]) in
      (Normal tt, readSlice f 0 st1)
  end.

(** The event loop delivers the load event of each read that was issued,
    at most [fuel] of them. *)
Fixpoint deliver_loads (fuel : nat) (st : sender) : sender :=
  match fuel with
  | O => st
  | S fuel' =>
      match reading st with
      | None => st
      | Some result => deliver_loads fuel' (onload result st)
      end
  end.

(** The share button with at least one file selected, run to the end. *)
Definition transfer (selectedFiles : list file) (st : sender) : sender :=
  let st1 := (sendFiles selectedFiles st).2 in
  match currentFile st1 with
  | None => st1
  | Some f => deliver_loads (S (length (file_content f))) st1
  end.

(** *** Receiver *)

Record receiver : Type := MkReceiver {
  receivedSize : Z;
  receivedChunks : list buffer;
  fileMetadata : jsval;
  effects : list effect
}.

(** [let receivedSize = 0, receivedChunks = [], fileMetadata = null]. *)
Definition receiver_init : receiver := MkReceiver 0 [] JNull [].

(** [dataChannel.onmessage = receiveFile]. *)
Definition receiveFile (data : dc_data) (st : receiver) : completion unit * receiver :=
  match data with
  | Text s =>
      match JSON_parse s with
      | None => (Throw SyntaxError, st)
      | Some meta =>
          let st1 := MkReceiver 0 [] meta (effects st ++ [ProgressShown]) in
          match get meta "name" with
          | Throw e => (Throw e, st1)
          | Normal name =>
              (Normal tt,
               MkReceiver 0 [] meta (effects st1 ++ [StatusShown (Receiving name) "info"]))
          end
      end
  | Binary b =>
      let st1 :=
        MkReceiver (receivedSize st + byteLength b) (receivedChunks st ++ [b])
          (fileMetadata st) (effects st) in
      match get (fileMetadata st1) "size" with
      | Throw e => (Throw e, st1)
      | Normal size =>
          let st2 :=
            MkReceiver (receivedSize st1) (receivedChunks st1) (fileMetadata st1)
              (effects st1 ++ [ProgressUpdated (receivedSize st1) size]) in
          if strict_eq_num (receivedSize st2) size then
            match get (fileMetadata st2) "fileType", get (fileMetadata st2) "name" with
            | Normal mime, Normal name =>
                (Normal tt,
                 MkReceiver (receivedSize st2) (receivedChunks st2) (fileMetadata st2)
                   (effects st2 ++
                      [Download (concat (receivedChunks st2)) mime name;
                       ProgressHidden; StatusShown FileReceived "success"]))
            | Throw e, _ | _, Throw e => (Throw e, st2)
            end
          else (Normal tt, st2)
      end
  end.

(** The messages of the channel, handled one after the other; a handler
    that throws does not stop the ones after it. *)
Fixpoint receive_all (msgs : list dc_data) (st : receiver) : list (completion unit) * receiver :=
  match msgs with
  | [] => ([], st)
  | m :: rest =>
      let '(c, st1) := receiveFile m st in
      let '(cs, st2) := receive_all rest st1 in
      (c :: cs, st2)
  end.

End Client.

Definition is_download (e : effect) : bool :=
  match e with
  | Download _ _ _ => true
  | _ => false
  end.

(** The completions: the artifacts handed to [downloadFile]. *)
Definition downloads (st : receiver) : list effect :=
  filter (fun e => is_download e = true) (effects st).

Definition sent_frames (st : sender) : list dc_data :=
  omap (fun a => match a with Send d => Some d | _ => None end) (wire st).

Definition total_length (chunks : list buffer) : Z :=
  foldr (fun b acc => byteLength b + acc) 0 chunks.

(** The number of reads the sender issues for a file of [size] bytes. *)
Definition chunk_count (size : Z) : Z := Z.max 1 ((size + chunkSize - 1) `div` chunkSize).

End Transfer.

(** ** The handshake on the client (client.js) *)

Module Handshake.

(** *** Waiting for ICE gathering *)

Inductive ice_gathering_state : Type :=
| IceNew
| IceGathering
| IceComplete.

(** The promise returned by [waitForIceGatheringComplete] and what its
    executor registered: [settled] is the time at which the promise was
    resolved, [listening] whether [handler] is attached to
    icegatheringstatechange, [timer] the time at which the pending
    setTimeout callback is due. *)
Record waiter : Type := MkWaiter {
  settled : option Z;
  listening : bool;
  timer : option Z
}.

(** [resolve()]: resolving a settled promise does nothing. *)
Definition resolve (now : Z) (w : waiter) : waiter :=
  match settled w with
  | Some _ => w
  | None => MkWaiter (Some now) (listening w) (timer w)
  end.

Definition removeEventListener (w : waiter) : waiter :=
  MkWaiter (settled w) false (timer w).

(** [pc] is [None] when the argument is null, and otherwise the value of
    [pc.iceGatheringState] at the call; [timeout] is [None] when the
    argument is left out.  setTimeout takes a negative delay as 0. *)
Definition waitForIceGatheringComplete
    (pc : option ice_gathering_state) (timeout : option Z) (now : Z) : waiter :=
  let w := MkWaiter None false None in
  match pc with
  | None => resolve now w
  | Some IceComplete => resolve now w
  | Some _ => MkWaiter None true (Some (now + Z.max 0 (default 3000 timeout)))
  end.

(** The listener, called with the value of [pc.iceGatheringState]. *)
Definition handler (state : ice_gathering_state) (now : Z) (w : waiter) : waiter :=
  match state with
  | IceComplete => resolve now (removeEventListener w)
  | _ => w
  end.

(** The setTimeout callback. *)
Definition on_timeout (now : Z) (w : waiter) : waiter :=
  resolve now (removeEventListener (MkWaiter (settled w) (listening w) None)).

(** The event loop: the state changes of the connection arrive in time
    order; the timer callback runs when it is due, before a state change
    that is not earlier, and also when no state change follows. *)
Definition fire_timer_before (t : Z) (w : waiter) : waiter :=
  match timer w with
  | Some due => if decide (due <= t) then on_timeout due w else w
  | None => w
  end.

Definition fire_timer (w : waiter) : waiter :=
  match timer w with
  | Some due => on_timeout due w
  | None => w
  end.

Definition dispatch (state : ice_gathering_state) (t : Z) (w : waiter) : waiter :=
  if listening w then handler state t w else w.

Fixpoint run (events : list (Z * ice_gathering_state)) (w : waiter) : waiter :=
  match events with
  | [] => fire_timer w
  | (t, state) :: rest => run rest (dispatch state t (fire_timer_before t w))
  end.

Fixpoint chronological (now : Z) (events : list (Z * ice_gathering_state)) : bool :=
  match events with
  | [] => true
  | (t, _) :: rest => bool_decide (now <= t) && chronological t rest
  end.

(** The time of the first change to 'complete'. *)
Fixpoint first_complete (events : list (Z * ice_gathering_state)) : option Z :=
  match events with
  | [] => None
  | (t, IceComplete) :: _ => Some t
  | _ :: rest => first_complete rest
  end.

(** *** Token shortening *)

(** The browser: [URL_href text base] is [new URL(text, base).href], and
    [None] when the constructor throws.  [Number_toString n] is
    Number::toString of a number of magnitude 1e21 or more, which is in
    exponent form.  [textarea_value text] is the value of the textarea that
    the HTML parser builds from the markup [<textarea id="tok">], [text],
    [</textarea>] assigned to [innerHTML]: character references in [text]
    are decoded, a leading line feed is dropped, and the element ends at
    the first closing textarea tag inside [text]. *)
Class Browser : Type := {
  location_origin : string;
  URL_href : string -> string -> option string;
  Number_toString : Z -> string;
  textarea_value : string -> string
}.

(** How the request to POST /store ends: the fetch is rejected, or a
    response arrives whose [json()] is [None] when it rejects. *)
Inductive fetch_result : Type :=
| FetchRejected
| FetchResponse (ok : bool) (json : option jsval).

Inductive status_text : Type :=
| OfferShortUrlCreated
| AnswerShortUrlCreated
| ShortenFailed.

(** The part of the page and of the session that [ws.onmessage] touches.
    A token is a string or undefined. *)
Record page : Type := MkPage {
  tokenInput_value : string;
  qrcode : option (option string * Z);
  answerSection_shown : bool;
  statuses : list (status_text * string);
  store_requests : list (option string);
  peerConnection : bool;
  added_candidates : list jsval
}.

Section Client.
Context {J : JsonApi} {B : Browser}.

(** A string or undefined, written to a DOM string. *)
Definition dom_string (x : option string) : string := default "undefined" x.

(** ToString, as a template literal or a string concatenation applies
    it; a number below 1e21 in magnitude is written in decimal digits. *)
Fixpoint to_string (v : jsval) : string :=
  match v with
  | JUndefined => "undefined"
  | JNull => "null"
  | JBool b => if b then "true" else "false"
  | JNum n =>
      if decide (Z.abs n < 1000000000000000000000) then pretty n
      else Number_toString n
  | JStr s => s
  | JArr items =>
      join "," (map (fun x => match x with
                              | JUndefined | JNull => EmptyString
                              | _ => to_string x
                              end) items)
  | JObj _ => "[object Object]"
  end.

Definition storeTokenAndGetShortUrl (net : fetch_result) : completion string :=
  match net with
  | FetchRejected => Throw NetworkError
  | FetchResponse ok json =>
      if negb ok then Throw StoreFailed
      else
        match json with
        | None => Throw SyntaxError
        | Some body =>
            match get body "id" with
            | Throw e => Throw e
            | Normal id => Normal (location_origin +:+ "/t/" +:+ to_string id)
            end
        end
  end.

Definition generateQRCode (text : option string) (size : Z) (pg : page) : page :=
  let qrText :=
    match URL_href (dom_string text) location_origin with
    | Some href => Some href
    | None => text
    end in
  MkPage (tokenInput_value pg) (Some (qrText, size)) (answerSection_shown pg)
    (statuses pg) (store_requests pg) (peerConnection pg) (added_candidates pg).

Definition set_tokenInput (x : option string) (pg : page) : page :=
  MkPage (dom_string x) (qrcode pg) (answerSection_shown pg)
    (statuses pg) (store_requests pg) (peerConnection pg) (added_candidates pg).

Definition show_answerSection (pg : page) : page :=
  MkPage (tokenInput_value pg) (qrcode pg) true
    (statuses pg) (store_requests pg) (peerConnection pg) (added_candidates pg).

Definition showStatus (msg : status_text) (kind : string) (pg : page) : page :=
  MkPage (tokenInput_value pg) (qrcode pg) (answerSection_shown pg)
    (statuses pg ++ [(msg, kind)]) (store_requests pg) (peerConnection pg)
    (added_candidates pg).

Definition fetch_store (tokenString : option string) (pg : page) : page :=
  MkPage (tokenInput_value pg) (qrcode pg) (answerSection_shown pg)
    (statuses pg) (store_requests pg ++ [tokenString]) (peerConnection pg)
    (added_candidates pg).

Definition addIceCandidate (candidate : jsval) (pg : page) : page :=
  MkPage (tokenInput_value pg) (qrcode pg) (answerSection_shown pg)
    (statuses pg) (store_requests pg) (peerConnection pg)
    (added_candidates pg ++ [candidate]).

(** [ws.onmessage], with the outcome [net] of the request to the token
    store that it makes for an offer-created or answer-created message. *)
Definition ws_onmessage (evt_data : string) (net : fetch_result) (pg : page)
    : completion unit * page :=
  match JSON_parse evt_data with
  | None => (Throw SyntaxError, pg)
  | Some data =>
      match get data "type" with
      | Throw e => (Throw e, pg)
      | Normal type =>
          if strict_eq_str type "offer-created" then
            match get data "offer" with
            | Throw e => (Throw e, pg)
            | Normal offer =>
                let offerToken := JSON_stringify offer in
                let pg1 := fetch_store offerToken pg in
                match storeTokenAndGetShortUrl net with
                | Normal short =>
                    (Normal tt,
                     showStatus OfferShortUrlCreated "info"
                       (show_answerSection
                          (generateQRCode (Some short) 128
                             (set_tokenInput (Some short) pg1))))
                | Throw _ =>
                    (Normal tt,
                     showStatus ShortenFailed "error"
                       (generateQRCode offerToken 256 (set_tokenInput offerToken pg1)))
                end
            end
          else if strict_eq_str type "answer-created" then
            match get data "answer" with
            | Throw e => (Throw e, pg)
            | Normal answer =>
                let answerToken := JSON_stringify answer in
                let pg1 := fetch_store answerToken pg in
                match storeTokenAndGetShortUrl net with
                | Normal short =>
                    (Normal tt,
                     showStatus AnswerShortUrlCreated "success"
                       (generateQRCode (Some short) 128
                          (set_tokenInput (Some short) pg1)))
                | Throw _ =>
                    (Normal tt,
                     showStatus ShortenFailed "error"
                       (generateQRCode answerToken 256 (set_tokenInput answerToken pg1)))
                end
            end
          else if strict_eq_str type "ice-candidate" && peerConnection pg then
            match get data "candidate" with
            | Throw e => (Throw e, pg)
            | Normal candidate => (Normal tt, addIceCandidate candidate pg)
            end
          else (Normal tt, pg)
      end
  end.

End Client.

End Handshake.

(** ** The /signal store (index.js) *)

Module SignalStore.

(** An entry of [SIGNAL_STORE]: the sdp and the handle of its expiry
    timer. *)
Record entry : Type := MkEntry {
  sdp : jsval;
  timeout : nat
}.

(** [timers] are the pending setTimeout callbacks, each with its handle,
    the time at which it is due and the token it deletes; [next_timer] is
    the handle the next setTimeout returns. *)
Record store : Type := MkStore {
  SIGNAL_STORE : gmap string entry;
  timers : list (nat * Z * string);
  next_timer : nat
}.

Definition SIGNAL_TTL : Z := 2 * 60 * 1000.

Inductive response : Type :=
| Json (status : Z) (body : jsval)
| ServerError.

Definition clearTimeout (h : nat) (ts : list (nat * Z * string)) : list (nat * Z * string) :=
  filter (fun t => t.1.1 ≠ h) ts.

(** POST /signal.  [token] is what [crypto.randomBytes(6).toString
    ('base64url')] returns for this request. *)
Definition post_signal (now : Z) (token : string) (body : jsval) (st : store)
    : response * store :=
  match get (if truthy body then body else JObj []) "sdp" with
  | Throw _ => (ServerError, st)
  | Normal sdp =>
      if negb (truthy sdp) then
        (Json 400 (JObj [("error", JStr "missing sdp")]), st)
      else
        let entries :=
          if decide (is_Some (SIGNAL_STORE st !! token))
          then delete token (SIGNAL_STORE st)
          else SIGNAL_STORE st in
        let h := next_timer st in
        (Json 200 (JObj [("token", JStr token)]),
         MkStore (<[token := MkEntry sdp h]> entries)
           (timers st ++ [(h, now + SIGNAL_TTL, token)])
           (S h))
  end.

(** GET /signal/:token. *)
Definition get_signal (token : string) (st : store) : response * store :=
  match SIGNAL_STORE st !! token with
  | None => (Json 404 (JObj [("error", JStr "not found or expired")]), st)
  | Some e =>
      (Json 200 (JObj [("sdp", sdp e)]),
       MkStore (delete token (SIGNAL_STORE st))
         (clearTimeout (timeout e) (timers st))
         (next_timer st))
  end.

Inductive request : Type :=
| PostSignal (token : string) (body : jsval)
| GetSignal (token : string).

Definition route (now : Z) (r : request) (st : store) : response * store :=
  match r with
  | PostSignal token body => post_signal now token body st
  | GetSignal token => get_signal token st
  end.

(** The timers phase of the event loop, as for the token store. *)
Definition run_timers (now : Z) (st : store) : store :=
  MkStore
    (foldl (fun m t => if decide (t.1.2 <= now) then delete t.2 m else m)
           (SIGNAL_STORE st) (timers st))
    (filter (fun t => now < t.1.2) (timers st))
    (next_timer st).

Definition serve (now : Z) (r : request) (st : store) : response * store :=
  route now r (run_timers now st).

Fixpoint serve_all (reqs : list (Z * request)) (st : store) : store :=
  match reqs with
  | [] => st
  | (now, r) :: rest => serve_all rest (serve now r st).2
  end.

Definition init : store := MkStore ∅ [] 0.

Definition draws (token : string) (e : Z * request) : bool :=
  match e.2 with
  | PostSignal token' _ => bool_decide (token' = token)
  | GetSignal _ => false
  end.

End SignalStore.

(** ** The relay as a server: its events in sequence (server.js) *)

Module RelayServer.
Import Relay.

(** What happens to the relay: a socket connects, a frame arrives on a
    socket, a socket closes or fails, or the ws library moves a socket to
    another state. *)
Inductive event : Type :=
| Connection (ws : conn)
| Message (ws : conn) (message : string)
| Close (ws : conn)
| Error (ws : conn)
| ReadyState (ws : conn) (state : ready_state).

Definition set_readyState (ws : conn) (state : ready_state) (st : relay) : relay :=
  MkRelay (clients st)
    (fun c => if decide (c = ws) then state else readyState st c)
    (sent st) (log st).

Section Loop.
Context {J : JsonApi} {W : WsLibrary}.

(** The listener that an event runs. *)
Definition listener (v : variant) (e : event) : act unit :=
  match e with
  | Connection ws => on_connection v ws
  | Message ws message => on_message v ws message
  | Close ws => on_close ws
  | Error ws => on_error ws
  | ReadyState ws state => fun st => (Normal tt, set_readyState ws state st)
  end.

(** The events in order; an exception that leaves a listener ends the
    run, with the state as the listener left it. *)
Fixpoint run (v : variant) (events : list event) (st : relay) : completion unit * relay :=
  match events with
  | [] => (Normal tt, st)
  | e :: rest =>
      match listener v e st with
      | (Normal _, st') => run v rest st'
      | (Throw error, st') => (Throw error, st')
      end
  end.

End Loop.

(** The relay when the server starts. *)
Definition start (states : conn -> ready_state) : relay := MkRelay [] states [] [].

(** The sockets that connected and have not closed or failed since. *)
Fixpoint connected (events : list event) (acc : list conn) : list conn :=
  match events with
  | [] => acc
  | Connection ws :: rest =>
      connected rest (if decide (ws ∈ acc) then acc else acc ++ [ws])
  | Close ws :: rest | Error ws :: rest =>
      connected rest (filter (fun c => c ≠ ws) acc)
  | _ :: rest => connected rest acc
  end.

End RelayServer.

(** ** The share button (client.js) *)

Module SharePage.
Import Transfer.

(** [dataChannel.readyState]. *)
Inductive channel_state : Type :=
| ChConnecting
| ChOpen
| ChClosing
| ChClosed.

(** The two error statuses of the click handler. *)
Inductive refusal : Type :=
| EstablishConnectionFirst
| SelectAFile.

(** [let currentFile = null, fileReader = null, offset = 0], nothing sent
    or shown yet. *)
Definition sender_init : sender := MkSender None 0 None [] [].

Section Click.
Context {J : JsonApi}.

(** The click listener of [shareBtn]; [dataChannel] is [None] while the
    variable is null.  The third component is the error status it shows,
    if any. *)
Definition share_click (dataChannel : option channel_state) (selectedFiles : list file)
    (st : sender) : completion unit * sender * option refusal :=
  match dataChannel with
  | Some ChOpen =>
      match selectedFiles with
      | [] => (Normal tt, st, Some SelectAFile)
      | _ =>
          let r := sendFiles selectedFiles st in
          (r.1, r.2, None)
      end
  | _ => (Normal tt, st, Some EstablishConnectionFirst)
  end.

End Click.


End SharePage.

(** ** The short link between client, server and reveal page *)

Module ShortLink.
Import Handshake.

(** The body of the request of [storeTokenAndGetShortUrl], as express.json()
    hands it to the route: JSON.stringify leaves out a token that is
    undefined. *)
Definition store_request_body (tokenString : option string) : jsval :=
  JObj (match tokenString with
        | Some s => [("token", JStr s)]
        | None => []
        end).

(** A response of the server as [fetch] sees it: [ok] for a status from 200
    to 299, and [json()] rejects on a page. *)
Definition fetch_of (r : TokenStore.response) : fetch_result :=
  match r with
  | TokenStore.Json status body =>
      FetchResponse (bool_decide (200 <= status <= 299)) (Some body)
  | TokenStore.Html status _ =>
      FetchResponse (bool_decide (200 <= status <= 299)) None
  | TokenStore.ServerError => FetchResponse false None
  end.

(** What the reveal page shows after its button was pressed. *)
Inductive reveal_view : Type :=
| ShowExpired
| ShowToken (token : string).

Section Page.
Context {B : Browser}.

(** [reveal()] of the page served by GET /t/:id, with the outcome [net] of
    its request to /consume/:id.  The token is concatenated into markup
    and assigned to [area.innerHTML]; what the page shows is the value of
    the textarea the parser builds from it. *)
Definition reveal (net : fetch_result) : reveal_view :=
  match net with
  | FetchRejected => ShowExpired
  | FetchResponse _ None => ShowExpired
  | FetchResponse _ (Some j) =>
      match get j "error" with
      | Throw _ => ShowExpired
      | Normal error =>
          if truthy error then ShowExpired
          else
            match get j "token" with
            | Throw _ => ShowExpired
            | Normal token => ShowToken (textarea_value (to_string token))
            end
      end
  end.

End Page.

End ShortLink.

(** ** Trickled candidates from peer to peer *)

Module Trickle.
Import Relay.

(** The object the relay stringifies for a frame. *)
Definition encode (m : server_msg) : jsval :=
  match m with
  | Connected =>
      JObj [("type", JStr "connected"); ("message", JStr "Connected to signaling server")]
  | OfferCreated offer => JObj [("type", JStr "offer-created"); ("offer", offer)]
  | AnswerCreated answer => JObj [("type", JStr "answer-created"); ("answer", answer)]
  | IceCandidate candidate => JObj [("type", JStr "ice-candidate"); ("candidate", candidate)]
  | ErrorMsg => JObj [("type", JStr "error"); ("message", JStr "invalid message")]
  end.

Section Client.
Context {J : JsonApi}.

(** [peerConnection.onicecandidate]: what it sends on the relay socket,
    if anything.  The event that ends gathering carries a null candidate. *)
Definition onicecandidate (candidate : jsval) : option (option string) :=
  if truthy candidate then
    Some (JSON_stringify (JObj [("type", JStr "ice-candidate"); ("candidate", candidate)]))
  else None.

End Client.

End Trickle.

(** ** Offer and answer on the client (client.js) *)

Module Negotiation.
Import Handshake.

(** The browser functions the handlers call on texts: [URL_parts text
    base] is the pathname and the href of [new URL(text, base)], and
    [None] when the constructor throws. *)
Class PageApi : Type := {
  String_trim : string -> string;
  URL_parts : string -> string -> option (string * string)
}.

(** How the request for a short link ends: the fetch is rejected, or a
    response arrives whose [text()] is [None] when it rejects. *)
Inductive page_fetch : Type :=
| PageRejected
| PageResponse (ok : bool) (text : option string).

(** How the peer connection and the relay socket answer when the handlers
    call them: whether the constructor and each promise succeed, what
    [createOffer] and [createAnswer] resolve to, and the local description
    read afterwards. *)
Record rtc_outcome : Type := MkOutcome {
  constructs : bool;
  createDataChannel_ok : bool;
  setRemoteDescription_ok : bool;
  createOffer_result : option jsval;
  createAnswer_result : option jsval;
  setLocalDescription_ok : bool;
  localDescription : jsval;
  ws_send_ok : bool
}.

(** What a handler asks of the network and of the peer connection. *)
Inductive step : Type :=
| Fetch (href : string)
| NewPeerConnection
| CreateDataChannel
| SetRemoteDescription (description : jsval)
| CreateOffer
| CreateAnswer
| SetLocalDescription (description : jsval)
| WaitForIceGathering
| WsSend (text : option string).

Inductive failure : Type :=
| Thrown (e : js_error)
| Rejected.

Inductive status_text : Type :=
| SignalingNotConnected
| OfferCreatedStatus
| InvalidOfferToken
| AnswerCreatedStatus
| ErrorProcessingToken (f : failure)
| PleasePasteAnswerToken
| InvalidAnswerToken
| ConnectionEstablished
| ErrorConnecting (f : failure).

(** The variables and the page elements the handlers touch;
    [dataChannel_open] is [dataChannel && dataChannel.readyState ===
    'open']. *)
Record session : Type := MkSession {
  isInitiator : bool;
  peerConnection : bool;
  dataChannel_open : bool;
  steps : list step;
  shown : list (status_text * string);
  answerInput_value : string;
  fileInput_disabled : bool;
  shareBtn_disabled : bool
}.

Definition did (a : step) (ss : session) : session :=
  MkSession (isInitiator ss) (peerConnection ss) (dataChannel_open ss)
    (steps ss ++ [a]) (shown ss) (answerInput_value ss)
    (fileInput_disabled ss) (shareBtn_disabled ss).

Definition showStatus (msg : status_text) (kind : string) (ss : session) : session :=
  MkSession (isInitiator ss) (peerConnection ss) (dataChannel_open ss)
    (steps ss) (shown ss ++ [(msg, kind)]) (answerInput_value ss)
    (fileInput_disabled ss) (shareBtn_disabled ss).

Definition set_isInitiator (b : bool) (ss : session) : session :=
  MkSession b (peerConnection ss) (dataChannel_open ss)
    (steps ss) (shown ss) (answerInput_value ss)
    (fileInput_disabled ss) (shareBtn_disabled ss).

Definition set_peerConnection (ss : session) : session :=
  MkSession (isInitiator ss) true (dataChannel_open ss)
    (steps ss) (shown ss) (answerInput_value ss)
    (fileInput_disabled ss) (shareBtn_disabled ss).

(** [dataChannel = peerConnection.createDataChannel(...)]: the variable
    now holds a channel that is not open yet. *)
Definition set_dataChannel_connecting (ss : session) : session :=
  MkSession (isInitiator ss) (peerConnection ss) false
    (steps ss) (shown ss) (answerInput_value ss)
    (fileInput_disabled ss) (shareBtn_disabled ss).

(** [fileInput.disabled = false; if (dataChannel && dataChannel.readyState
    === 'open') shareBtn.disabled = false]. *)
Definition enable_inputs (ss : session) : session :=
  MkSession (isInitiator ss) (peerConnection ss) (dataChannel_open ss)
    (steps ss) (shown ss) (answerInput_value ss)
    false (if dataChannel_open ss then false else shareBtn_disabled ss).

Section Handlers.
Context {J : JsonApi} {B : Browser} {P : PageApi}.

(** The inner [try { ... } catch {}] of the three handlers: a text that
    is a URL under /t/ is replaced by the body fetched from it; every
    failure on the way is swallowed and leaves the text as it was. *)
Definition resolve_token (text : string) (page : page_fetch) (ss : session)
    : string * session :=
  match URL_parts text location_origin with
  | Some (pathname, href) =>
      if String.prefix "/t/" pathname then
        match page with
        | PageResponse true (Some body) => (body, did (Fetch href) ss)
        | _ => (text, did (Fetch href) ss)
        end
      else (text, ss)
  | None => (text, ss)
  end.

(** [createPeerConnection()]. *)
Definition createPeerConnection (rtc : rtc_outcome) (ss : session)
    : completion unit * session :=
  if constructs rtc then (Normal tt, set_peerConnection (did NewPeerConnection ss))
  else (Throw TypeError, did NewPeerConnection ss).

(** The statements of [handleScannedOrPastedToken] after the token was
    parsed and found to be an offer; [inl f] when one of them fails. *)
Definition answer_offer (obj : jsval) (rtc : rtc_outcome) (ss : session)
    : (failure + unit) * session :=
  let ss := set_isInitiator false ss in
  match createPeerConnection rtc ss with
  | (Throw e, ss) => (inl (Thrown e), ss)
  | (Normal _, ss) =>
      let ss := did (SetRemoteDescription obj) ss in
      if negb (setRemoteDescription_ok rtc) then (inl Rejected, ss)
      else
        let ss := did CreateAnswer ss in
        match createAnswer_result rtc with
        | None => (inl Rejected, ss)
        | Some answer =>
            let ss := did (SetLocalDescription answer) ss in
            if negb (setLocalDescription_ok rtc) then (inl Rejected, ss)
            else
              let ss := did WaitForIceGathering ss in
              let ss :=
                did (WsSend (JSON_stringify
                               (JObj [("type", JStr "answer");
                                      ("answer", localDescription rtc)]))) ss in
              if negb (ws_send_ok rtc) then (inl (Thrown NotOpenError), ss)
              else (inr tt, showStatus AnswerCreatedStatus "info" ss)
        end
  end.

(** [handleScannedOrPastedToken(tokenOrUrl)]. *)
Definition handleScannedOrPastedToken (tokenOrUrl : string) (page : page_fetch)
    (rtc : rtc_outcome) (ss : session) : session :=
  let '(text, ss) := resolve_token (String_trim tokenOrUrl) page ss in
  match JSON_parse text with
  | None => showStatus (ErrorProcessingToken (Thrown SyntaxError)) "error" ss
  | Some obj =>
      match get obj "type" with
      | Throw e => showStatus (ErrorProcessingToken (Thrown e)) "error" ss
      | Normal type =>
          if negb (strict_eq_str type "offer") then
            showStatus InvalidOfferToken "error" ss
          else
            match answer_offer obj rtc ss with
            | (inl f, ss) => showStatus (ErrorProcessingToken f) "error" ss
            | (inr _, ss) => ss
            end
      end
  end.

(** The click listener of [connectBtn]. *)
Definition connect_click (page : page_fetch) (rtc : rtc_outcome) (ss : session)
    : session :=
  let answerText := String_trim (answerInput_value ss) in
  if String.eqb answerText EmptyString then
    showStatus PleasePasteAnswerToken "error" ss
  else
    let '(answerText, ss) := resolve_token answerText page ss in
    match JSON_parse answerText with
    | None => showStatus (ErrorConnecting (Thrown SyntaxError)) "error" ss
    | Some answerData =>
        match get answerData "type" with
        | Throw e => showStatus (ErrorConnecting (Thrown e)) "error" ss
        | Normal type =>
            if negb (strict_eq_str type "answer") then
              showStatus InvalidAnswerToken "error" ss
            else if negb (peerConnection ss) then
              showStatus (ErrorConnecting (Thrown TypeError)) "error" ss
            else
              let ss := did (SetRemoteDescription answerData) ss in
              if negb (setRemoteDescription_ok rtc) then
                showStatus (ErrorConnecting Rejected) "error" ss
              else
                enable_inputs (showStatus ConnectionEstablished "success" ss)
        end
    end.

(** The click listener of [createConnectionBtn]; [ws_open] is
    [ws.readyState === WebSocket.OPEN].  Nothing catches what its awaits
    reject with. *)
Definition create_connection_click (ws_open : bool) (rtc : rtc_outcome) (ss : session)
    : (failure + unit) * session :=
  if negb ws_open then (inr tt, showStatus SignalingNotConnected "error" ss)
  else
    let ss := set_isInitiator true ss in
    match createPeerConnection rtc ss with
    | (Throw e, ss) => (inl (Thrown e), ss)
    | (Normal _, ss) =>
        let ss := did CreateDataChannel ss in
        if negb (createDataChannel_ok rtc) then (inl (Thrown TypeError), ss)
        else
          let ss := did CreateOffer (set_dataChannel_connecting ss) in
          match createOffer_result rtc with
          | None => (inl Rejected, ss)
          | Some offer =>
              let ss := did (SetLocalDescription offer) ss in
              if negb (setLocalDescription_ok rtc) then (inl Rejected, ss)
              else
                let ss := did WaitForIceGathering ss in
                let ss :=
                  did (WsSend (JSON_stringify
                                 (JObj [("type", JStr "offer");
                                        ("offer", localDescription rtc)]))) ss in
                if negb (ws_send_ok rtc) then (inl (Thrown NotOpenError), ss)
                else (inr tt, showStatus OfferCreatedStatus "info" ss)
          end
    end.

(** A response of the server as the [fetch] of a handler sees it; [html]
    is the text of a page.  [res.json(body)] sends [JSON.stringify(body)],
    and nothing when that is undefined.  The handlers throw on a response
    that is not ok before they read its text. *)
Definition page_of (html : TokenStore.page -> string) (r : TokenStore.response)
    : page_fetch :=
  match r with
  | TokenStore.Html status body =>
      PageResponse (bool_decide (200 <= status <= 299)) (Some (html body))
  | TokenStore.Json status body =>
      PageResponse (bool_decide (200 <= status <= 299))
        (Some (default EmptyString (JSON_stringify body)))
  | TokenStore.ServerError => PageResponse false None
  end.

End Handlers.

(** The steps of the responder and of the initiator, in the order of the
    statements of their handlers. *)
Definition responder_steps (offer answer : jsval) (text : option string) : list step :=
  [NewPeerConnection; SetRemoteDescription offer; CreateAnswer;
   SetLocalDescription answer; WaitForIceGathering; WsSend text].

Definition initiator_steps (offer : jsval) (text : option string) : list step :=
  [NewPeerConnection; CreateDataChannel; CreateOffer;
   SetLocalDescription offer; WaitForIceGathering; WsSend text].

Definition is_Fetch (a : step) : bool :=
  match a with
  | Fetch _ => true
  | _ => false
  end.

(** Whether a step succeeds under the outcomes [rtc], and what it fails
    with when it does not: a constructor or a method throws, a promise
    rejects. *)
Definition succeeds (rtc : rtc_outcome) (a : step) : bool :=
  match a with
  | Fetch _ => true
  | NewPeerConnection => constructs rtc
  | CreateDataChannel => createDataChannel_ok rtc
  | SetRemoteDescription _ => setRemoteDescription_ok rtc
  | CreateOffer => bool_decide (is_Some (createOffer_result rtc))
  | CreateAnswer => bool_decide (is_Some (createAnswer_result rtc))
  | SetLocalDescription _ => setLocalDescription_ok rtc
  | WaitForIceGathering => true
  | WsSend _ => ws_send_ok rtc
  end.

Definition failure_of (a : step) : failure :=
  match a with
  | NewPeerConnection | CreateDataChannel => Thrown TypeError
  | WsSend _ => Thrown NotOpenError
  | _ => Rejected
  end.

(** A plan of steps, each attempted only after the one before it
    succeeded: the steps that are attempted, and the failure that ends
    the plan, if any. *)
Fixpoint until_failure (rtc : rtc_outcome) (plan : list step) : list step :=
  match plan with
  | [] => []
  | a :: rest => a :: (if succeeds rtc a then until_failure rtc rest else [])
  end.

Fixpoint first_failure (rtc : rtc_outcome) (plan : list step) : option failure :=
  match plan with
  | [] => None
  | a :: rest => if succeeds rtc a then first_failure rtc rest else Some (failure_of a)
  end.

End Negotiation.

(** ** A concrete engine for the examples *)

Module Samples.

Definition dquote : string := String (Ascii.ascii_of_nat 34) EmptyString.

Definition json_quote (s : string) : string := dquote +:+ s +:+ dquote.

(** JSON.stringify on values whose strings and keys need no escaping. *)
Fixpoint stringify (v : jsval) : option string :=
  match v with
  | JUndefined => None
  | JNull => Some "null"
  | JBool b => Some (if b then "true" else "false")
  | JNum n => Some (pretty n)
  | JStr s => Some (json_quote s)
  | JArr items =>
      Some ("[" +:+ join "," (map (fun x => default "null" (stringify x)) items) +:+ "]")
  | JObj fields =>
      Some ("{" +:+
            join "," (omap (fun kv => (fun t => json_quote kv.1 +:+ ":" +:+ t)
                                        <$> stringify kv.2) fields)
            +:+ "}")
  end.

Definition ice_message : jsval :=
  JObj [("type", JStr "ice-candidate"); ("candidate", JStr "candidate:1 1 udp 1 10.0.0.1 9 typ host")].

Definition offer_sdp : jsval :=
  JObj [("type", JStr "offer"); ("sdp", JStr "v=0")].

Definition offer_created_message : jsval :=
  JObj [("type", JStr "offer-created"); ("offer", offer_sdp)].

Definition ping_message : jsval := JObj [("type", JStr "ping")].

Definition offer_message : jsval :=
  JObj [("type", JStr "offer"); ("offer", offer_sdp)].

Definition metadata_message (size : Z) : jsval :=
  JObj [("type", JStr "metadata"); ("name", JStr "a.bin"); ("size", JNum size);
        ("fileType", JStr "application/octet-stream")].

(** The texts JSON.parse is asked about in the examples, with the values
    it returns for them. *)
Definition parse_table : list (string * jsval) :=
  (fun v => (default EmptyString (stringify v), v)) <$>
    [ice_message; offer_created_message; ping_message; JNull;
     metadata_message 0; metadata_message 1; metadata_message 3].

Fixpoint assoc (text : string) (table : list (string * jsval)) : option jsval :=
  match table with
  | [] => None
  | (t, v) :: rest => if String.eqb text t then Some v else assoc text rest
  end.

Definition json : JsonApi :=
  {| JSON_parse := fun text => assoc text parse_table;
     JSON_stringify := stringify |}.

Definition text_of (v : jsval) : string := default EmptyString (stringify v).

(** The same engine, asked about an offer as well. *)
Definition json_with_offer : JsonApi :=
  {| JSON_parse := fun text => assoc text ((text_of offer_message, offer_message) :: parse_table);
     JSON_stringify := stringify |}.

(** The percent-encoding of a path, on printable ASCII. *)
Fixpoint percent_encode (text : string) : string :=
  match text with
  | EmptyString => EmptyString
  | String c rest =>
      (if Ascii.eqb c (Ascii.ascii_of_nat 34) then "%22"
       else if Ascii.eqb c (Ascii.ascii_of_nat 32) then "%20"
       else if Ascii.eqb c (Ascii.ascii_of_nat 60) then "%3C"
       else if Ascii.eqb c (Ascii.ascii_of_nat 62) then "%3E"
       else if Ascii.eqb c (Ascii.ascii_of_nat 96) then "%60"
       else if Ascii.eqb c (Ascii.ascii_of_nat 123) then "%7B"
       else if Ascii.eqb c (Ascii.ascii_of_nat 125) then "%7D"
       else String c EmptyString) +:+ percent_encode rest
  end.

Fixpoint strip_zeros (digits : string) : string :=
  match digits with
  | EmptyString => EmptyString
  | String c rest =>
      let rest' := strip_zeros rest in
      if Ascii.eqb c (Ascii.ascii_of_nat 48) && String.eqb rest' EmptyString then EmptyString
      else String c rest'
  end.

(** The exponent form of an integer whose decimal digits, without the
    zeros at the end, are the shortest that identify the number. *)
Definition exponent_form (n : Z) : string :=
  let digits := pretty (Z.abs n) in
  (if n <? 0 then "-" else EmptyString) +:+
  match strip_zeros digits with
  | EmptyString => "0"
  | String d EmptyString => String d EmptyString
  | String d more => String d ("." +:+ more)
  end +:+ "e+" +:+ pretty (Z.of_nat (String.length digits) - 1).

(** A page served from one origin.  An absolute https text is its own
    href; any other text (without scheme, query, fragment or backslash)
    is a relative reference, resolved against the base with its path
    percent-encoded.  The textarea is given for texts without character
    references, closing tags or a leading line feed. *)
Definition browser : Handshake.Browser :=
  {| Handshake.location_origin := "https://sendu.example";
     Handshake.URL_href := fun text base =>
       if String.prefix "https://" text then Some text
       else Some (base +:+ "/" +:+ percent_encode text);
     Handshake.Number_toString := exponent_form;
     Handshake.textarea_value := fun text => text |}.

(** [trim] on texts without white space at either end, and [new URL] on
    absolute texts of the page's own origin. *)
Definition page_api : Negotiation.PageApi :=
  {| Negotiation.String_trim := fun text => text;
     Negotiation.URL_parts := fun text base =>
       if String.prefix base text then
         Some (String.substring (String.length base)
                 (String.length text - String.length base) text, text)
       else None |}.

Definition html (p : TokenStore.page) : string :=
  match p with
  | TokenStore.ExpiredPage => "<html><body><h2>Token expired or already used</h2></body></html>"
  | TokenStore.RevealPage id =>
      "<!doctype html><html><body><script>fetch('/consume/" +:+ id +:+ "')</script></body></html>"
  end.

Definition three_bytes : Transfer.file :=
  Transfer.MkFile "a.bin" "application/octet-stream" [Byte.x01; Byte.x02; Byte.x03].

Definition zeros (size : Z) : Transfer.file :=
  Transfer.MkFile "zeros.bin" "application/octet-stream"
    (replicate (Z.to_nat size) Byte.x00).

End Samples.

(** ** Properties of the token store *)

Section TokenStoreFacts.
Import TokenStore.

Implicit Types (st : store) (m : gmap string jsval) (k id uuid : string).

Ltac store_unfold :=
  unfold mbind, mret, handler_bind, handler_ret, tokens_get, tokens_set,
    tokens_delete, setTimeout_delete, run_timers in *;
  simpl in *.

Lemma expire_keeps_absent now (ts : list (Z * string)) m k :
  m !! k = None ->
  foldl (fun m t => if decide (t.1 <= now) then delete t.2 m else m) m ts !! k = None.
Proof.
  revert m. induction ts as [|t ts IH]; intros m Hm; simpl; [done|].
  apply IH. case_decide; [|done].
  destruct (decide (t.2 = k)) as [->|Hne].
  - apply lookup_delete_eq.
  - by rewrite lookup_delete_ne.
Qed.

Lemma expire_keeps_live now (ts : list (Z * string)) m k :
  (forall d, (d, k) ∈ ts -> now < d) ->
  foldl (fun m t => if decide (t.1 <= now) then delete t.2 m else m) m ts !! k = m !! k.
Proof.
  revert m. induction ts as [|[d k'] ts IH]; intros m Hts; simpl; [done|].
  rewrite IH.
  - case_decide as Hd; [|done]. simpl in Hd.
    destruct (decide (k' = k)) as [->|Hne].
    + specialize (Hts d (list_elem_of_here _ _)). lia.
    + by rewrite lookup_delete_ne.
  - intros d' Hin. apply Hts. by apply list_elem_of_further.
Qed.

Lemma expire_deletes_only_due now (ts : list (Z * string)) m k v :
  m !! k = Some v ->
  foldl (fun m t => if decide (t.1 <= now) then delete t.2 m else m) m ts !! k = None ->
  exists d, (d, k) ∈ ts /\ d <= now.
Proof.
  revert m. induction ts as [|[d k'] ts IH]; intros m Hm Hf; simpl in Hf.
  - congruence.
  - destruct (decide (d <= now)) as [Hd|Hd].
    + destruct (decide (k' = k)) as [->|Hne].
      * exists d. split; [apply list_elem_of_here | done].
      * destruct (IH (delete k' m)) as (d' & Hin & Hle);
          [by rewrite lookup_delete_ne | done |].
        exists d'. split; [by apply list_elem_of_further | done].
    + destruct (IH m Hm Hf) as (d' & Hin & Hle).
      exists d'. split; [by apply list_elem_of_further | done].
Qed.

Lemma run_timers_pending now st d k :
  (d, k) ∈ timers (run_timers now st) -> (d, k) ∈ timers st /\ now < d.
Proof.
  unfold run_timers; simpl. rewrite list_elem_of_filter. simpl. tauto.
Qed.

Lemma serve_keeps_live now uuid token t r st :
  t < now + TOKEN_TTL ->
  stores_at uuid (t, r) = false -> consumes uuid (t, r) = false ->
  tokens st !! uuid = Some token ->
  (forall d, (d, uuid) ∈ timers st -> now + TOKEN_TTL <= d) ->
  tokens (serve t r st).2 !! uuid = Some token /\
  (forall d, (d, uuid) ∈ timers (serve t r st).2 -> now + TOKEN_TTL <= d).
Proof.
  intros Ht Hs Hc Hlive Hdue.
  assert (Hrun : tokens (run_timers t st) !! uuid = Some token).
  { unfold run_timers; simpl. rewrite expire_keeps_live; [done|].
    intros d Hd. specialize (Hdue d Hd). lia. }
  assert (Hpend : forall d, (d, uuid) ∈ timers (run_timers t st) -> now + TOKEN_TTL <= d).
  { intros d Hd. apply run_timers_pending in Hd as [Hd _]. by apply Hdue. }
  unfold serve. destruct r as [u body|id|id]; simpl.
  - unfold stores_at in Hs; simpl in Hs. apply bool_decide_eq_false in Hs.
    unfold post_store. destruct (get body "token") as [tok|e]; [|done].
    destruct (truthy tok); simpl; [|done].
    unfold mbind, handler_bind; simpl. split.
    + by rewrite lookup_insert_ne.
    + intros d Hd. apply elem_of_app in Hd as [Hd|Hd]; [by apply Hpend|].
      apply list_elem_of_singleton in Hd. congruence.
  - unfold get_t, mbind, handler_bind, tokens_get; simpl.
    by destruct (negb _).
  - unfold consumes in Hc; simpl in Hc. apply bool_decide_eq_false in Hc.
    unfold get_consume, mbind, handler_bind, tokens_get; simpl.
    destruct (negb _); simpl; [done|].
    by rewrite lookup_delete_ne.
Qed.

Lemma serve_all_keeps_live now uuid token reqs st :
  Forall (fun e => e.1 < now + TOKEN_TTL /\
                   stores_at uuid e = false /\ consumes uuid e = false) reqs ->
  tokens st !! uuid = Some token ->
  (forall d, (d, uuid) ∈ timers st -> now + TOKEN_TTL <= d) ->
  tokens (serve_all reqs st) !! uuid = Some token /\
  (forall d, (d, uuid) ∈ timers (serve_all reqs st) -> now + TOKEN_TTL <= d).
Proof.
  intros Hreqs. revert st.
  induction Hreqs as [|[t r] reqs (Ht & Hs & Hc) _ IH]; intros st Hlive Hdue; simpl.
  - done.
  - destruct (serve_keeps_live now uuid token t r st Ht Hs Hc Hlive Hdue) as [H1 H2].
    by apply IH.
Qed.

Lemma serve_keeps_absent uuid t r st :
  stores_at uuid (t, r) = false ->
  tokens st !! uuid = None ->
  tokens (serve t r st).2 !! uuid = None.
Proof.
  intros Hs Habs.
  assert (Hrun : tokens (run_timers t st) !! uuid = None).
  { unfold run_timers; simpl. by apply expire_keeps_absent. }
  unfold serve. destruct r as [u body|id|id]; simpl.
  - unfold stores_at in Hs; simpl in Hs. apply bool_decide_eq_false in Hs.
    unfold post_store. destruct (get body "token") as [tok|e]; [|done].
    destruct (truthy tok); simpl; [|done].
    unfold mbind, handler_bind; simpl. by rewrite lookup_insert_ne.
  - unfold get_t, mbind, handler_bind, tokens_get; simpl.
    by destruct (negb _).
  - unfold get_consume, mbind, handler_bind, tokens_get; simpl.
    destruct (negb _); simpl; [done|].
    destruct (decide (id = uuid)) as [->|Hne].
    + apply lookup_delete_eq.
    + by rewrite lookup_delete_ne.
Qed.

Lemma serve_all_keeps_absent uuid reqs st :
  Forall (fun e => stores_at uuid e = false) reqs ->
  tokens st !! uuid = None ->
  tokens (serve_all reqs st) !! uuid = None.
Proof.
  intros Hreqs. revert st.
  induction Hreqs as [|[t r] reqs Hs _ IH]; intros st Habs; simpl; [done|].
  apply IH. by apply serve_keeps_absent.
Qed.

(** Every token in the Map is truthy: POST /store refuses the others. *)
Definition all_truthy (st : store) : Prop :=
  forall k v, tokens st !! k = Some v -> truthy v = true.

Lemma run_timers_lookup_Some now st k v :
  tokens (run_timers now st) !! k = Some v -> tokens st !! k = Some v.
Proof.
  unfold run_timers; simpl. intros H.
  destruct (tokens st !! k) as [w|] eqn:Hk.
  - generalize dependent (tokens st). generalize (timers st).
    induction l as [|t ts IH]; intros m H Hk; simpl in H; [congruence|].
    case_decide.
    + destruct (decide (t.2 = k)) as [Heq|Hne].
      * rewrite (expire_keeps_absent now ts (delete t.2 m) k) in H; [done|].
        rewrite Heq. apply lookup_delete_eq.
      * apply (IH (delete t.2 m)); [done|]. by rewrite lookup_delete_ne.
    + by apply (IH m).
  - by rewrite (expire_keeps_absent now _ _ k Hk) in H.
Qed.

Lemma serve_truthy t r st : all_truthy st -> all_truthy (serve t r st).2.
Proof.
  intros Hall.
  assert (Hrun : all_truthy (run_timers t st)).
  { intros k v Hk. apply (Hall k v). by apply run_timers_lookup_Some in Hk. }
  unfold serve. destruct r as [u body|id|id]; simpl.
  - unfold post_store. destruct (get body "token") as [tok|e]; [|done].
    destruct (truthy tok) eqn:Htok; simpl; [|done].
    unfold mbind, handler_bind; simpl. intros k v; simpl.
    destruct (decide (u = k)) as [->|Hne].
    + rewrite lookup_insert_eq. congruence.
    + rewrite lookup_insert_ne; [|done]. apply Hrun.
  - unfold get_t, mbind, handler_bind, tokens_get; simpl.
    by destruct (negb _).
  - unfold get_consume, mbind, handler_bind, tokens_get; simpl.
    destruct (negb _); simpl; [done|].
    intros k v Hk; simpl in Hk.
    apply lookup_delete_Some in Hk as [_ Hk]. by apply (Hrun k v).
Qed.

Lemma expire_deletes_due now (ts : list (Z * string)) m k d :
  (d, k) ∈ ts -> d <= now ->
  foldl (fun m t => if decide (t.1 <= now) then delete t.2 m else m) m ts !! k = None.
Proof.
  revert m. induction ts as [|[d' k'] ts IH]; intros m Hin Hd.
  - by apply elem_of_nil in Hin.
  - simpl. apply elem_of_cons in Hin as [[= <- <-]|Hin].
    + apply expire_keeps_absent. rewrite decide_True by done. apply lookup_delete_eq.
    + by apply IH.
Qed.

(** A stored token whose TTL has elapsed is gone, read or not. *)
Lemma expired_token_is_gone st now t uuid body token :
  get body "token" = Normal token ->
  truthy token = true ->
  now + TOKEN_TTL <= t ->
  (serve t (GetConsume uuid) (serve now (PostStore uuid body) st).2).1
  = Json 200 (JObj [("error", JStr "expired")]).
Proof.
  intros Hbody Htok Ht. unfold serve. simpl.
  unfold post_store. rewrite Hbody, Htok. simpl.
  unfold get_consume, mbind, handler_bind, tokens_get. simpl.
  rewrite (expire_deletes_due t _ _ uuid (now + TOKEN_TTL)); [done| |done].
  apply elem_of_app. right. by apply list_elem_of_singleton.
Qed.

(** C1. A payload accepted by POST /store under a fresh id is returned by
    the first GET /consume/:id that arrives before the TTL, which deletes
    the entry; once consumed, every later GET /consume/:id of that id
    answers [{error: 'expired'}], whatever other requests arrive in
    between, as long as uuidv4 does not draw the same id again. *)
Theorem consume_is_one_time st now t1 t2 uuid body token
    (mid later : list (Z * request)) :
  get body "token" = Normal token ->
  truthy token = true ->
  uuid ∉ (timers st).*2 ->
  Forall (fun e => e.1 < now + TOKEN_TTL /\
                   stores_at uuid e = false /\ consumes uuid e = false) mid ->
  t1 < now + TOKEN_TTL ->
  Forall (fun e => stores_at uuid e = false) later ->
  let stored := serve now (PostStore uuid body) st in
  let first := serve t1 (GetConsume uuid) (serve_all mid stored.2) in
  let second := serve t2 (GetConsume uuid) (serve_all later first.2) in
  stored.1 = Json 200 (JObj [("id", JStr uuid)]) /\
  first.1 = Json 200 (JObj [("token", token)]) /\
  tokens first.2 !! uuid = None /\
  second.1 = Json 200 (JObj [("error", JStr "expired")]).
Proof.
  intros Hbody Htok Hfresh Hmid Ht1 Hlater stored first second.
  assert (Hstored : stored.1 = Json 200 (JObj [("id", JStr uuid)]) /\
            tokens stored.2 !! uuid = Some token /\
            (forall d, (d, uuid) ∈ timers stored.2 -> now + TOKEN_TTL <= d)).
  { subst stored. unfold serve; simpl. unfold post_store.
    rewrite Hbody, Htok; simpl. unfold mbind, handler_bind; simpl.
    split; [done|]. split; [apply lookup_insert_eq|].
    intros d Hd. apply elem_of_app in Hd as [Hd|Hd].
    - exfalso. apply Hfresh. apply list_elem_of_filter in Hd as [_ Hd].
      apply list_elem_of_fmap. by exists (d, uuid).
    - apply list_elem_of_singleton in Hd. injection Hd as ->. lia. }
  destruct Hstored as (Hresp & Hlive & Hdue).
  destruct (serve_all_keeps_live now uuid token mid stored.2 Hmid Hlive Hdue)
    as [Hlive' Hdue'].
  assert (Hfirst : first.1 = Json 200 (JObj [("token", token)]) /\
            tokens first.2 !! uuid = None).
  { subst first. unfold serve; simpl.
    unfold get_consume, mbind, handler_bind, tokens_get; simpl.
    rewrite expire_keeps_live; [|intros d Hd; specialize (Hdue' d Hd); lia].
    rewrite Hlive'; simpl. rewrite Htok; simpl.
    split; [done|]. apply lookup_delete_eq. }
  destruct Hfirst as [Hfirst Hgone].
  repeat split; [done..|].
  pose proof (serve_all_keeps_absent uuid later first.2 Hlater Hgone) as Habs.
  subst second. unfold serve; simpl.
  unfold get_consume, mbind, handler_bind, tokens_get; simpl.
  by rewrite expire_keeps_absent.
Qed.

Lemma consume_is_one_time_witness :
  let st := Store ∅ [] in
  let body := JObj [("token", JStr "OFFER_SDP_X")] in
  let stored := serve 0 (PostStore "abc" body) st in
  let first := serve 2 (GetConsume "abc") (serve_all [(1, GetT "abc")] stored.2) in
  let second :=
    serve 700000 (GetConsume "abc") (serve_all [(3, GetT "abc")] first.2) in
  stored.1 = Json 200 (JObj [("id", JStr "abc")]) /\
  first.1 = Json 200 (JObj [("token", JStr "OFFER_SDP_X")]) /\
  tokens first.2 !! "abc" = None /\
  second.1 = Json 200 (JObj [("error", JStr "expired")]).
Proof.
  apply (consume_is_one_time (Store ∅ []) 0 2 700000 "abc"
           (JObj [("token", JStr "OFFER_SDP_X")]) (JStr "OFFER_SDP_X")
           [(1, GetT "abc")] [(3, GetT "abc")]).
  - reflexivity.
  - reflexivity.
  - simpl. apply not_elem_of_nil.
  - repeat constructor.
  - reflexivity.
  - repeat constructor.
Defined.

(** C7. The handler of GET /t/:id returns the store as it found it, so
    does any number of such requests; a request for the page changes the
    Map only through the timers that were due when it arrived, so an
    entry whose TTL has not elapsed keeps its payload through any
    sequence of page requests; and whenever a request leaves an entry
    deleted, the request was GET /consume/:id for that id or a TTL timer
    of that id was due. *)
Theorem reveal_page_does_not_consume :
  (forall id st, (get_t id st).2 = st) /\
  (forall (n : nat) id st, Nat.iter n (fun s => (get_t id s).2) st = st) /\
  (forall now id st, (serve now (GetT id) st).2 = run_timers now st) /\
  (forall (reqs : list (Z * request)) st k v horizon,
     Forall (fun e => e.1 < horizon /\ exists id, e.2 = GetT id) reqs ->
     tokens st !! k = Some v ->
     (forall d, (d, k) ∈ timers st -> horizon <= d) ->
     tokens (serve_all reqs st) !! k = Some v) /\
  (forall now r st k v,
     tokens st !! k = Some v ->
     tokens (serve now r st).2 !! k = None ->
     r = GetConsume k \/ exists d, (d, k) ∈ timers st /\ d <= now).
Proof.
  assert (Hpage : forall id st, (get_t id st).2 = st).
  { intros id st. unfold get_t, mbind, handler_bind, tokens_get; simpl.
    by destruct (negb _). }
  split; [done|]. split; [|split; [|split]].
  - intros n id st. induction n as [|n IH]; simpl; [done|].
    by rewrite IH, Hpage.
  - intros now id st. unfold serve; simpl. apply Hpage.
  - intros reqs st k v horizon Hreqs Hk Hdue.
    apply (serve_all_keeps_live (horizon - TOKEN_TTL) k v reqs st).
    + eapply Forall_impl; [exact Hreqs|]. intros [t r] [Ht [id Hr]].
      simpl in *. subst r. split; [lia|done].
    + done.
    + intros d Hd. specialize (Hdue d Hd). lia.
  - intros now r st k v Hk Hgone.
    destruct (tokens (run_timers now st) !! k) as [w|] eqn:Hrun.
    + left. unfold serve in Hgone. destruct r as [u body|id|id]; simpl in Hgone.
      * exfalso. unfold post_store in Hgone.
        destruct (get body "token") as [tok|e]; [|store_unfold; congruence].
        destruct (truthy tok); [|store_unfold; congruence].
        store_unfold. destruct (decide (u = k)) as [->|Hne].
        -- rewrite lookup_insert_eq in Hgone. congruence.
        -- rewrite lookup_insert_ne in Hgone; [|done]. congruence.
      * exfalso. rewrite Hpage in Hgone. congruence.
      * destruct (decide (id = k)) as [->|Hne]; [done|]. exfalso.
        unfold get_consume in Hgone. store_unfold.
        destruct (negb _); simpl in Hgone; [congruence|].
        rewrite lookup_delete_ne in Hgone; [|done]. congruence.
    + right. unfold run_timers in Hrun; simpl in Hrun.
      by apply (expire_deletes_only_due now (timers st) (tokens st) k v).
Qed.

(** *** Further properties of the token store *)

Lemma run_timers_truthy now st : all_truthy st -> all_truthy (run_timers now st).
Proof. intros Hall k v Hk. apply (Hall k v). by apply run_timers_lookup_Some in Hk. Qed.

Lemma serve_all_truthy reqs st : all_truthy st -> all_truthy (serve_all reqs st).
Proof.
  revert st. induction reqs as [|[t r] reqs IH]; intros st Hall; simpl; [done|].
  by apply IH, serve_truthy.
Qed.

(** X1. Whatever requests the server has answered since it started, the
    Map holds only truthy payloads; so GET /t/:id answers with the reveal
    page exactly when the id is in the Map at that time, and GET
    /consume/:id then returns exactly the payload held under it. *)
Theorem lookups_follow_the_map (reqs : list (Z * request)) now id :
  let st := run_timers now (serve_all reqs (Store ∅ [])) in
  ((serve now (GetT id) (serve_all reqs (Store ∅ []))).1 = Html 200 (RevealPage id)
   <-> is_Some (tokens st !! id)) /\
  ((serve now (GetT id) (serve_all reqs (Store ∅ []))).1 = Html 404 ExpiredPage
   <-> tokens st !! id = None) /\
  (forall v, tokens st !! id = Some v ->
     (serve now (GetConsume id) (serve_all reqs (Store ∅ []))).1
     = Json 200 (JObj [("token", v)])) /\
  (tokens st !! id = None ->
     (serve now (GetConsume id) (serve_all reqs (Store ∅ []))).1
     = Json 200 (JObj [("error", JStr "expired")])).
Proof.
  intros st.
  assert (Hall : all_truthy st).
  { apply run_timers_truthy, serve_all_truthy. intros k v Hk.
    simpl in Hk. by rewrite lookup_empty in Hk. }
  unfold serve. fold st. clearbody st. simpl.
  unfold get_t, get_consume, mbind, handler_bind, tokens_get. simpl.
  destruct (tokens st !! id) as [v|] eqn:Hv; simpl.
  - rewrite (Hall id v Hv). simpl. split; [|split; [|split]].
    + split; [by eauto|done].
    + split; [discriminate|discriminate].
    + by intros w [= ->].
    + discriminate.
  - split; [|split; [|split]].
    + split; [discriminate|by intros [? ?]].
    + done.
    + discriminate.
    + done.
Qed.

(** Every entry of the Map has a deletion timer pending. *)
Definition all_timed (st : store) : Prop :=
  forall k v, tokens st !! k = Some v -> exists d, (d, k) ∈ timers st.

Lemma run_timers_timed now st : all_timed st -> all_timed (run_timers now st).
Proof.
  intros Hall k v Hk.
  destruct (Hall k v (run_timers_lookup_Some now st k v Hk)) as [d Hd].
  exists d. unfold run_timers; simpl. apply list_elem_of_filter. split; [|done].
  simpl. destruct (decide (d <= now)) as [Hdue|]; [|lia].
  unfold run_timers in Hk; simpl in Hk.
  by rewrite (expire_deletes_due now (timers st) (tokens st) k d) in Hk.
Qed.

Lemma serve_timed t r st : all_timed st -> all_timed (serve t r st).2.
Proof.
  intros Hall. pose proof (run_timers_timed t st Hall) as Hrun.
  unfold serve. destruct r as [u body|id|id]; simpl.
  - unfold post_store. destruct (get body "token") as [tok|e]; [|done].
    destruct (truthy tok); simpl; [|done].
    unfold mbind, handler_bind; simpl. intros k v; simpl.
    destruct (decide (u = k)) as [->|Hne].
    + intros _. exists (t + TOKEN_TTL). apply elem_of_app. right.
      by apply list_elem_of_singleton.
    + rewrite lookup_insert_ne by done. intros Hk.
      destruct (Hrun k v Hk) as [d Hd]. exists d. apply elem_of_app. by left.
  - unfold get_t, mbind, handler_bind, tokens_get; simpl. by destruct (negb _).
  - unfold get_consume, mbind, handler_bind, tokens_get; simpl.
    destruct (negb _); simpl; [done|].
    intros k v Hk; simpl in *. apply lookup_delete_Some in Hk as [_ Hk].
    by apply (Hrun k v).
Qed.

Lemma serve_all_timed reqs st : all_timed st -> all_timed (serve_all reqs st).
Proof.
  revert st. induction reqs as [|[t r] reqs IH]; intros st Hall; simpl; [done|].
  by apply IH, serve_timed.
Qed.

(** X2. No token is immortal: after any sequence of requests every entry
    of the Map still has a deletion timer pending, so once every pending
    timer is due the Map is empty again. *)
Theorem no_token_outlives_its_timer (reqs : list (Z * request)) :
  let st := serve_all reqs (Store ∅ []) in
  (forall k v, tokens st !! k = Some v -> exists d, (d, k) ∈ timers st) /\
  (forall t, (forall d k, (d, k) ∈ timers st -> d <= t) ->
     tokens (run_timers t st) = ∅ /\ timers (run_timers t st) = []).
Proof.
  intros st.
  assert (Hall : all_timed st).
  { apply serve_all_timed. intros k v Hk. simpl in Hk. by rewrite lookup_empty in Hk. }
  split; [exact Hall|]. intros t Hdue. split.
  - apply map_eq. intros k. rewrite lookup_empty.
    destruct (tokens st !! k) as [v|] eqn:Hk.
    + destruct (Hall k v Hk) as [d Hd]. unfold run_timers; simpl.
      apply (expire_deletes_due t _ _ k d Hd). by apply (Hdue d k).
    + unfold run_timers; simpl. by apply expire_keeps_absent.
  - unfold run_timers; simpl. revert Hdue. generalize (timers st).
    induction l as [|[d k] l IH]; intros Hdue; [done|].
    rewrite filter_cons_False.
    + apply IH. intros d' k' Hin. apply (Hdue d' k'). by apply list_elem_of_further.
    + simpl. specialize (Hdue d k (list_elem_of_here _ _)). lia.
Qed.

(** X3. A token stored at [now] is gone once its TTL has elapsed, whether
    or not it was read and whatever other requests came in between, as
    long as uuidv4 did not draw its id again. *)
Theorem expired_token_is_not_found st now t uuid body token
    (mid : list (Z * request)) :
  get body "token" = Normal token ->
  truthy token = true ->
  Forall (fun e => stores_at uuid e = false) mid ->
  now + TOKEN_TTL <= t ->
  let stored := (serve now (PostStore uuid body) st).2 in
  (serve t (GetConsume uuid) (serve_all mid stored)).1
    = Json 200 (JObj [("error", JStr "expired")]) /\
  (serve t (GetT uuid) (serve_all mid stored)).1 = Html 404 ExpiredPage.
Proof.
  intros Hbody Htok Hmid Ht stored.
  assert (Hinv : forall reqs s,
            Forall (fun e => stores_at uuid e = false) reqs ->
            tokens s !! uuid = None \/ (now + TOKEN_TTL, uuid) ∈ timers s ->
            tokens (serve_all reqs s) !! uuid = None \/
            (now + TOKEN_TTL, uuid) ∈ timers (serve_all reqs s)).
  { intros reqs. induction reqs as [|[t' r] reqs IH]; intros s Hreqs Hs; [done|].
    apply Forall_cons in Hreqs as [Hr Hreqs]. simpl. apply IH; [done|].
    assert (Hrun : tokens (run_timers t' s) !! uuid = None \/
                   (now + TOKEN_TTL, uuid) ∈ timers (run_timers t' s)).
    { destruct Hs as [Hs|Hs].
      - left. unfold run_timers; simpl. by apply expire_keeps_absent.
      - destruct (decide (now + TOKEN_TTL <= t')) as [Hdue|Hdue].
        + left. unfold run_timers; simpl. by apply (expire_deletes_due t' _ _ uuid _ Hs).
        + right. unfold run_timers; simpl. apply list_elem_of_filter. simpl.
          split; [lia|done]. }
    destruct Hrun as [Habs|Htimer].
    - left. unfold serve.
      destruct r as [u b|id|id]; simpl.
      + unfold stores_at in Hr; simpl in Hr. apply bool_decide_eq_false in Hr.
        unfold post_store. destruct (get b "token") as [tok|e]; [|done].
        destruct (truthy tok); simpl; [|done].
        unfold mbind, handler_bind; simpl. by rewrite lookup_insert_ne.
      + unfold get_t, mbind, handler_bind, tokens_get; simpl. by destruct (negb _).
      + unfold get_consume, mbind, handler_bind, tokens_get; simpl.
        destruct (negb _); simpl; [done|].
        destruct (decide (id = uuid)) as [->|Hne];
          [apply lookup_delete_eq|by rewrite lookup_delete_ne].
    - right. unfold serve.
      destruct r as [u b|id|id]; simpl.
      + unfold post_store. destruct (get b "token") as [tok|e]; [|done].
        destruct (truthy tok); simpl; [|done].
        unfold mbind, handler_bind; simpl. apply elem_of_app. by left.
      + unfold get_t, mbind, handler_bind, tokens_get; simpl. by destruct (negb _).
      + unfold get_consume, mbind, handler_bind, tokens_get; simpl.
        by destruct (negb _). }
  assert (Hgone : tokens (run_timers t (serve_all mid stored)) !! uuid = None).
  { destruct (Hinv mid stored Hmid) as [Habs|Htimer].
    - right. subst stored. unfold serve; simpl. unfold post_store.
      rewrite Hbody, Htok; simpl. unfold mbind, handler_bind; simpl.
      apply elem_of_app. right. by apply list_elem_of_singleton.
    - unfold run_timers; simpl. by apply expire_keeps_absent.
    - unfold run_timers; simpl. by apply (expire_deletes_due t _ _ uuid _ Htimer). }
  unfold serve. generalize dependent (run_timers t (serve_all mid stored)).
  intros s Hgone. simpl.
  unfold get_consume, get_t, mbind, handler_bind, tokens_get; simpl.
  by rewrite Hgone.
Qed.

Lemma expired_token_is_not_found_witness :
  let body := JObj [("token", JStr "OFFER_SDP_X")] in
  let stored := (serve 0 (PostStore "abc" body) (Store ∅ [])).2 in
  let mid := [(5, GetT "abc"); (10, PostStore "xyz" body)] in
  (serve 600000 (GetConsume "abc") (serve_all mid stored)).1
    = Json 200 (JObj [("error", JStr "expired")]) /\
  (serve 600000 (GetT "abc") (serve_all mid stored)).1 = Html 404 ExpiredPage.
Proof.
  apply (expired_token_is_not_found (Store ∅ []) 0 600000 "abc"
           (JObj [("token", JStr "OFFER_SDP_X")]) (JStr "OFFER_SDP_X")
           [(5, GetT "abc"); (10, PostStore "xyz" (JObj [("token", JStr "OFFER_SDP_X")]))]).
  - reflexivity.
  - reflexivity.
  - repeat constructor.
  - reflexivity.
Defined.

(** X4. A request touches only its own id: the entry under any id that
    the request neither stores at nor consumes is what the due timers
    left of it; and a POST /store without a truthy token changes nothing
    at all and sets no timer. *)
Theorem requests_touch_only_their_id now r st :
  (forall k, stores_at k (now, r) = false -> consumes k (now, r) = false ->
     tokens (serve now r st).2 !! k = tokens (run_timers now st) !! k) /\
  (forall uuid body,
     r = PostStore uuid body ->
     (forall token, get body "token" = Normal token -> truthy token = false) ->
     (serve now r st).2 = run_timers now st /\
     ((serve now r st).1 = Json 400 (JObj [("error", JStr "Missing token")]) \/
      (serve now r st).1 = ServerError)).
Proof.
  split.
  - intros k Hs Hc. unfold serve. destruct r as [u body|id|id]; simpl.
    + unfold stores_at in Hs; simpl in Hs. apply bool_decide_eq_false in Hs.
      unfold post_store. destruct (get body "token") as [tok|e]; [|done].
      destruct (truthy tok); simpl; [|done].
      unfold mbind, handler_bind; simpl. by rewrite lookup_insert_ne.
    + unfold get_t, mbind, handler_bind, tokens_get; simpl. by destruct (negb _).
    + unfold consumes in Hc; simpl in Hc. apply bool_decide_eq_false in Hc.
      unfold get_consume, mbind, handler_bind, tokens_get; simpl.
      destruct (negb _); simpl; [done|]. by rewrite lookup_delete_ne.
  - intros uuid body -> Hfalsy. unfold serve; simpl. unfold post_store.
    destruct (get body "token") as [tok|e]; [|by split; [|right]].
    rewrite (Hfalsy tok eq_refl). simpl. by split; [|left].
Qed.

End TokenStoreFacts.

(** ** Properties of the /signal store *)

Section ExpiryFold.
Context {A T : Type} (due : T -> Z) (key : T -> string) (now : Z).

Implicit Types (m : gmap string A) (ts : list T).

Lemma fold_expire_absent ts m k :
  m !! k = None ->
  foldl (fun m t => if decide (due t <= now) then delete (key t) m else m) m ts !! k = None.
Proof.
  revert m. induction ts as [|t ts IH]; intros m Hm; simpl; [done|].
  apply IH. case_decide; [|done].
  destruct (decide (key t = k)) as [->|Hne];
    [apply lookup_delete_eq|by rewrite lookup_delete_ne].
Qed.

Lemma fold_expire_due ts m k t :
  t ∈ ts -> due t <= now -> key t = k ->
  foldl (fun m t => if decide (due t <= now) then delete (key t) m else m) m ts !! k = None.
Proof.
  revert m. induction ts as [|t' ts IH]; intros m Hin Hd Hk.
  - by apply elem_of_nil in Hin.
  - simpl. apply elem_of_cons in Hin as [<-|Hin].
    + apply fold_expire_absent. rewrite decide_True by done.
      rewrite Hk. apply lookup_delete_eq.
    + by apply IH.
Qed.

Lemma fold_expire_live ts m k :
  (forall t, t ∈ ts -> key t = k -> now < due t) ->
  foldl (fun m t => if decide (due t <= now) then delete (key t) m else m) m ts !! k
  = m !! k.
Proof.
  revert m. induction ts as [|t ts IH]; intros m Hts; simpl; [done|].
  rewrite IH by (intros t' Hin; apply Hts; by apply list_elem_of_further).
  case_decide as Hd; [|done].
  destruct (decide (key t = k)) as [Hk|Hne].
  - specialize (Hts t (list_elem_of_here _ _) Hk). lia.
  - by rewrite lookup_delete_ne.
Qed.

Lemma fold_expire_Some ts m k v :
  foldl (fun m t => if decide (due t <= now) then delete (key t) m else m) m ts !! k
    = Some v ->
  m !! k = Some v /\ (forall t, t ∈ ts -> key t = k -> now < due t).
Proof.
  intros Hf.
  assert (Hlive : forall t, t ∈ ts -> key t = k -> now < due t).
  { intros t Hin Hk. destruct (decide (due t <= now)) as [Hd|]; [|lia].
    by rewrite (fold_expire_due ts m k t Hin Hd Hk) in Hf. }
  split; [|done]. by rewrite fold_expire_live in Hf.
Qed.

End ExpiryFold.

Lemma filter_all_id {A} (P : A -> Prop) `{!forall x, Decision (P x)} (l : list A) :
  (forall x, x ∈ l -> P x) -> filter P l = l.
Proof.
  induction l as [|x l IH]; intros Hl; [done|].
  rewrite filter_cons_True by apply Hl, list_elem_of_here.
  f_equal. apply IH. intros y Hy. by apply Hl, list_elem_of_further.
Qed.

Lemma NoDup_fmap_filter {A B} (f : A -> B) (P : A -> Prop)
    `{!forall x, Decision (P x)} (l : list A) :
  NoDup (f <$> l) -> NoDup (f <$> filter P l).
Proof.
  induction l as [|x l IH]; intros Hnd; [done|].
  rewrite fmap_cons in Hnd. apply NoDup_cons in Hnd as [Hx Hnd].
  rewrite filter_cons. destruct (decide (P x)); [|by apply IH].
  rewrite fmap_cons. apply NoDup_cons. split; [|by apply IH].
  intros Hin. apply Hx. apply list_elem_of_fmap in Hin as (y & -> & Hy).
  apply list_elem_of_filter in Hy as [_ Hy]. by apply list_elem_of_fmap_2.
Qed.

Lemma NoDup_fmap_unique {A B} (f : A -> B) (l : list A) x y :
  NoDup (f <$> l) -> x ∈ l -> y ∈ l -> f x = f y -> x = y.
Proof.
  induction l as [|z l IH]; intros Hnd Hx Hy Hf; [by apply elem_of_nil in Hx|].
  rewrite fmap_cons in Hnd. apply NoDup_cons in Hnd as [Hz Hnd].
  apply elem_of_cons in Hx as [->|Hx]; apply elem_of_cons in Hy as [->|Hy].
  - done.
  - exfalso. apply Hz. rewrite Hf. by apply list_elem_of_fmap_2.
  - exfalso. apply Hz. rewrite <- Hf. by apply list_elem_of_fmap_2.
  - by apply IH.
Qed.

Section SignalStoreFacts.
Import SignalStore.

Implicit Types (st : store) (k token : string).

(** What the store keeps true: timer handles are below the next handle
    and pairwise different, and the handle of every entry names a pending
    timer that deletes that entry's token. *)
Definition well_timed (st : store) : Prop :=
  (forall t, t ∈ timers st -> (t.1.1 < next_timer st)%nat) /\
  NoDup ((fun t => t.1.1) <$> timers st) /\
  (forall k e, SIGNAL_STORE st !! k = Some e ->
     exists d, (timeout e, d, k) ∈ timers st).

Lemma init_well_timed : well_timed init.
Proof.
  split; [|split].
  - intros t Ht. by apply elem_of_nil in Ht.
  - constructor.
  - intros k e Hk. simpl in Hk. by rewrite lookup_empty in Hk.
Qed.

Lemma run_timers_well_timed now st : well_timed st -> well_timed (run_timers now st).
Proof.
  intros (Hlt & Hnd & Hent). split; [|split]; simpl.
  - intros t Ht. apply list_elem_of_filter in Ht as [_ Ht]. by apply Hlt.
  - by apply NoDup_fmap_filter.
  - intros k e Hk.
    apply (fold_expire_Some (fun t : nat * Z * string => t.1.2) snd) in Hk as [Hk Hlive].
    destruct (Hent k e Hk) as [d Hd]. exists d.
    apply list_elem_of_filter. split; [|done]. by apply (Hlive _ Hd).
Qed.

Lemma post_signal_well_timed now token body st :
  well_timed st -> well_timed (post_signal now token body st).2.
Proof.
  intros (Hlt & Hnd & Hent). unfold post_signal.
  destruct (get _ "sdp") as [v|e]; [|done].
  destruct (truthy v); simpl; [|done].
  split; [|split]; simpl.
  - intros t Ht. apply elem_of_app in Ht as [Ht|Ht].
    + specialize (Hlt t Ht). lia.
    + apply list_elem_of_singleton in Ht as ->. simpl. lia.
  - rewrite fmap_app. apply NoDup_app. split; [done|]. split; [|apply NoDup_singleton].
    intros h Hh Hh'. simpl in Hh'. apply list_elem_of_singleton in Hh' as ->.
    apply list_elem_of_fmap in Hh as (t & Heq & Ht). specialize (Hlt t Ht). lia.
  - intros k e. destruct (decide (token = k)) as [->|Hne].
    + rewrite lookup_insert_eq. intros [= <-]. simpl. eexists.
      apply elem_of_app. right. by apply list_elem_of_singleton.
    + rewrite lookup_insert_ne by done. intros Hk.
      assert (Hk' : SIGNAL_STORE st !! k = Some e).
      { case_decide; [by rewrite lookup_delete_ne in Hk|done]. }
      destruct (Hent k e Hk') as [d Hd]. exists d. apply elem_of_app. by left.
Qed.

Lemma get_signal_well_timed token st :
  well_timed st -> well_timed (get_signal token st).2.
Proof.
  intros (Hlt & Hnd & Hent). unfold get_signal.
  destruct (SIGNAL_STORE st !! token) as [e|] eqn:He; [|done].
  split; [|split]; simpl.
  - intros t Ht. apply list_elem_of_filter in Ht as [_ Ht]. by apply Hlt.
  - by apply NoDup_fmap_filter.
  - intros k e' Hk. apply lookup_delete_Some in Hk as [Hne Hk].
    destruct (Hent k e' Hk) as [d Hd]. destruct (Hent token e He) as [d0 Hd0].
    exists d. apply list_elem_of_filter. split; [|done]. simpl.
    intros Heq.
    pose proof (NoDup_fmap_unique (fun t : nat * Z * string => t.1.1) _ _ _
                  Hnd Hd Hd0 Heq) as Hsame.
    congruence.
Qed.

Lemma serve_well_timed now r st : well_timed st -> well_timed (serve now r st).2.
Proof.
  intros Hst. apply (run_timers_well_timed now) in Hst. unfold serve.
  destruct r; [by apply post_signal_well_timed|by apply get_signal_well_timed].
Qed.

Lemma serve_all_well_timed reqs st : well_timed st -> well_timed (serve_all reqs st).
Proof.
  revert st. induction reqs as [|[t r] reqs IH]; intros st Hst; simpl; [done|].
  by apply IH, serve_well_timed.
Qed.

(** X5. POST /signal of a truthy sdp under a token that is not in the Map,
    followed by GET /signal/:token, returns the sdp and leaves the Map and
    the pending timers exactly as they were before the two requests: the
    read deletes the entry and cancels its timer; reading again answers
    404. *)
Theorem signal_store_then_get_restores st now token body v :
  get body "sdp" = Normal v ->
  truthy v = true ->
  SIGNAL_STORE st !! token = None ->
  (forall t, t ∈ timers st -> (t.1.1 < next_timer st)%nat) ->
  let stored := post_signal now token body st in
  let read := get_signal token stored.2 in
  stored.1 = Json 200 (JObj [("token", JStr token)]) /\
  read.1 = Json 200 (JObj [("sdp", v)]) /\
  SIGNAL_STORE read.2 = SIGNAL_STORE st /\
  timers read.2 = timers st /\
  (get_signal token read.2).1 = Json 404 (JObj [("error", JStr "not found or expired")]).
Proof.
  intros Hsdp Hv Hfresh Hlt stored read.
  assert (Hbody : truthy body = true).
  { destruct body; try done; simpl in Hsdp; injection Hsdp as <-; done. }
  assert (Hstored : stored =
            (Json 200 (JObj [("token", JStr token)]),
             MkStore (<[token := MkEntry v (next_timer st)]> (SIGNAL_STORE st))
               (timers st ++ [(next_timer st, now + SIGNAL_TTL, token)])
               (S (next_timer st)))).
  { subst stored. unfold post_signal. rewrite Hbody, Hsdp, Hv. simpl.
    rewrite decide_False; [done|]. rewrite Hfresh. by intros [? ?]. }
  subst read. rewrite Hstored. unfold get_signal. simpl.
  rewrite lookup_insert_eq. simpl.
  rewrite lookup_delete_eq.
  split; [done|]. split; [done|]. split; [|split; [|done]].
  - rewrite delete_insert_eq. by apply delete_id.
  - unfold clearTimeout. rewrite filter_app. simpl.
    rewrite filter_cons_False by (simpl; tauto). rewrite filter_nil, app_nil_r.
    revert Hlt. generalize (timers st) (next_timer st).
    induction l as [|t l IH]; intros n Hlt; [done|].
    rewrite filter_cons_True.
    + f_equal. apply IH. intros t' Ht'. apply Hlt. by apply list_elem_of_further.
    + specialize (Hlt t (list_elem_of_here _ _)). lia.
Qed.

Lemma signal_store_then_get_restores_witness :
  let st := MkStore ∅ [] 0 in
  let body := JObj [("sdp", JStr "v=0")] in
  let stored := post_signal 0 "q1w2e3r4" body st in
  let read := get_signal "q1w2e3r4" stored.2 in
  stored.1 = Json 200 (JObj [("token", JStr "q1w2e3r4")]) /\
  read.1 = Json 200 (JObj [("sdp", JStr "v=0")]) /\
  SIGNAL_STORE read.2 = SIGNAL_STORE st /\
  timers read.2 = timers st /\
  (get_signal "q1w2e3r4" read.2).1
  = Json 404 (JObj [("error", JStr "not found or expired")]).
Proof.
  apply (signal_store_then_get_restores (MkStore ∅ [] 0) 0 "q1w2e3r4"
           (JObj [("sdp", JStr "v=0")]) (JStr "v=0")).
  - reflexivity.
  - reflexivity.
  - reflexivity.
  - intros t Ht. by apply elem_of_nil in Ht.
Defined.

(** X6. In every store the server can reach, the timeout handle of each
    entry names one pending timer, which deletes that entry's own token,
    and no two pending timers share a handle; so a GET /signal/:token that
    finds its entry removes exactly one pending timer, and the timers of
    all other entries stay pending. *)
Theorem signal_timers_match_entries (reqs : list (Z * request)) token :
  let st := serve_all reqs init in
  (forall k e, SIGNAL_STORE st !! k = Some e ->
     exists d, (timeout e, d, k) ∈ timers st) /\
  NoDup ((fun t => t.1.1) <$> timers st) /\
  (forall e, SIGNAL_STORE st !! token = Some e ->
     S (length (timers (get_signal token st).2)) = length (timers st) /\
     forall k e', k ≠ token -> SIGNAL_STORE st !! k = Some e' ->
       exists d, (timeout e', d, k) ∈ timers (get_signal token st).2).
Proof.
  intros st.
  assert (Hwt : well_timed st) by apply serve_all_well_timed, init_well_timed.
  destruct Hwt as (Hlt & Hnd & Hent).
  split; [done|]. split; [done|]. intros e He. split.
  - unfold get_signal. rewrite He. simpl. unfold clearTimeout.
    destruct (Hent token e He) as [d Hd].
    revert Hnd Hd. generalize (timers st).
    induction l as [|t l IH]; intros Hnd Hd; [by apply elem_of_nil in Hd|].
    rewrite fmap_cons in Hnd. apply NoDup_cons in Hnd as [Ht Hnd].
    rewrite filter_cons. apply elem_of_cons in Hd as [<-|Hd].
    + rewrite decide_False by (simpl; tauto). simpl. f_equal.
      f_equal. apply filter_all_id. intros t' Ht' Heq. apply Ht. simpl.
      rewrite <- Heq. by apply (list_elem_of_fmap_2 (fun t => t.1.1)).
    + rewrite decide_True.
      * simpl. f_equal. by apply IH.
      * intros Heq. apply Ht. rewrite Heq.
        by apply (list_elem_of_fmap_2 (fun t : nat * Z * string => t.1.1) _ _ Hd).
  - intros k e' Hne Hk.
    destruct (get_signal_well_timed token st (conj Hlt (conj Hnd Hent)))
      as (_ & _ & Hent').
    apply (Hent' k e'). unfold get_signal. rewrite He. simpl.
    by rewrite lookup_delete_ne.
Qed.

(** The entry stored under [token] at [now] is either gone or still there
    with its own timer pending. *)
Definition ours_or_gone (now : Z) (token : string) (v : jsval) (st : store) : Prop :=
  SIGNAL_STORE st !! token = None \/
  exists h, SIGNAL_STORE st !! token = Some (MkEntry v h) /\
            (h, now + SIGNAL_TTL, token) ∈ timers st.

Lemma run_timers_ours_or_gone now token v t st :
  ours_or_gone now token v st -> ours_or_gone now token v (run_timers t st).
Proof.
  intros Hst. unfold ours_or_gone. simpl.
  destruct (foldl _ (SIGNAL_STORE st) (timers st) !! token) as [e|] eqn:He; [|by left].
  right.
  apply (fold_expire_Some (fun t : nat * Z * string => t.1.2) snd) in He as [He Hlive].
  destruct Hst as [Hst|(h & Hh & Htimer)]; [congruence|].
  exists h. split; [congruence|].
  apply list_elem_of_filter. split; [|done]. by apply (Hlive _ Htimer).
Qed.

Lemma serve_ours_or_gone now token v t r st :
  draws token (t, r) = false ->
  well_timed st -> ours_or_gone now token v st ->
  ours_or_gone now token v (serve t r st).2.
Proof.
  intros Hdraw Hwt Hst.
  apply (run_timers_well_timed t) in Hwt. apply (run_timers_ours_or_gone _ _ _ t) in Hst.
  unfold serve. generalize dependent (run_timers t st). clear st. intros st Hwt Hst.
  destruct r as [k body|k]; simpl.
  - unfold draws in Hdraw; simpl in Hdraw. apply bool_decide_eq_false in Hdraw.
    unfold post_signal. destruct (get _ "sdp") as [w|e]; [|done].
    destruct (truthy w); simpl; [|done].
    unfold ours_or_gone; simpl. rewrite lookup_insert_ne by done.
    assert (Hsame : (if decide (is_Some (SIGNAL_STORE st !! k))
                     then delete k (SIGNAL_STORE st) else SIGNAL_STORE st) !! token
                    = SIGNAL_STORE st !! token).
    { case_decide; [by rewrite lookup_delete_ne|done]. }
    rewrite Hsame. destruct Hst as [Hst|(h & Hh & Htimer)]; [by left|].
    right. exists h. split; [done|]. apply elem_of_app. by left.
  - unfold get_signal. destruct (SIGNAL_STORE st !! k) as [e|] eqn:He; [|done].
    unfold ours_or_gone; simpl.
    destruct (decide (k = token)) as [->|Hne]; [left; apply lookup_delete_eq|].
    rewrite lookup_delete_ne by done.
    destruct Hst as [Hst|(h & Hh & Htimer)]; [by left|].
    right. exists h. split; [done|].
    apply list_elem_of_filter. split; [|done]. simpl. intros Heq.
    destruct Hwt as (_ & Hnd & Hent). destruct (Hent k e He) as [d Hd].
    pose proof (NoDup_fmap_unique (fun t : nat * Z * string => t.1.1) _ _ _
                  Hnd Htimer Hd Heq) as Hsame.
    congruence.
Qed.

Lemma serve_all_ours_or_gone now token v reqs st :
  Forall (fun e => draws token e = false) reqs ->
  well_timed st -> ours_or_gone now token v st ->
  well_timed (serve_all reqs st) /\ ours_or_gone now token v (serve_all reqs st).
Proof.
  intros Hreqs. revert st.
  induction Hreqs as [|[t r] reqs Hr _ IH]; intros st Hwt Hst; simpl; [done|].
  apply IH; [by apply serve_well_timed|by apply serve_ours_or_gone].
Qed.

(** X7. An sdp stored by POST /signal is read at most once and never
    after its two minutes: whatever requests come in between (as long as
    the same token is not drawn again), GET /signal/:token answers with
    that sdp or with 404, never with another sdp, and leaves no entry
    under the token; and from two minutes after the store on it answers
    404. *)
Theorem signal_reads_once_and_expires (reqs mid : list (Z * request))
    now token body v :
  get body "sdp" = Normal v ->
  truthy v = true ->
  Forall (fun e => draws token e = false) mid ->
  let stored := (serve now (PostSignal token body) (serve_all reqs init)).2 in
  (forall t,
     let read := serve t (GetSignal token) (serve_all mid stored) in
     (read.1 = Json 200 (JObj [("sdp", v)]) \/
      read.1 = Json 404 (JObj [("error", JStr "not found or expired")])) /\
     SIGNAL_STORE read.2 !! token = None) /\
  (forall t, now + SIGNAL_TTL <= t ->
     (serve t (GetSignal token) (serve_all mid stored)).1
     = Json 404 (JObj [("error", JStr "not found or expired")])).
Proof.
  intros Hsdp Hv Hmid stored.
  assert (Hbody : truthy body = true).
  { destruct body; try done; simpl in Hsdp; injection Hsdp as <-; done. }
  assert (Hwt0 : well_timed (serve_all reqs init))
    by apply serve_all_well_timed, init_well_timed.
  assert (Hstored : well_timed stored /\ ours_or_gone now token v stored).
  { split; [by apply serve_well_timed|].
    subst stored. unfold serve; simpl. unfold post_signal.
    rewrite Hbody, Hsdp, Hv. simpl. right. eexists. simpl.
    split; [apply lookup_insert_eq|]. apply elem_of_app. right.
    by apply list_elem_of_singleton. }
  destruct Hstored as [Hwt Hours].
  destruct (serve_all_ours_or_gone now token v mid stored Hmid Hwt Hours)
    as [Hwt' Hours'].
  split.
  - intros t read. subst read.
    pose proof (run_timers_ours_or_gone now token v t _ Hours') as Hrun.
    unfold serve. generalize dependent (run_timers t (serve_all mid stored)).
    intros st Hrun. simpl. unfold get_signal.
    destruct Hrun as [Hnone|(h & Hsome & _)].
    + rewrite Hnone. simpl. by split; [right|].
    + rewrite Hsome. simpl. split; [by left|apply lookup_delete_eq].
  - intros t Ht. unfold serve. simpl. unfold get_signal.
    assert (Hgone : SIGNAL_STORE (run_timers t (serve_all mid stored)) !! token = None).
    { simpl. destruct Hours' as [Hnone|(h & _ & Htimer)].
      - by apply fold_expire_absent.
      - by apply (fold_expire_due (fun t : nat * Z * string => t.1.2) snd t _ _ token _ Htimer). }
    by rewrite Hgone.
Qed.

Lemma signal_reads_once_and_expires_witness :
  let body := JObj [("sdp", JStr "v=0")] in
  let stored := (serve 0 (PostSignal "q1w2e3r4" body) (serve_all [] init)).2 in
  let mid := [(10, PostSignal "zzzzzzzz" body); (20, GetSignal "zzzzzzzz")] in
  (forall t,
     let read := serve t (GetSignal "q1w2e3r4") (serve_all mid stored) in
     (read.1 = Json 200 (JObj [("sdp", JStr "v=0")]) \/
      read.1 = Json 404 (JObj [("error", JStr "not found or expired")])) /\
     SIGNAL_STORE read.2 !! "q1w2e3r4" = None) /\
  (forall t, 0 + SIGNAL_TTL <= t ->
     (serve t (GetSignal "q1w2e3r4") (serve_all mid stored)).1
     = Json 404 (JObj [("error", JStr "not found or expired")])).
Proof.
  apply (signal_reads_once_and_expires [] 
           [(10, PostSignal "zzzzzzzz" (JObj [("sdp", JStr "v=0")]));
            (20, GetSignal "zzzzzzzz")]
           0 "q1w2e3r4" (JObj [("sdp", JStr "v=0")]) (JStr "v=0")).
  - reflexivity.
  - reflexivity.
  - repeat constructor.
Defined.

End SignalStoreFacts.

(** ** Properties of the relay *)

Section RelayFacts.
Import Relay.
Context {J : JsonApi} {W : WsLibrary}.

Implicit Types (st : relay) (ws c : conn) (cs : list conn).

Ltac act_unfold :=
  unfold mbind, mret, act_bind, act_ret, lift, throw, try_catch, console in *;
  simpl in *.

Lemma send_open c m st :
  readyState st c = OPEN ->
  send c m st =
    (Normal tt, MkRelay (clients st) (readyState st) (sent st ++ [(c, m)]) (log st)).
Proof. intros Hopen. unfold send. by rewrite decide_True. Qed.

Lemma send_never_changes_clients c m st :
  clients (send c m st).2 = clients st /\
  readyState (send c m st).2 = readyState st /\
  log (send c m st).2 = log st.
Proof.
  unfold send. case_decide; [done|]. by destruct send_not_open_throws.
Qed.

(** The broadcast loop writes one frame to every open client other than
    the sender, in the order of the Set, and nothing else. *)
Lemma forEach_client_frames ws data candidate cs st :
  get data "candidate" = Normal candidate ->
  forEach_client ws data cs st =
    (Normal tt,
     MkRelay (clients st) (readyState st)
       (sent st ++ ((fun c => (c, IceCandidate candidate)) <$>
          filter (fun c => c ≠ ws /\ readyState st c = OPEN) cs))
       (log st)).
Proof.
  intros Hcand. revert st. induction cs as [|client rest IH]; intros st.
  - simpl. act_unfold. rewrite app_nil_r. by destruct st.
  - cbn [forEach_client]. unfold mbind at 1 2, act_bind.
    rewrite filter_cons.
    destruct (decide (client ≠ ws /\ readyState st client = OPEN)) as [[Hne Hopen]|Hno].
    + rewrite (bool_decide_eq_true_2 _ Hne), (bool_decide_eq_true_2 _ Hopen).
      simpl. rewrite Hcand. act_unfold. rewrite (send_open _ _ _ Hopen).
      rewrite IH. simpl. by rewrite <- app_assoc.
    + assert (bool_decide (client ≠ ws) && bool_decide (readyState st client = OPEN)
              = false) as ->.
      { apply andb_false_iff. rewrite !bool_decide_eq_false.
        destruct (decide (client = ws)) as [Heq|Hne]; [left; tauto|right; tauto]. }
      act_unfold. by rewrite IH.
Qed.

Lemma on_message_ice_candidate v ws message data candidate st :
  JSON_parse message = Some data ->
  get data "type" = Normal (JStr "ice-candidate") ->
  get data "candidate" = Normal candidate ->
  on_message v ws message st =
    (Normal tt,
     MkRelay (clients st) (readyState st)
       (sent st ++ ((fun c => (c, IceCandidate candidate)) <$>
          filter (fun c => c ≠ ws /\ readyState st c = OPEN) (clients st)))
       (log st ++ [LogReceived (JStr "ice-candidate")])).
Proof.
  intros Hparse Htype Hcand.
  unfold on_message, dispatch, parse. rewrite Hparse.
  act_unfold. rewrite Htype. simpl.
  by rewrite (forEach_client_frames ws data candidate).
Qed.

Lemma delivered_to_fmap c (m : server_msg) cs :
  delivered_to c ((fun c' => (c', m)) <$> cs) = (fun _ => m) <$> filter (fun c' => c' = c) cs.
Proof.
  unfold delivered_to. induction cs as [|c' cs IH]; [done|].
  rewrite fmap_cons, !filter_cons. cbn [fst].
  destruct (decide (c' = c)); [rewrite !fmap_cons; f_equal|]; exact IH.
Qed.

Lemma filter_none {A} (P : A -> Prop) `{!forall x, Decision (P x)} (l : list A) :
  (forall x, x ∈ l -> ~ P x) -> filter P l = [].
Proof.
  induction l as [|x l IH]; intros Hl; [done|].
  rewrite filter_cons_False; [|apply Hl, list_elem_of_here].
  apply IH. intros y Hy. by apply Hl, list_elem_of_further.
Qed.

Lemma filter_all {A} (P : A -> Prop) `{!forall x, Decision (P x)} (l : list A) :
  (forall x, x ∈ l -> P x) -> filter P l = l.
Proof.
  induction l as [|x l IH]; intros Hl; [done|].
  rewrite filter_cons_True; [|apply Hl, list_elem_of_here].
  f_equal. apply IH. intros y Hy. by apply Hl, list_elem_of_further.
Qed.

Lemma filter_ext_in {A} (P Q : A -> Prop)
    `{!forall x, Decision (P x)} `{!forall x, Decision (Q x)} (l : list A) :
  (forall x, x ∈ l -> P x <-> Q x) -> filter P l = filter Q l.
Proof.
  induction l as [|x l IH]; intros Hl; [done|].
  rewrite !filter_cons.
  pose proof (Hl x (list_elem_of_here _ _)) as Hx.
  rewrite IH by (intros y Hy; by apply Hl, list_elem_of_further).
  destruct (decide (P x)), (decide (Q x)); tauto || done.
Qed.

Lemma filter_eq_NoDup c cs :
  NoDup cs -> c ∈ cs -> filter (fun c' => c' = c) cs = [c].
Proof.
  induction 1 as [|c' cs Hnotin Hnd IH]; intros Hin.
  - by apply elem_of_nil in Hin.
  - rewrite filter_cons. destruct (decide (c' = c)) as [->|Hne].
    + f_equal. apply filter_none. by intros x Hx ->.
    + apply IH. apply elem_of_cons in Hin as [->|Hin]; done.
Qed.

Lemma filter_eq_absent c cs : c ∉ cs -> filter (fun c' => c' = c) cs = [].
Proof.
  intros Hnotin. apply filter_none. by intros x Hx ->.
Qed.

Lemma length_filter_others ws cs :
  NoDup cs -> ws ∈ cs ->
  S (length (filter (fun c => c ≠ ws) cs)) = length cs.
Proof.
  induction 1 as [|c cs Hnotin Hnd IH]; intros Hin.
  - by apply elem_of_nil in Hin.
  - rewrite filter_cons. destruct (decide (c ≠ ws)) as [Hne|Heq].
    + simpl. f_equal. apply IH. apply elem_of_cons in Hin as [->|Hin]; done.
    + assert (c = ws) as -> by (destruct (decide (c = ws)); tauto).
      simpl. f_equal. f_equal.
      apply filter_all. by intros x Hx ->.
Qed.

Lemma length_filter_and_le {A} (P Q : A -> Prop)
    `{!forall x, Decision (P x)} `{!forall x, Decision (Q x)} (l : list A) :
  (length (filter (fun x => P x /\ Q x) l) <= length (filter P l))%nat.
Proof.
  induction l as [|x l IH]; [done|].
  rewrite !filter_cons.
  destruct (decide (P x /\ Q x)) as [[HP HQ]|Hn].
  - rewrite decide_True by done. simpl. lia.
  - destruct (decide (P x)); simpl; lia.
Qed.

Lemma length_filter_and_eq {A} (P Q : A -> Prop)
    `{!forall x, Decision (P x)} `{!forall x, Decision (Q x)} (l : list A) :
  length (filter (fun x => P x /\ Q x) l) = length (filter P l) <->
  (forall x, x ∈ l -> P x -> Q x).
Proof.
  induction l as [|x l IH].
  - split; [|done]. intros _ y Hy. by apply elem_of_nil in Hy.
  - rewrite !filter_cons.
    pose proof (length_filter_and_le P Q l) as Hle.
    destruct (decide (P x)) as [HP|HP]; destruct (decide (Q x)) as [HQ|HQ].
    + rewrite decide_True by done. simpl. split.
      * intros Hlen y Hy HPy. apply elem_of_cons in Hy as [->|Hy]; [done|].
        apply IH; [lia|done..].
      * intros Hall. f_equal. apply IH. intros y Hy. by apply Hall, list_elem_of_further.
    + rewrite decide_False by tauto. simpl. split; [lia|].
      intros Hall. exfalso. apply HQ, Hall; [apply list_elem_of_here|done].
    + rewrite decide_False by tauto. rewrite IH. split.
      * intros Hall y Hy HPy. apply elem_of_cons in Hy as [->|Hy]; [done|]. by apply Hall.
      * intros Hall y Hy. by apply Hall, list_elem_of_further.
    + rewrite decide_False by tauto. rewrite IH. split.
      * intros Hall y Hy HPy. apply elem_of_cons in Hy as [->|Hy]; [done|]. by apply Hall.
      * intros Hall y Hy. by apply Hall, list_elem_of_further.
Qed.

(** The Set never holds a socket twice. *)
Lemma clients_add_NoDup ws st :
  NoDup (clients st) -> NoDup (clients (clients_add ws st).2).
Proof.
  intros Hnd. unfold clients_add; simpl. case_decide as Hin; [done|].
  apply NoDup_app. split; [done|]. split; [|apply NoDup_singleton].
  intros x Hx Hx'. apply list_elem_of_singleton in Hx'. by subst.
Qed.

Lemma clients_delete_NoDup ws st :
  NoDup (clients st) -> NoDup (clients (clients_delete ws st).2).
Proof. intros Hnd. unfold clients_delete; simpl. by apply NoDup_filter. Qed.

(** C4. When every socket of the Set is open and one of them sends an
    ice-candidate message, the relay writes the candidate once to each of
    the other K-1 sockets and never to the sender. *)
Theorem ice_candidate_reaches_all_others v st ws message data candidate :
  JSON_parse message = Some data ->
  get data "type" = Normal (JStr "ice-candidate") ->
  get data "candidate" = Normal candidate ->
  NoDup (clients st) ->
  ws ∈ clients st ->
  (forall c, c ∈ clients st -> readyState st c = OPEN) ->
  exists frames,
    on_message v ws message st =
      (Normal tt,
       MkRelay (clients st) (readyState st) (sent st ++ frames)
         (log st ++ [LogReceived (JStr "ice-candidate")])) /\
    frames = ((fun c => (c, IceCandidate candidate)) <$>
                filter (fun c => c ≠ ws) (clients st)) /\
    S (length frames) = length (clients st) /\
    (forall c, c ∈ clients st -> c ≠ ws ->
       delivered_to c frames = [IceCandidate candidate]) /\
    delivered_to ws frames = [].
Proof.
  intros Hparse Htype Hcand Hnd Hin Hopen.
  assert (Hfilter : filter (fun c => c ≠ ws /\ readyState st c = OPEN) (clients st)
                    = filter (fun c => c ≠ ws) (clients st)).
  { apply filter_ext_in. intros c Hc. specialize (Hopen c Hc). tauto. }
  eexists. split; [|split; [reflexivity|]].
  - rewrite (on_message_ice_candidate v ws message data candidate st) by done.
    by rewrite Hfilter.
  - split; [|split].
    + rewrite length_fmap. by apply length_filter_others.
    + intros c Hc Hne. rewrite delivered_to_fmap.
      rewrite filter_eq_NoDup; [done|by apply NoDup_filter|].
      by apply list_elem_of_filter.
    + rewrite delivered_to_fmap. rewrite filter_eq_absent; [done|].
      rewrite list_elem_of_filter. tauto.
Qed.


(** C10. The broadcast writes the candidate to exactly the sockets of the
    Set that are open and are not the sender: a socket that is in the Set
    but not open gets nothing, and all K-1 others are reached exactly when
    all of them are open. *)
Theorem ice_candidate_skips_not_open v st ws message data candidate :
  JSON_parse message = Some data ->
  get data "type" = Normal (JStr "ice-candidate") ->
  get data "candidate" = Normal candidate ->
  NoDup (clients st) ->
  ws ∈ clients st ->
  exists frames,
    on_message v ws message st =
      (Normal tt,
       MkRelay (clients st) (readyState st) (sent st ++ frames)
         (log st ++ [LogReceived (JStr "ice-candidate")])) /\
    frames = ((fun c => (c, IceCandidate candidate)) <$>
                filter (fun c => c ≠ ws /\ readyState st c = OPEN) (clients st)) /\
    (forall c, readyState st c ≠ OPEN -> delivered_to c frames = []) /\
    (forall c, c ∈ clients st -> c ≠ ws -> readyState st c = OPEN ->
       delivered_to c frames = [IceCandidate candidate]) /\
    (S (length frames) = length (clients st) <->
     forall c, c ∈ clients st -> c ≠ ws -> readyState st c = OPEN).
Proof.
  intros Hparse Htype Hcand Hnd Hin.
  eexists. split; [|split; [reflexivity|]].
  - by rewrite (on_message_ice_candidate v ws message data candidate st).
  - split; [|split].
    + intros c Hc. rewrite delivered_to_fmap. rewrite filter_eq_absent; [done|].
      rewrite list_elem_of_filter. tauto.
    + intros c Hc Hne Hopen. rewrite delivered_to_fmap.
      rewrite filter_eq_NoDup; [done|by apply NoDup_filter|].
      by apply list_elem_of_filter.
    + rewrite length_fmap.
      rewrite <- (length_filter_others ws (clients st)) by done.
      rewrite <- (length_filter_and_eq (fun c => c ≠ ws)
                    (fun c => readyState st c = OPEN) (clients st)).
      split; [by intros [= ->]|by intros ->].
Qed.


(** The catch clause: the error is logged and, in the hardened variant,
    an error frame is attempted; nothing escapes. *)
Lemma catch_clause v ws e st :
  let res := on_message_catch v ws e st in
  res.1 = Normal tt /\
  clients res.2 = clients st /\
  readyState res.2 = readyState st /\
  log res.2 = log st ++ [LogMessageError e] /\
  (sent res.2 = sent st \/
   v = Hardened /\ readyState st ws = OPEN /\ sent res.2 = sent st ++ [(ws, ErrorMsg)]).
Proof.
  unfold on_message_catch. destruct v; act_unfold.
  - tauto.
  - unfold send; simpl. case_decide as Hopen; simpl.
    + repeat split; try done. right. done.
    + destruct send_not_open_throws; simpl; tauto.
Qed.

(** Whatever the try block does, it leaves the Set and the sockets alone. *)
Lemma dispatch_keeps_clients ws message st r :
  dispatch ws message st = r ->
  clients r.2 = clients st /\ readyState r.2 = readyState st.
Proof.
  unfold dispatch, parse. intros Hr.
  destruct (JSON_parse message) as [data|]; [|by subst r].
  unfold mbind at 1, act_bind at 1, mret at 1, act_ret at 1 in Hr.
  unfold mbind at 1, act_bind at 1, lift at 1 in Hr.
  destruct (get data "type") as [type|e] eqn:Htype; [|by subst r].
  unfold mbind at 1, act_bind at 1, console at 1 in Hr.
  destruct (strict_eq_str type "offer").
  { assert (exists offer, get data "offer" = Normal offer) as [offer Hoffer]
      by (destruct data; try discriminate Htype; eexists; reflexivity).
    unfold mbind, act_bind, lift in Hr. rewrite Hoffer in Hr.
    match type of Hr with
    | context [send ws ?m ?s] =>
        destruct (send_never_changes_clients ws m s) as (H1 & H2 & _)
    end.
    destruct (send ws _ _) as [[[]|e] s']; subst r; simpl in *; done. }
  destruct (strict_eq_str type "answer").
  { assert (exists answer, get data "answer" = Normal answer) as [answer Hanswer]
      by (destruct data; try discriminate Htype; eexists; reflexivity).
    unfold mbind, act_bind, lift in Hr. rewrite Hanswer in Hr.
    match type of Hr with
    | context [send ws ?m ?s] =>
        destruct (send_never_changes_clients ws m s) as (H1 & H2 & _)
    end.
    destruct (send ws _ _) as [[[]|e] s']; subst r; simpl in *; done. }
  destruct (strict_eq_str type "ice-candidate").
  { assert (exists candidate, get data "candidate" = Normal candidate) as [candidate Hc]
      by (destruct data; try discriminate Htype; eexists; reflexivity).
    unfold mbind, act_bind in Hr. cbn [clients] in Hr.
    rewrite (forEach_client_frames ws data candidate) in Hr by done.
    by subst r. }
  by subst r.
Qed.

(** No message makes the handler throw, unregister a client or touch the
    state of a socket. *)
Lemma on_message_total v ws message st :
  (on_message v ws message st).1 = Normal tt /\
  clients (on_message v ws message st).2 = clients st /\
  readyState (on_message v ws message st).2 = readyState st.
Proof.
  unfold on_message, try_catch.
  destruct (dispatch_keeps_clients ws message st _ eq_refl) as [Hc Hr].
  destruct (dispatch ws message st) as [[[]|e] st1]; simpl in *; [done|].
  destruct (catch_clause v ws e st1) as (H1 & H2 & H3 & _).
  rewrite H2, H3. done.
Qed.

(** Connecting and disconnecting keep the Set free of duplicates. *)
Lemma handlers_keep_NoDup v ws st :
  NoDup (clients st) ->
  NoDup (clients (on_connection v ws st).2) /\
  NoDup (clients (on_close ws st).2) /\
  NoDup (clients (on_error ws st).2).
Proof.
  intros Hnd. split; [|split].
  - unfold on_connection. unfold mbind at 1, act_bind at 1, console at 1.
    unfold mbind at 1, act_bind at 1.
    pose proof (clients_add_NoDup ws
      (MkRelay (clients st) (readyState st) (sent st) (log st ++ [LogNewClient])) Hnd)
      as Hadd.
    destruct (clients_add ws _) as [[[]|e] st1] eqn:Hst1; [|done].
    simpl in Hadd. destruct v.
    + destruct (send_never_changes_clients ws Connected st1) as (H1 & _).
      by rewrite H1.
    + unfold mbind, act_bind. cbn.
      destruct (bool_decide _); [|done]. unfold try_catch.
      destruct (send_never_changes_clients ws Connected st1) as (H1 & _).
      destruct (send ws Connected st1) as [[[]|e] st2]; simpl in *; by rewrite H1.
  - unfold on_close. act_unfold. by apply NoDup_filter.
  - unfold on_error. act_unfold. by apply NoDup_filter.
Qed.

(** C6. A message that is not valid JSON, or whose parsed value has no
    type the relay expects, is survived: the handler returns normally, the
    Set of clients and the state of every socket are as before (the sender
    is still registered and still open if it was), an entry is logged, and
    the only frame that may be written is the hardened variant's error
    frame to the sender. *)
Theorem malformed_message_is_survived v st ws message :
  expected_shape message = false ->
  let res := on_message v ws message st in
  res.1 = Normal tt /\
  clients res.2 = clients st /\
  readyState res.2 = readyState st /\
  (ws ∈ clients st -> ws ∈ clients res.2) /\
  ((exists e, log res.2 = log st ++ [LogMessageError e] /\
              (sent res.2 = sent st \/
               v = Hardened /\ readyState st ws = OPEN /\
               sent res.2 = sent st ++ [(ws, ErrorMsg)])) \/
   (exists type, log res.2 = log st ++ [LogReceived type; LogUnknownType type] /\
                 sent res.2 = sent st)).
Proof.
  intros Hshape res.
  assert (Hcore :
    res.1 = Normal tt /\ clients res.2 = clients st /\
    readyState res.2 = readyState st /\
    ((exists e, log res.2 = log st ++ [LogMessageError e] /\
                (sent res.2 = sent st \/
                 v = Hardened /\ readyState st ws = OPEN /\
                 sent res.2 = sent st ++ [(ws, ErrorMsg)])) \/
     (exists type, log res.2 = log st ++ [LogReceived type; LogUnknownType type] /\
                   sent res.2 = sent st))).
  { subst res. unfold expected_shape in Hshape.
    unfold on_message, dispatch, parse.
    destruct (JSON_parse message) as [data|] eqn:Hparse.
    - destruct (get data "type") as [type|e] eqn:Htype.
      + apply orb_false_iff in Hshape as [Hshape Hice].
        apply orb_false_iff in Hshape as [Hoffer Hanswer].
        unfold try_catch, mbind, mret, act_bind, act_ret, lift; simpl.
        rewrite Htype; simpl. rewrite Hoffer, Hanswer, Hice; simpl.
        repeat split; try done. right. exists type. split; [|done].
        by rewrite <- app_assoc.
      + unfold try_catch, mbind, mret, act_bind, act_ret, lift; simpl.
        rewrite Htype; simpl.
        destruct (catch_clause v ws e st) as (H1 & H2 & H3 & H4 & H5).
        repeat split; try done. left. by exists e.
    - unfold try_catch, mbind, mret, act_bind, act_ret, throw; simpl.
      destruct (catch_clause v ws SyntaxError st) as (H1 & H2 & H3 & H4 & H5).
      repeat split; try done. left. by exists SyntaxError. }
  destruct Hcore as (H1 & H2 & H3 & H4).
  repeat split; try done. by rewrite H2.
Qed.

(** *** Further properties of the relay *)

Lemma try_send_frames v ws m st :
  let res := try_catch (send ws m) (on_message_catch v ws) st in
  res.1 = Normal tt /\ clients res.2 = clients st /\
  sent res.2 = sent st ++ (if decide (readyState st ws = OPEN) then [(ws, m)] else []).
Proof.
  unfold try_catch, send.
  destruct (decide (readyState st ws = OPEN)) as [Hopen|Hclosed]; simpl; [done|].
  destruct send_not_open_throws eqn:Hthrows; simpl; [|by rewrite app_nil_r].
  unfold on_message_catch. destruct v; act_unfold; [by rewrite app_nil_r|].
  unfold send; simpl. rewrite decide_False by done.
  rewrite Hthrows; simpl. by rewrite app_nil_r.
Qed.

(** X8. An offer or an answer is echoed to the socket it came from and to
    no other: when the sender is open it gets one offer-created (or
    answer-created) frame carrying the description it sent, when it is
    not open nothing is written at all; the handler returns normally and
    the Set is unchanged either way. *)
Theorem description_is_echoed_to_sender_only v st ws message data :
  JSON_parse message = Some data ->
  let res := on_message v ws message st in
  (forall offer,
     get data "type" = Normal (JStr "offer") -> get data "offer" = Normal offer ->
     res.1 = Normal tt /\ clients res.2 = clients st /\
     sent res.2 = sent st ++
       (if decide (readyState st ws = OPEN) then [(ws, OfferCreated offer)] else [])) /\
  (forall answer,
     get data "type" = Normal (JStr "answer") -> get data "answer" = Normal answer ->
     res.1 = Normal tt /\ clients res.2 = clients st /\
     sent res.2 = sent st ++
       (if decide (readyState st ws = OPEN) then [(ws, AnswerCreated answer)] else [])).
Proof.
  intros Hparse res. subst res. split.
  - intros offer Htype Hoffer.
    unfold on_message, dispatch, parse. rewrite Hparse.
    unfold try_catch, mbind, mret, act_bind, act_ret, lift; simpl.
    rewrite Htype; simpl. rewrite Hoffer.
    apply (try_send_frames v ws (OfferCreated offer)
             (MkRelay (clients st) (readyState st) (sent st)
                (log st ++ [LogReceived (JStr "offer")]))).
  - intros answer Htype Hanswer.
    unfold on_message, dispatch, parse. rewrite Hparse.
    unfold try_catch, mbind, mret, act_bind, act_ret, lift; simpl.
    rewrite Htype; simpl. rewrite Hanswer.
    apply (try_send_frames v ws (AnswerCreated answer)
             (MkRelay (clients st) (readyState st) (sent st)
                (log st ++ [LogReceived (JStr "answer")]))).
Qed.

(** X9. No frame whatsoever makes the message handler throw, add or
    remove a client, or change the state of a socket; and whatever it
    writes goes to sockets that are open. *)
Theorem message_handler_is_contained v st ws message :
  let res := on_message v ws message st in
  res.1 = Normal tt /\
  clients res.2 = clients st /\
  readyState res.2 = readyState st /\
  exists frames,
    sent res.2 = sent st ++ frames /\
    forall c m, (c, m) ∈ frames -> readyState st c = OPEN.
Proof.
  intros res. destruct (on_message_total v ws message st) as (H1 & H2 & H3).
  split; [done|]. split; [done|]. split; [done|]. subst res.
  assert (Hsend : forall c m s,
            exists fs, sent (send c m s).2 = sent s ++ fs /\
                       forall c' m', (c', m') ∈ fs -> readyState s c' = OPEN).
  { intros c m s. unfold send. case_decide as Hopen; simpl.
    - exists [(c, m)]. split; [done|]. intros c' m' Hin.
      apply list_elem_of_singleton in Hin. by injection Hin as -> ->.
    - exists []. split; [by destruct send_not_open_throws; rewrite app_nil_r|].
      intros c' m' Hin. by apply elem_of_nil in Hin. }
  assert (Hcatch : forall e s,
            exists fs, sent (on_message_catch v ws e s).2 = sent s ++ fs /\
                       forall c' m', (c', m') ∈ fs -> readyState s c' = OPEN).
  { intros e s. unfold on_message_catch. destruct v; act_unfold.
    - exists []. split; [by rewrite app_nil_r|]. intros c' m' Hin.
      by apply elem_of_nil in Hin.
    - match goal with
      | |- context [send ws ErrorMsg ?s0] =>
          destruct (Hsend ws ErrorMsg s0) as (fs & Hfs & Hopen);
          destruct (send ws ErrorMsg s0) as [[[]|e'] s1] eqn:Hs1
      end; simpl in *; exists fs; done. }
  unfold on_message, try_catch.
  assert (Hdisp : exists fs, sent (dispatch ws message st).2 = sent st ++ fs /\
                    readyState (dispatch ws message st).2 = readyState st /\
                    forall c' m', (c', m') ∈ fs -> readyState st c' = OPEN).
  { destruct (dispatch_keeps_clients ws message st _ eq_refl) as [_ Hrs].
    unfold dispatch, parse in *.
    destruct (JSON_parse message) as [data|];
      [|exists []; split; [by rewrite app_nil_r|split; [done|]];
        intros c' m' Hin; by apply elem_of_nil in Hin].
    unfold mbind at 1, act_bind at 1, mret at 1, act_ret at 1.
    unfold mbind at 1, act_bind at 1, lift at 1.
    destruct (get data "type") as [type|e] eqn:Htype;
      [|exists []; split; [by rewrite app_nil_r|split; [done|]];
        intros c' m' Hin; by apply elem_of_nil in Hin].
    unfold mbind at 1, act_bind at 1, console at 1.
    destruct (strict_eq_str type "offer").
    { assert (exists offer, get data "offer" = Normal offer) as [offer Hoffer]
        by (destruct data; try discriminate Htype; eexists; reflexivity).
      unfold mbind, act_bind, lift. rewrite Hoffer.
      match goal with
      | |- context [send ws ?m ?s] =>
          destruct (Hsend ws m s) as (fs & Hfs & Hopen);
          destruct (send_never_changes_clients ws m s) as (_ & Hr & _);
          destruct (send ws m s) as [[[]|e] s1]
      end; simpl in *; exists fs; done. }
    destruct (strict_eq_str type "answer").
    { assert (exists answer, get data "answer" = Normal answer) as [answer Hanswer]
        by (destruct data; try discriminate Htype; eexists; reflexivity).
      unfold mbind, act_bind, lift. rewrite Hanswer.
      match goal with
      | |- context [send ws ?m ?s] =>
          destruct (Hsend ws m s) as (fs & Hfs & Hopen);
          destruct (send_never_changes_clients ws m s) as (_ & Hr & _);
          destruct (send ws m s) as [[[]|e] s1]
      end; simpl in *; exists fs; done. }
    destruct (strict_eq_str type "ice-candidate").
    { assert (exists candidate, get data "candidate" = Normal candidate) as [candidate Hc]
        by (destruct data; try discriminate Htype; eexists; reflexivity).
      unfold mbind, act_bind. cbn [clients].
      rewrite (forEach_client_frames ws data candidate) by done. simpl.
      eexists. split; [reflexivity|]. split; [done|].
      intros c' m' Hin. apply list_elem_of_fmap in Hin as (c & [= -> ->] & Hc').
      apply list_elem_of_filter in Hc' as [[_ Hopen] _]. done. }
    exists []. simpl. split; [by rewrite app_nil_r|split; [done|]].
    intros c' m' Hin. by apply elem_of_nil in Hin. }
  destruct Hdisp as (fs & Hfs & Hrs & Hopen).
  destruct (dispatch ws message st) as [[[]|e] s1]; simpl in *.
  - exists fs. done.
  - destruct (Hcatch e s1) as (fs' & Hfs' & Hopen').
    exists (fs ++ fs'). split; [by rewrite Hfs', Hfs, app_assoc|].
    intros c' m' Hin. apply elem_of_app in Hin as [Hin|Hin]; [by eapply Hopen|].
    rewrite <- Hrs. by eapply Hopen'.
Qed.

Lemma connection_registers_socket_aux v st ws :
  clients (on_connection v ws st).2
    = (if decide (ws ∈ clients st) then clients st else clients st ++ [ws]) /\
  (NoDup (clients st) -> NoDup (clients (on_connection v ws st).2)) /\
  (v = Hardened \/ send_not_open_throws = false ->
   (on_connection v ws st).1 = Normal tt).
Proof.
  assert (Hclients : clients (on_connection v ws st).2
                     = if decide (ws ∈ clients st) then clients st else clients st ++ [ws]).
  { unfold on_connection. act_unfold. unfold clients_add; simpl.
    destruct v; simpl.
    - unfold send; simpl. case_decide; [done|]. by destruct send_not_open_throws.
    - unfold mbind, act_bind; simpl. case_bool_decide; simpl; [|done].
      unfold send; simpl. rewrite decide_True by done. done. }
  split; [done|]. split.
  - intros Hnd. rewrite Hclients. case_decide as Hin; [done|].
    apply NoDup_app. split; [done|]. split; [|apply NoDup_singleton].
    intros x Hx Hx'. apply list_elem_of_singleton in Hx'. by subst.
  - intros Hv. unfold on_connection. act_unfold. unfold clients_add; simpl.
    destruct v; simpl.
    + destruct Hv as [?|Hflag]; [discriminate|]. unfold send; simpl.
      rewrite Hflag. by repeat (case_decide; simpl).
    + unfold mbind, act_bind; simpl. case_bool_decide; simpl; [|done].
      unfold send; simpl. by rewrite decide_True.
Qed.

(** X10. Closing (or failing) takes the socket out of the Set and leaves
    every other socket in it, in order, writing nothing; from then on no
    broadcast reaches it, even if its state still reads OPEN. *)
Theorem closed_socket_gets_no_candidates v st ws sender message data candidate :
  JSON_parse message = Some data ->
  get data "type" = Normal (JStr "ice-candidate") ->
  get data "candidate" = Normal candidate ->
  let closed := on_close ws st in
  let failed := on_error ws st in
  closed.1 = Normal tt /\ failed.1 = Normal tt /\
  clients closed.2 = filter (fun c => c ≠ ws) (clients st) /\
  clients failed.2 = clients closed.2 /\
  (ws ∉ clients closed.2) /\
  (forall c, c ≠ ws -> c ∈ clients st -> c ∈ clients closed.2) /\
  sent closed.2 = sent st /\ sent failed.2 = sent st /\
  (exists frames,
     sent (on_message v sender message closed.2).2 = sent st ++ frames /\
     delivered_to ws frames = []).
Proof.
  intros Hparse Htype Hcand closed failed. subst closed failed.
  unfold on_close, on_error. act_unfold.
  split; [done|]. split; [done|]. split; [done|]. split; [done|].
  split; [rewrite list_elem_of_filter; tauto|].
  split; [intros c Hne Hc; by apply list_elem_of_filter|].
  split; [done|]. split; [done|].
  eexists. rewrite (on_message_ice_candidate v sender message data candidate) by done.
  simpl. split; [reflexivity|].
  rewrite delivered_to_fmap. rewrite filter_eq_absent; [done|].
  rewrite !list_elem_of_filter. tauto.
Qed.

(** X11. A connection registers the socket, once however often it
    connects, and keeps the Set free of duplicates.  An open socket is
    greeted with one connected frame.  A socket that is not open is
    greeted with nothing: the hardened variant returns normally, the
    stable one lets the error of [ws.send] escape when the library throws
    it, but has registered the socket by then. *)
Theorem connection_registers_socket v st ws :
  let res := on_connection v ws st in
  (forall c, c ∈ clients res.2 <-> c = ws \/ c ∈ clients st) /\
  (ws ∈ clients st -> clients res.2 = clients st) /\
  (NoDup (clients st) -> NoDup (clients res.2)) /\
  (readyState st ws = OPEN ->
     res.1 = Normal tt /\ sent res.2 = sent st ++ [(ws, Connected)]) /\
  (readyState st ws ≠ OPEN ->
     sent res.2 = sent st /\
     (res.1 = Throw NotOpenError <-> v = Stable /\ send_not_open_throws = true) /\
     (res.1 = Normal tt <-> v = Hardened \/ send_not_open_throws = false)).
Proof.
  intros res.
  assert (Hclients : clients res.2
                     = if decide (ws ∈ clients st) then clients st else clients st ++ [ws]).
  { subst res. unfold on_connection. act_unfold. unfold clients_add; simpl.
    destruct v; simpl.
    - unfold send; simpl. case_decide; [done|]. by destruct send_not_open_throws.
    - unfold mbind, act_bind; simpl. case_bool_decide; simpl; [|done].
      unfold send; simpl. rewrite decide_True by done. done. }
  split; [|split; [|split; [|split]]].
  - intros c. rewrite Hclients. case_decide as Hin.
    + split; [by right|]. by intros [->|?].
    + rewrite elem_of_app, list_elem_of_singleton. tauto.
  - intros Hin. rewrite Hclients. by rewrite decide_True.
  - intros Hnd. rewrite Hclients. case_decide as Hin; [done|].
    apply NoDup_app. split; [done|]. split; [|apply NoDup_singleton].
    intros x Hx Hx'. apply list_elem_of_singleton in Hx'. by subst.
  - intros Hopen. subst res. unfold on_connection. act_unfold.
    unfold clients_add; simpl. destruct v; simpl.
    + unfold send; simpl. by rewrite decide_True.
    + unfold mbind, act_bind; simpl. rewrite bool_decide_eq_true_2 by done. simpl.
      unfold send; simpl. by rewrite decide_True.
  - intros Hclosed. subst res. unfold on_connection. act_unfold.
    unfold clients_add; simpl. destruct v; simpl.
    + unfold send; simpl. rewrite decide_False by done.
      destruct send_not_open_throws; simpl; split; try done.
      * split; [split; [done|by intros [? ?]]|].
        split; [discriminate|]. intros [?|?]; discriminate.
      * split; [split; [discriminate|by intros [_ ?]]|].
        split; [by right|done].
    + unfold mbind, act_bind; simpl. rewrite bool_decide_eq_false_2 by done. simpl.
      split; [done|]. split; [split; [discriminate|by intros [? _]]|].
      split; [by left|done].
Qed.

(** X12. Run from the start over any sequence of events, the hardened
    relay never lets an exception escape a listener, and neither does the
    stable one when [ws.send] does not throw; and whenever a run comes to
    its end, the Set holds exactly the sockets that connected and have
    not closed or failed since, each once, in the order they connected:
    frames and state changes never touch it. *)
Theorem relay_set_tracks_connections v (events : list RelayServer.event) states :
  let res := RelayServer.run v events (RelayServer.start states) in
  (v = Hardened \/ send_not_open_throws = false -> res.1 = Normal tt) /\
  (res.1 = Normal tt ->
     clients res.2 = RelayServer.connected events [] /\ NoDup (clients res.2)).
Proof.
  intros res.
  assert (Hgen : forall evs st,
            (v = Hardened \/ send_not_open_throws = false ->
             (RelayServer.run v evs st).1 = Normal tt) /\
            ((RelayServer.run v evs st).1 = Normal tt ->
             NoDup (clients st) ->
             clients (RelayServer.run v evs st).2 = RelayServer.connected evs (clients st) /\
             NoDup (clients (RelayServer.run v evs st).2))).
  { induction evs as [|e evs IH]; intros st; [done|].
    cbn [RelayServer.run].
    assert (Hstep :
      (v = Hardened \/ send_not_open_throws = false ->
       (RelayServer.listener v e st).1 = Normal tt) /\
      ((RelayServer.listener v e st).1 = Normal tt ->
       RelayServer.connected (e :: evs) (clients st)
       = RelayServer.connected evs (clients (RelayServer.listener v e st).2)) /\
      (NoDup (clients st) -> NoDup (clients (RelayServer.listener v e st).2))).
    { destruct e as [ws|ws message|ws|ws|ws state]; cbn [RelayServer.listener].
      - destruct (connection_registers_socket_aux v st ws) as (Hc & Hn & Hok).
        split; [exact Hok|]. split; [|exact Hn].
        intros _. simpl. by rewrite Hc.
      - destruct (on_message_total v ws message st) as (H1 & H2 & H3).
        split; [done|]. split; [by rewrite H2|by rewrite H2].
      - unfold on_close. act_unfold. split; [done|]. split; [done|].
        by apply NoDup_filter.
      - unfold on_error. act_unfold. split; [done|]. split; [done|].
        by apply NoDup_filter.
      - simpl. done. }
    destruct Hstep as (Hok & Hconn & Hnd).
    destruct (RelayServer.listener v e st) as [[[]|err] st1] eqn:Hl; simpl in *.
    + destruct (IH st1) as [IH1 IH2]. split; [exact IH1|].
      intros Hrun Hnd0. rewrite (Hconn eq_refl). apply IH2; [done|by apply Hnd].
    + split; [intros Hv; by specialize (Hok Hv)|done]. }
  destruct (Hgen events (RelayServer.start states)) as [H1 H2].
  split; [exact H1|]. intros Hok. apply H2; [done|]. simpl. constructor.
Qed.

End RelayFacts.

Section RelayExamples.
Import Relay.

Lemma ice_candidate_reaches_all_others_witness :
  let st := MkRelay [1; 2; 3]%nat (fun _ => OPEN) [] [] in
  exists frames,
    on_message (J := Samples.json) (W := Build_WsLibrary true) Hardened 2%nat
      (Samples.text_of Samples.ice_message) st =
      (Normal tt,
       MkRelay (clients st) (readyState st) (sent st ++ frames)
         (log st ++ [LogReceived (JStr "ice-candidate")])) /\
    frames = ((fun c => (c, IceCandidate (JStr "candidate:1 1 udp 1 10.0.0.1 9 typ host")))
                <$> filter (fun c => c ≠ 2%nat) (clients st)) /\
    S (length frames) = length (clients st) /\
    (forall c, c ∈ clients st -> c ≠ 2%nat ->
       delivered_to c frames =
         [IceCandidate (JStr "candidate:1 1 udp 1 10.0.0.1 9 typ host")]) /\
    delivered_to 2%nat frames = [].
Proof.
  intros st.
  apply (ice_candidate_reaches_all_others (J := Samples.json)
           (W := Build_WsLibrary true) Hardened st 2%nat
           (Samples.text_of Samples.ice_message) Samples.ice_message).
  - vm_compute. reflexivity.
  - reflexivity.
  - reflexivity.
  - subst st; simpl. by apply (bool_decide_unpack _).
  - subst st; simpl. by apply (bool_decide_unpack _).
  - reflexivity.
Defined.

Lemma ice_candidate_skips_not_open_witness :
  let st := MkRelay [1; 2; 3]%nat
              (fun c => if decide (c = 3%nat) then CLOSING else OPEN) [] [] in
  exists frames,
    on_message (J := Samples.json) (W := Build_WsLibrary true) Stable 1%nat
      (Samples.text_of Samples.ice_message) st =
      (Normal tt,
       MkRelay (clients st) (readyState st) (sent st ++ frames)
         (log st ++ [LogReceived (JStr "ice-candidate")])) /\
    frames = ((fun c => (c, IceCandidate (JStr "candidate:1 1 udp 1 10.0.0.1 9 typ host")))
                <$> filter (fun c => c ≠ 1%nat /\ readyState st c = OPEN) (clients st)) /\
    (forall c, readyState st c ≠ OPEN -> delivered_to c frames = []) /\
    (forall c, c ∈ clients st -> c ≠ 1%nat -> readyState st c = OPEN ->
       delivered_to c frames =
         [IceCandidate (JStr "candidate:1 1 udp 1 10.0.0.1 9 typ host")]) /\
    (S (length frames) = length (clients st) <->
     forall c, c ∈ clients st -> c ≠ 1%nat -> readyState st c = OPEN).
Proof.
  intros st.
  apply (ice_candidate_skips_not_open (J := Samples.json)
           (W := Build_WsLibrary true) Stable st 1%nat
           (Samples.text_of Samples.ice_message) Samples.ice_message).
  - vm_compute. reflexivity.
  - reflexivity.
  - reflexivity.
  - subst st; simpl. by apply (bool_decide_unpack _).
  - subst st; simpl. by apply (bool_decide_unpack _).
Defined.

Lemma malformed_message_is_survived_witness :
  let st := MkRelay [1; 2]%nat (fun _ => OPEN) [] [] in
  let res := on_message (J := Samples.json) (W := Build_WsLibrary true) Hardened 1%nat
               "{not json" st in
  res.1 = Normal tt /\
  clients res.2 = clients st /\
  readyState res.2 = readyState st /\
  (1%nat ∈ clients st -> 1%nat ∈ clients res.2) /\
  ((exists e, log res.2 = log st ++ [LogMessageError e] /\
              (sent res.2 = sent st \/
               Hardened = Hardened /\ readyState st 1%nat = OPEN /\
               sent res.2 = sent st ++ [(1%nat, ErrorMsg)])) \/
   (exists type, log res.2 = log st ++ [LogReceived type; LogUnknownType type] /\
                 sent res.2 = sent st)).
Proof.
  intros st.
  apply (malformed_message_is_survived (J := Samples.json)
           (W := Build_WsLibrary true) Hardened st 1%nat "{not json").
  vm_compute. reflexivity.
Defined.

(** A message of unknown type and a JSON null are survived as well. *)
Example unknown_type_is_logged :
  on_message (J := Samples.json) (W := Build_WsLibrary true) Stable 1%nat
    (Samples.text_of Samples.ping_message) (MkRelay [1; 2]%nat (fun _ => OPEN) [] [])
  = (Normal tt,
     MkRelay [1; 2]%nat (fun _ => OPEN) []
       [LogReceived (JStr "ping"); LogUnknownType (JStr "ping")]).
Proof. reflexivity. Qed.

Example null_message_is_caught :
  (on_message (J := Samples.json) (W := Build_WsLibrary true) Stable 1%nat
     "null" (MkRelay [1; 2]%nat (fun _ => OPEN) [] [])).1 = Normal tt /\
  log (on_message (J := Samples.json) (W := Build_WsLibrary true) Stable 1%nat
     "null" (MkRelay [1; 2]%nat (fun _ => OPEN) [] [])).2
  = [LogMessageError TypeError].
Proof. split; reflexivity. Qed.

End RelayExamples.

(** ** Properties of the sender *)

Section SenderFacts.
Import Transfer.
Context {J : JsonApi}.

Implicit Types (b : buffer) (f : file) (st : sender) (o : Z).

Lemma slice_length o b :
  0 <= o ->
  byteLength (slice o (o + chunkSize) b) = Z.max 0 (Z.min chunkSize (byteLength b - o)).
Proof.
  intros Ho. unfold byteLength, slice, chunkSize.
  rewrite length_take, length_drop. lia.
Qed.

Lemma total_length_concat (chunks : list buffer) :
  byteLength (concat chunks) = total_length chunks.
Proof.
  unfold byteLength. induction chunks as [|c chunks IH]; simpl; [done|].
  rewrite length_app. unfold byteLength in *. lia.
Qed.

Lemma deliver_loads_idle fuel st : reading st = None -> deliver_loads fuel st = st.
Proof. intros Hidle. destruct fuel; simpl; [done|]. by rewrite Hidle. Qed.

(** The reads and sends that follow once the read at offset [o] is in
    flight and [k] more reads are needed after it. *)
Lemma deliver_loads_wire f (k : nat) :
  forall o st fuel,
    currentFile st = Some f ->
    offset st = o ->
    reading st = Some (slice o (o + chunkSize) (file_content f)) ->
    0 <= o ->
    file_size f <= o + (Z.of_nat k + 1) * chunkSize ->
    (o + Z.of_nat k * chunkSize < file_size f \/ (k = 0%nat /\ o <= file_size f)) ->
    (k < fuel)%nat ->
    let st' := deliver_loads fuel st in
    currentFile st' = Some f /\
    offset st' = file_size f /\
    reading st' = None /\
    wire st' =
      wire st ++
      Send (Binary (slice o (o + chunkSize) (file_content f))) ::
      concat ((fun i =>
                 [ReadAsArrayBuffer (o + i * chunkSize) (o + i * chunkSize + chunkSize);
                  Send (Binary (slice (o + i * chunkSize) (o + i * chunkSize + chunkSize)
                                  (file_content f)))])
              <$> seqZ 1 (Z.of_nat k)).
Proof.
  induction k as [|k IH]; intros o st fuel Hfile Hoff Hread Ho Hup Hlow Hfuel st'.
  - destruct fuel as [|fuel]; [lia|]. subst st'. simpl. rewrite Hread.
    unfold onload. rewrite Hfile, Hoff. rewrite slice_length by done.
    fold (file_size f). rewrite decide_False by (unfold chunkSize in *; lia).
    rewrite deliver_loads_idle by done. simpl.
    split; [done|]. split; [unfold chunkSize in *; lia|]. split; [done|].
    done.
  - destruct fuel as [|fuel]; [lia|]. subst st'. simpl. rewrite Hread.
    unfold onload. rewrite Hfile, Hoff. rewrite slice_length by done.
    fold (file_size f).
    assert (Hlen : Z.max 0 (Z.min chunkSize (file_size f - o)) = chunkSize).
    { unfold chunkSize in *. lia. }
    rewrite Hlen. rewrite decide_True by (unfold chunkSize in *; lia).
    match goal with
    | |- context [deliver_loads fuel ?s] =>
        destruct (IH (o + chunkSize) s fuel) as (H1 & H2 & H3 & H4)
    end; [done|done|done|unfold chunkSize in *; lia..|].
    split; [exact H1|]. split; [exact H2|]. split; [exact H3|].
    rewrite H4. unfold readSlice; simpl. rewrite <- !app_assoc. simpl.
    do 2 f_equal.
    rewrite (seqZ_cons 1 (Z.of_nat (S k))) by lia.
    rewrite fmap_cons. simpl.
    replace (o + 1 * chunkSize) with (o + chunkSize) by lia.
    do 2 f_equal.
    replace (Z.succ 1) with (1 + 1) by lia.
    replace (Z.pred (Z.of_nat (S k))) with (Z.of_nat k) by lia.
    rewrite <- (fmap_add_seqZ 1 1). rewrite <- list_fmap_compose.
    f_equal. apply list_fmap_ext. intros _ i _. simpl.
    replace (o + (1 + i) * chunkSize) with (o + chunkSize + i * chunkSize) by lia.
    done.
Qed.

Lemma concat_slices b (m : nat) :
  concat ((fun i => slice (i * chunkSize) (i * chunkSize + chunkSize) b)
          <$> seqZ 0 (Z.of_nat m))
  = take (Z.to_nat (Z.of_nat m * chunkSize)) b.
Proof.
  induction m as [|m IH].
  - by rewrite seqZ_nil by lia.
  - rewrite seqZ_S, fmap_app, concat_app, IH. simpl. rewrite app_nil_r.
    unfold slice. rewrite take_take_drop. f_equal. unfold chunkSize. lia.
Qed.

Lemma sent_frames_rounds (g : Z -> buffer) (r : Z -> action) (l : list Z) :
  (forall i, exists x y, r i = ReadAsArrayBuffer x y) ->
  omap (fun a => match a with Send d => Some d | _ => None end)
       (concat ((fun i => [r i; Send (Binary (g i))]) <$> l))
  = Binary <$> (g <$> l).
Proof.
  intros Hr. induction l as [|i l IH]; [done|].
  rewrite !fmap_cons. cbn [concat]. rewrite omap_app, IH.
  destruct (Hr i) as (x & y & ->). done.
Qed.

Lemma chunk_count_bounds size :
  0 <= size ->
  1 <= chunk_count size /\
  size <= chunk_count size * chunkSize /\
  ((chunk_count size - 1) * chunkSize < size \/ chunk_count size = 1) /\
  chunk_count size - 1 <= size.
Proof.
  intros Hsize. unfold chunk_count, chunkSize.
  pose proof (Z.div_mod (size + 16384 - 1) 16384 ltac:(lia)) as Hdiv.
  pose proof (Z.mod_pos_bound (size + 16384 - 1) 16384 ltac:(lia)) as Hmod.
  lia.
Qed.

(** C3. With no transfer in flight, sending the first selected file puts
    on the channel one text, the JSON of the object with the keys type
    ('metadata'), name, size and fileType (the MIME type of the file; there
    is no key mimeType), then for each offset 0, 16384, 32768, ... one
    read of at most 16384 bytes followed by the send of what was read; a
    read is issued only after the previous chunk was sent, the chunks are
    the consecutive slices of the file, their lengths add up to its size,
    and the last frame is the last chunk.  A file of 40000 bytes goes out
    as chunks of 16384, 16384 and 7232 bytes. *)
Theorem sender_emits_metadata_then_chunks f (others : list file) st0 :
  reading st0 = None ->
  let st := transfer (f :: others) st0 in
  let n := chunk_count (file_size f) in
  let control :=
    JObj [("type", JStr "metadata"); ("name", JStr (file_name f));
          ("size", JNum (file_size f)); ("fileType", JStr (file_type f))] in
  let chunks :=
    (fun i => slice (i * chunkSize) (i * chunkSize + chunkSize) (file_content f))
    <$> seqZ 0 n in
  reading st = None /\
  offset st = file_size f /\
  wire st =
    wire st0 ++
    Send (text_frame (JSON_stringify control)) ::
    concat ((fun i =>
               [ReadAsArrayBuffer (i * chunkSize) (i * chunkSize + chunkSize);
                Send (Binary (slice (i * chunkSize) (i * chunkSize + chunkSize)
                                (file_content f)))])
            <$> seqZ 0 n) /\
  sent_frames st =
    sent_frames st0 ++ text_frame (JSON_stringify control) :: (Binary <$> chunks) /\
  get control "type" = Normal (JStr "metadata") /\
  get control "name" = Normal (JStr (file_name f)) /\
  get control "size" = Normal (JNum (file_size f)) /\
  get control "fileType" = Normal (JStr (file_type f)) /\
  get control "mimeType" = Normal JUndefined /\
  Forall (fun c => byteLength c <= 16384) chunks /\
  concat chunks = file_content f /\
  total_length chunks = file_size f /\
  (file_size f = 40000 -> byteLength <$> chunks = [16384; 16384; 7232]).
Proof.
  intros _ st n control chunks.
  change control with (metadata f). clear control.
  assert (Hsize : 0 <= file_size f) by (unfold file_size, byteLength; lia).
  destruct (chunk_count_bounds (file_size f) Hsize) as (Hn1 & Hup & Hlow & Hfuel).
  fold n in Hn1, Hup, Hlow, Hfuel.
  assert (Hwire : reading st = None /\ offset st = file_size f /\
    wire st =
      wire st0 ++
      Send (text_frame (JSON_stringify (metadata f))) ::
      concat ((fun i =>
                 [ReadAsArrayBuffer (i * chunkSize) (i * chunkSize + chunkSize);
                  Send (Binary (slice (i * chunkSize) (i * chunkSize + chunkSize)
                                  (file_content f)))])
              <$> seqZ 0 n)).
  { subst st. unfold transfer.
    set (s1 := (sendFiles (f :: others) st0).2).
    change (currentFile s1) with (Some f). cbv beta iota.
    destruct (deliver_loads_wire f (Z.to_nat (n - 1)) 0 s1 (S (length (file_content f))))
      as (H1 & H2 & H3 & H4);
      [done|done|done|lia|unfold chunkSize in *; lia|
       |unfold file_size, byteLength in *; lia|].
    { unfold chunkSize in *. destruct Hlow as [Hlow|Hlow]; [left; lia|right; lia]. }
    split; [exact H3|]. split; [exact H2|].
    rewrite H4. subst s1. cbn [sendFiles snd readSlice wire].
    rewrite <- !app_assoc. cbn [app]. do 2 f_equal.
    rewrite (seqZ_cons 0 n) by lia. rewrite fmap_cons. cbn [concat app].
    replace (0 + chunkSize) with (0 * chunkSize + chunkSize) by lia.
    change (slice 0) with (slice (0 * chunkSize)).
    change (ReadAsArrayBuffer 0) with (ReadAsArrayBuffer (0 * chunkSize)).
    do 3 f_equal.
    replace (Z.succ 0) with 1 by lia.
    replace (Z.pred n) with (Z.of_nat (Z.to_nat (n - 1))) by lia.
    apply list_fmap_ext. intros _ i _. done. }
  destruct Hwire as (Hread & Hoff & Hwire).
  assert (Hconcat : concat chunks = file_content f).
  { subst chunks. replace n with (Z.of_nat (Z.to_nat n)) by lia.
    rewrite concat_slices. apply take_ge.
    unfold file_size, byteLength in *. lia. }
  split; [done|]. split; [done|]. split; [done|].
  split; [|do 5 (split; [reflexivity|]); split; [|split; [done|split]]].
  - unfold sent_frames. rewrite Hwire. rewrite omap_app. simpl. f_equal. f_equal.
    apply (sent_frames_rounds
             (fun i => slice (i * chunkSize) (i * chunkSize + chunkSize) (file_content f))
             (fun i => ReadAsArrayBuffer (i * chunkSize) (i * chunkSize + chunkSize))).
    intros i. eauto.
  - subst chunks. apply Forall_fmap, Forall_seqZ. intros i Hi. simpl.
    rewrite slice_length by (unfold chunkSize; lia). unfold chunkSize. lia.
  - by rewrite <- total_length_concat, Hconcat.
  - intros H40000. subst chunks.
    assert (n = 3) as -> by (subst n; rewrite H40000; reflexivity).
    rewrite !seqZ_cons by lia. rewrite seqZ_nil by lia. simpl.
    rewrite !slice_length by (unfold chunkSize; lia).
    fold (file_size f). rewrite H40000. reflexivity.
Qed.

End SenderFacts.

(** ** Properties of the receiver *)

Section ReceiverFacts.
Import Transfer.
Context {J : JsonApi}.

Implicit Types (b : buffer) (st : receiver) (chunks : list buffer).

Lemma total_length_app chunks1 chunks2 :
  total_length (chunks1 ++ chunks2) = total_length chunks1 + total_length chunks2.
Proof.
  unfold total_length. induction chunks1 as [|c chunks1 IH]; simpl; lia.
Qed.

Lemma total_length_nonneg chunks : 0 <= total_length chunks.
Proof.
  unfold total_length, byteLength. induction chunks as [|c chunks IH]; simpl; lia.
Qed.

Lemma total_length_take_le chunks (k : nat) :
  total_length (take k chunks) <= total_length chunks.
Proof.
  rewrite <- (take_drop k chunks) at 2. rewrite total_length_app.
  pose proof (total_length_nonneg (drop k chunks)). lia.
Qed.

Lemma downloads_app st (es : list effect) :
  filter (fun e => is_download e = true) (effects st ++ es)
  = downloads st ++ filter (fun e => is_download e = true) es.
Proof. unfold downloads. apply filter_app. Qed.

(** A chunk that does not bring the running total to the declared size is
    buffered and counted, and nothing is handed to the download. *)
Lemma receiveFile_buffers meta size b st :
  fileMetadata st = meta ->
  get meta "size" = Normal size ->
  strict_eq_num (receivedSize st + byteLength b) size = false ->
  exists st',
    receiveFile (Binary b) st = (Normal tt, st') /\
    receivedSize st' = receivedSize st + byteLength b /\
    receivedChunks st' = receivedChunks st ++ [b] /\
    fileMetadata st' = meta /\
    downloads st' = downloads st.
Proof.
  intros Hmeta Hsize Hne. eexists. split.
  - unfold receiveFile. cbn [fileMetadata receivedSize]. rewrite Hmeta, Hsize, Hne.
    reflexivity.
  - cbn [receivedSize receivedChunks fileMetadata effects].
    split; [done|]. split; [done|]. split; [done|].
    unfold downloads at 1. cbn [effects]. rewrite downloads_app.
    cbn. rewrite decide_False by done. apply app_nil_r.
Qed.

(** The chunk that brings the running total to the declared size builds
    the Blob from all the buffers and hands it to the download. *)
Lemma receiveFile_completes meta size b st :
  fileMetadata st = meta ->
  get meta "size" = Normal size ->
  strict_eq_num (receivedSize st + byteLength b) size = true ->
  exists st' mime name,
    get meta "fileType" = Normal mime /\
    get meta "name" = Normal name /\
    receiveFile (Binary b) st = (Normal tt, st') /\
    receivedSize st' = receivedSize st + byteLength b /\
    receivedChunks st' = receivedChunks st ++ [b] /\
    fileMetadata st' = meta /\
    downloads st' = downloads st ++ [Download (concat (receivedChunks st ++ [b])) mime name].
Proof.
  intros Hmeta Hsize Heq.
  assert (exists fields, meta = JObj fields) as [fields ->].
  { destruct meta; try discriminate Hsize; try (injection Hsize as <-; discriminate Heq).
    by eexists. }
  eexists _, _, _. split; [reflexivity|]. split; [reflexivity|]. split.
  - unfold receiveFile. cbn [fileMetadata receivedSize]. rewrite Hmeta, Hsize, Heq.
    reflexivity.
  - cbn [receivedSize receivedChunks fileMetadata effects].
    split; [done|]. split; [done|]. split; [done|].
    unfold downloads at 1. cbn [effects]. rewrite <- app_assoc, downloads_app.
    cbn. rewrite decide_False by done. rewrite decide_True by done.
    rewrite decide_False by done. rewrite decide_False by done. done.
Qed.

(** Chunks none of whose prefixes reaches the declared size are all
    buffered without a completion. *)
Lemma receive_all_buffers meta size chunks :
  forall st,
    fileMetadata st = meta ->
    get meta "size" = Normal (JNum size) ->
    (forall k : nat, (0 < k <= length chunks)%nat ->
       receivedSize st + total_length (take k chunks) ≠ size) ->
    let run := receive_all (Binary <$> chunks) st in
    Forall (fun c => c = Normal tt) run.1 /\
    receivedSize run.2 = receivedSize st + total_length chunks /\
    receivedChunks run.2 = receivedChunks st ++ chunks /\
    fileMetadata run.2 = meta /\
    downloads run.2 = downloads st.
Proof.
  induction chunks as [|b chunks IH]; intros st Hmeta Hsize Hpre run.
  - subst run. simpl. rewrite app_nil_r. unfold total_length; simpl.
    split; [constructor|]. split; [lia|done].
  - destruct (receiveFile_buffers meta (JNum size) b st Hmeta Hsize)
      as (st1 & Hstep & Hrs & Hrc & Hfm & Hdl).
    { simpl. apply Z.eqb_neq. specialize (Hpre 1%nat ltac:(simpl; lia)).
      simpl in Hpre. unfold total_length in Hpre. simpl in Hpre. lia. }
    destruct (IH st1 Hfm Hsize) as (H1 & H2 & H3 & H4 & H5).
    { intros k Hk. specialize (Hpre (S k) ltac:(simpl; lia)).
      rewrite Hrs. simpl in Hpre. unfold total_length in *. simpl in Hpre. lia. }
    subst run. rewrite fmap_cons. cbn [receive_all]. rewrite Hstep.
    destruct (receive_all (Binary <$> chunks) st1) as [cs st2].
    simpl in *. split; [by constructor|].
    split; [unfold total_length in *; simpl; lia|].
    split; [by rewrite H3, Hrc, <- app_assoc|].
    split; [done|congruence].
Qed.

Lemma receive_all_snoc (msgs : list dc_data) m st :
  receive_all (msgs ++ [m]) st
  = ((receive_all msgs st).1 ++ [(receiveFile m (receive_all msgs st).2).1],
     (receiveFile m (receive_all msgs st).2).2).
Proof.
  revert st. induction msgs as [|m' msgs IH]; intros st.
  - simpl. by destruct (receiveFile m st).
  - rewrite <- app_comm_cons. cbn [receive_all].
    destruct (receiveFile m' st) as [c s1]. rewrite IH.
    by destruct (receive_all msgs s1).
Qed.

(** The metadata message resets the counters. *)
Lemma receiveFile_metadata text meta size st :
  JSON_parse text = Some meta ->
  get meta "size" = Normal (JNum size) ->
  exists st',
    receiveFile (Text text) st = (Normal tt, st') /\
    receivedSize st' = 0 /\ receivedChunks st' = [] /\ fileMetadata st' = meta /\
    downloads st' = downloads st.
Proof.
  intros Hparse Hsize.
  assert (exists fields, meta = JObj fields) as [fields ->].
  { destruct meta; try discriminate Hsize. by eexists. }
  eexists. split.
  - unfold receiveFile. rewrite Hparse. reflexivity.
  - cbn [receivedSize receivedChunks fileMetadata effects].
    split; [done|]. split; [done|]. split; [done|].
    unfold downloads at 1. cbn [effects]. rewrite <- app_assoc, downloads_app.
    cbn. rewrite !decide_False by done. apply app_nil_r.
Qed.

(** C2, as the code has it.  After a metadata message declaring size S,
    a non-empty sequence of chunks whose lengths add up to S, and whose
    last chunk is not empty unless it is the only one, completes exactly
    once: every handler returns normally, no completion happens before
    the last chunk, and the last chunk hands to the download one Blob,
    the concatenation of the chunks, of S bytes, with the declared MIME
    type and name. *)
Theorem receiver_completes_exactly_once st text meta size chunks final :
  JSON_parse text = Some meta ->
  get meta "size" = Normal (JNum size) ->
  total_length chunks = size ->
  last chunks = Some final ->
  (length chunks = 1%nat \/ final ≠ []) ->
  let run := receive_all (Text text :: (Binary <$> chunks)) st in
  Forall (fun c => c = Normal tt) run.1 /\
  (exists mime name,
     get meta "fileType" = Normal mime /\
     get meta "name" = Normal name /\
     downloads run.2 = downloads st ++ [Download (concat chunks) mime name]) /\
  byteLength (concat chunks) = size /\
  (forall k : nat, (k < length chunks)%nat ->
     downloads (receive_all (Text text :: (Binary <$> take k chunks)) st).2
     = downloads st).
Proof.
  intros Hparse Hsize Htotal Hlast Hfinal run.
  apply last_Some in Hlast as [init ->].
  destruct (receiveFile_metadata text meta size st Hparse Hsize)
    as (st0 & Hstep0 & Hrs0 & Hrc0 & Hfm0 & Hdl0).
  rewrite total_length_app in Htotal.
  assert (Hfin : total_length [final] = byteLength final)
    by (unfold total_length; simpl; lia).
  assert (Hpre : forall k : nat, (0 < k <= length init)%nat ->
            receivedSize st0 + total_length (take k init) ≠ size).
  { intros k Hk. rewrite Hrs0.
    pose proof (total_length_take_le init k) as Hle.
    destruct Hfinal as [Hone|Hnonempty].
    - rewrite length_app in Hone. simpl in Hone. lia.
    - assert (0 < byteLength final).
      { unfold byteLength. destruct final; [done|simpl; lia]. }
      lia. }
  assert (Hprefix : forall k : nat,
            downloads (receive_all (Binary <$> take k init) st0).2 = downloads st).
  { intros k. rewrite <- Hdl0.
    apply (receive_all_buffers meta size (take k init) st0 Hfm0 Hsize).
    intros j Hj. rewrite take_take. rewrite length_take in Hj.
    destruct (decide (j <= k)%nat).
    - rewrite Nat.min_l by done. apply Hpre. lia.
    - lia. }
  destruct (receive_all_buffers meta size init st0 Hfm0 Hsize Hpre)
    as (H1 & H2 & H3 & H4 & H5).
  destruct (receiveFile_completes meta (JNum size) final
              (receive_all (Binary <$> init) st0).2 H4 Hsize)
    as (st2 & mime & name & Hmime & Hname & Hstep2 & _ & Hrc2 & _ & Hdl2).
  { simpl. apply Z.eqb_eq. rewrite H2, Hrs0. lia. }
  assert (Hrun : receive_all (Binary <$> (init ++ [final])) st0
                 = ((receive_all (Binary <$> init) st0).1 ++ [Normal tt], st2)).
  { rewrite fmap_app. simpl. rewrite receive_all_snoc. by rewrite Hstep2. }
  split; [|split; [|split]].
  - subst run. cbn [receive_all]. rewrite Hstep0, Hrun. simpl.
    constructor; [done|]. apply Forall_app. split; [done|by constructor].
  - exists mime, name. split; [done|]. split; [done|].
    subst run. cbn [receive_all]. rewrite Hstep0, Hrun. simpl.
    rewrite Hdl2, H5, Hdl0, H3, Hrc0. done.
  - rewrite total_length_concat, total_length_app. lia.
  - intros k Hk. rewrite length_app in Hk. simpl in Hk.
    rewrite take_app_le by lia. cbn [receive_all]. rewrite Hstep0.
    specialize (Hprefix k).
    destruct (receive_all (Binary <$> take k init) st0) as [cs s2]. done.
Qed.

(** C5. Binary messages that arrive before any metadata are buffered and
    counted, and none of them completes; but each handler then reads
    [fileMetadata.size] of null, and the TypeError leaves the handler. *)
Theorem receiveFile_before_metadata_throws chunks :
  let run := receive_all (Binary <$> chunks) receiver_init in
  Forall (fun c => c = Throw TypeError) run.1 /\
  length run.1 = length chunks /\
  receivedChunks run.2 = chunks /\
  receivedSize run.2 = total_length chunks /\
  fileMetadata run.2 = JNull /\
  downloads run.2 = [].
Proof.
  assert (Hgen : forall st,
            fileMetadata st = JNull ->
            let run := receive_all (Binary <$> chunks) st in
            Forall (fun c => c = Throw TypeError) run.1 /\
            length run.1 = length chunks /\
            receivedChunks run.2 = receivedChunks st ++ chunks /\
            receivedSize run.2 = receivedSize st + total_length chunks /\
            fileMetadata run.2 = JNull /\
            downloads run.2 = downloads st).
  { induction chunks as [|b chunks IH]; intros st Hnull run; subst run.
    - simpl. rewrite app_nil_r. unfold total_length; simpl.
      repeat split; [constructor|lia|done].
    - assert (Hstep : receiveFile (Binary b) st
                      = (Throw TypeError,
                         MkReceiver (receivedSize st + byteLength b)
                           (receivedChunks st ++ [b]) JNull (effects st))).
      { unfold receiveFile. cbn [fileMetadata]. by rewrite Hnull. }
      rewrite fmap_cons. cbn [receive_all]. rewrite Hstep.
      match goal with
      | |- context [receive_all (Binary <$> chunks) ?s] =>
          destruct (IH s eq_refl) as (H1 & H2 & H3 & H4 & H5 & H6);
          destruct (receive_all (Binary <$> chunks) s) as [cs st']
      end.
      simpl in *. split; [by constructor|]. split; [lia|].
      split; [by rewrite H3, <- app_assoc|].
      split; [unfold total_length in *; simpl; lia|done]. }
  intros run. destruct (Hgen receiver_init eq_refl) as (H1 & H2 & H3 & H4 & H5 & H6).
  subst run. simpl in *. repeat split; try done.
Qed.

End ReceiverFacts.

(** ** The transfer from end to end *)

Section TransferFacts.
Import Transfer.
Context {J : JsonApi}.

Implicit Types (b : buffer) (f : file) (chunks : list buffer).

(** X13. Once the running total has passed the declared size, or when the
    declared size is not a number, no binary message completes the file:
    every chunk is still buffered and counted, every handler returns
    normally, and nothing is handed to the download. *)
Theorem overrun_never_completes (st : receiver) size chunks :
  get (fileMetadata st) "size" = Normal size ->
  (forall n, size = JNum n -> n < receivedSize st) ->
  let run := receive_all (Binary <$> chunks) st in
  Forall (fun c => c = Normal tt) run.1 /\
  receivedChunks run.2 = receivedChunks st ++ chunks /\
  receivedSize run.2 = receivedSize st + total_length chunks /\
  downloads run.2 = downloads st.
Proof.
  revert st. induction chunks as [|b chunks IH]; intros st Hsize Hpast run; subst run.
  - simpl. rewrite app_nil_r. unfold total_length; simpl.
    split; [constructor|]. split; [done|]. split; [lia|done].
  - destruct (receiveFile_buffers (fileMetadata st) size b st eq_refl Hsize)
      as (st1 & Hstep & Hrs & Hrc & Hfm & Hdl).
    { destruct size; try done. simpl. apply Z.eqb_neq.
      specialize (Hpast n eq_refl). unfold byteLength. lia. }
    destruct (IH st1) as (H1 & H2 & H3 & H4).
    { by rewrite Hfm. }
    { intros n Hn. specialize (Hpast n Hn). rewrite Hrs. unfold byteLength. lia. }
    rewrite fmap_cons. cbn [receive_all]. rewrite Hstep.
    destruct (receive_all (Binary <$> chunks) st1) as [cs st2]. simpl in *.
    split; [by constructor|]. split; [by rewrite H2, Hrc, <- app_assoc|].
    split; [unfold total_length in *; simpl; lia|congruence].
Qed.






(** X15. The share button never throws: without an open data channel, or
    with no file selected, it sends and reads nothing and shows an error
    status; otherwise it does what [sendFiles] does, which then finds a
    file to send. *)
Theorem share_button_guards_sendFiles (dataChannel : option SharePage.channel_state)
    (selectedFiles : list file) (st : sender) :
  let res := SharePage.share_click dataChannel selectedFiles st in
  res.1.1 = Normal tt /\
  (dataChannel ≠ Some SharePage.ChOpen ->
     res = (Normal tt, st, Some SharePage.EstablishConnectionFirst)) /\
  (dataChannel = Some SharePage.ChOpen -> selectedFiles = [] ->
     res = (Normal tt, st, Some SharePage.SelectAFile)) /\
  (forall f others,
     dataChannel = Some SharePage.ChOpen -> selectedFiles = f :: others ->
     res.2 = None /\ res.1.2 = (sendFiles (f :: others) st).2 /\
     currentFile res.1.2 = Some f /\
     wire res.1.2 = wire st ++ [Send (text_frame (JSON_stringify (metadata f)));
                                ReadAsArrayBuffer 0 chunkSize]).
Proof.
  intros res. subst res. unfold SharePage.share_click.
  split; [by destruct dataChannel as [[| | |]|], selectedFiles|].
  split; [intros Hne; by destruct dataChannel as [[| | |]|]|].
  split; [by intros -> ->|].
  intros f others -> ->. simpl.
  split; [done|]. split; [done|]. split; [done|]. by rewrite <- app_assoc.
Qed.

End TransferFacts.

(** ** Properties of the handshake *)

Section HandshakeFacts.
Import Handshake.

Implicit Types (w : waiter) (events : list (Z * ice_gathering_state)).

Lemma run_settled events w t :
  settled w = Some t -> listening w = false ->
  settled (run events w) = Some t /\ listening (run events w) = false.
Proof.
  revert w. induction events as [|[te state] events IH]; intros w Hset Hlis; simpl.
  - unfold fire_timer. destruct (timer w); [|done].
    unfold on_timeout, resolve; simpl. by rewrite Hset.
  - apply IH.
    + unfold dispatch, fire_timer_before. destruct (timer w) as [due|].
      * case_decide; unfold on_timeout, resolve; simpl; rewrite ?Hset; simpl;
          rewrite ?Hlis; done.
      * by rewrite Hlis.
    + unfold dispatch, fire_timer_before. destruct (timer w) as [due|].
      * case_decide; unfold on_timeout, resolve; simpl; rewrite ?Hset; simpl;
          rewrite ?Hlis; done.
      * by rewrite Hlis.
Qed.

Lemma first_complete_after lo events tc :
  chronological lo events = true -> first_complete events = Some tc -> lo <= tc.
Proof.
  revert lo. induction events as [|[te state] events IH]; intros lo Hchr Hfc;
    simpl in *; [done|].
  apply andb_true_iff in Hchr as [Hlo Hchr]. apply bool_decide_eq_true in Hlo.
  destruct state; try (specialize (IH te Hchr Hfc); lia).
  injection Hfc as <-. done.
Qed.

(** While the promise is pending with the listener attached and the timer
    armed, it is settled by the first change to 'complete' or by the
    timer, whichever is earlier. *)
Lemma run_pending due events :
  forall lo,
    chronological lo events = true -> lo <= due ->
    exists t,
      settled (run events (MkWaiter None true (Some due))) = Some t /\
      listening (run events (MkWaiter None true (Some due))) = false /\
      lo <= t <= due /\
      t = match first_complete events with
          | Some tc => Z.min tc due
          | None => due
          end.
Proof.
  induction events as [|[te state] events IH]; intros lo Hchr Hlo.
  - exists due. simpl. unfold fire_timer, on_timeout, resolve; simpl.
    repeat split; lia.
  - simpl in Hchr. apply andb_true_iff in Hchr as [Hte Hchr].
    apply bool_decide_eq_true in Hte.
    cbn [run]. unfold fire_timer_before. cbn [timer].
    destruct (decide (due <= te)) as [Hdue|Hdue].
    + (* the timer fires first *)
      destruct (run_settled events
                  (dispatch state te (on_timeout due (MkWaiter None true (Some due)))) due)
        as [Hs Hl]; [done|done|].
      exists due. split; [exact Hs|]. split; [exact Hl|]. split; [lia|].
      simpl. destruct state.
      * destruct (first_complete events) as [tc|] eqn:Hfc; [|done].
        pose proof (first_complete_after te events tc Hchr Hfc). lia.
      * destruct (first_complete events) as [tc|] eqn:Hfc; [|done].
        pose proof (first_complete_after te events tc Hchr Hfc). lia.
      * lia.
    + unfold dispatch. cbn [listening]. destruct state; cbn [handler first_complete].
      * destruct (IH te Hchr ltac:(lia)) as (t & H1 & H2 & H3 & H4).
        exists t. repeat split; try done; lia.
      * destruct (IH te Hchr ltac:(lia)) as (t & H1 & H2 & H3 & H4).
        exists t. repeat split; try done; lia.
      * destruct (run_settled events
                    (resolve te (removeEventListener (MkWaiter None true (Some due)))) te)
          as [Hs Hl]; [done|done|].
        exists te. split; [exact Hs|]. split; [exact Hl|]. lia.
Qed.

(** C8. The promise of [waitForIceGatheringComplete] is always settled:
    at once when there is no connection or gathering is already complete,
    and otherwise at the first change to 'complete' or when the timeout
    (3000 ms unless given) has elapsed, whichever is earlier; the listener
    is detached in every case. *)
Theorem ice_gathering_wait_terminates pc timeout now events :
  chronological now events = true ->
  let due := now + Z.max 0 (default 3000 timeout) in
  let w := run events (waitForIceGatheringComplete pc timeout now) in
  exists t,
    settled w = Some t /\
    listening w = false /\
    now <= t <= due /\
    (timeout = None -> t <= now + 3000) /\
    (pc = None \/ pc = Some IceComplete -> t = now) /\
    (pc = Some IceNew \/ pc = Some IceGathering ->
     t = match first_complete events with
         | Some tc => Z.min tc due
         | None => due
         end).
Proof.
  intros Hchr due w.
  assert (Hnow : forall w0, w0 = resolve now (MkWaiter None false None) ->
            settled (run events w0) = Some now /\ listening (run events w0) = false).
  { intros w0 ->. by apply run_settled. }
  assert (Hwait : forall state, state ≠ IceComplete ->
            waitForIceGatheringComplete (Some state) timeout now
            = MkWaiter None true (Some due)).
  { intros state Hne. by destruct state. }
  assert (Hbound : timeout = None -> due = now + 3000).
  { intros ->. subst due. simpl. lia. }
  destruct pc as [[| |]|].
  - destruct (run_pending due events now Hchr ltac:(lia)) as (t & H1 & H2 & H3 & H4).
    exists t. subst w. rewrite Hwait by done.
    split; [done|]. split; [done|]. split; [done|].
    split; [intros Hd; specialize (Hbound Hd); lia|].
    split; [intros [?|?]; discriminate|done].
  - destruct (run_pending due events now Hchr ltac:(lia)) as (t & H1 & H2 & H3 & H4).
    exists t. subst w. rewrite Hwait by done.
    split; [done|]. split; [done|]. split; [done|].
    split; [intros Hd; specialize (Hbound Hd); lia|].
    split; [intros [?|?]; discriminate|done].
  - destruct (Hnow (waitForIceGatheringComplete (Some IceComplete) timeout now) eq_refl)
      as [H1 H2].
    exists now. subst w. split; [done|]. split; [done|]. split; [lia|].
    split; [lia|]. split; [done|intros [?|?]; discriminate].
  - destruct (Hnow (waitForIceGatheringComplete None timeout now) eq_refl) as [H1 H2].
    exists now. subst w. split; [done|]. split; [done|]. split; [lia|].
    split; [lia|]. split; [done|intros [?|?]; discriminate].
Qed.

End HandshakeFacts.

Section ShorteningFacts.
Import Handshake.
Context {J : JsonApi} {B : Browser}.

Lemma store_failure_throws net :
  net = FetchRejected \/ (exists json, net = FetchResponse false json) ->
  exists e, storeTokenAndGetShortUrl net = Throw e.
Proof.
  intros [->|[json ->]]; simpl; eauto.
Qed.

(** When the store answers with an id, the short URL is what is shown. *)
Lemma shortening_success_shows_short_url pg evt data offer id :
  JSON_parse evt = Some data ->
  get data "type" = Normal (JStr "offer-created") ->
  get data "offer" = Normal offer ->
  let short := location_origin +:+ "/t/" +:+ to_string id in
  let res := ws_onmessage evt (FetchResponse true (Some (JObj [("id", id)]))) pg in
  res.1 = Normal tt /\
  tokenInput_value res.2 = short /\
  qrcode res.2 = qrcode (generateQRCode (Some short) 128 pg) /\
  answerSection_shown res.2 = true.
Proof.
  intros Hparse Htype Hoffer short res. subst res.
  unfold ws_onmessage. rewrite Hparse, Htype. simpl. rewrite Hoffer. done.
Qed.

(** C9. When the request to the token store is rejected or answered with
    a response that is not ok, the handler of offer-created and of
    answer-created still returns normally: the full token goes into the
    token field, a QR code of size 256 is drawn (the short URL would have
    had 128), and the failure is shown as an error status.  The text of
    that QR code is not the token: [generateQRCode] hands every text to
    [new URL(text, location.origin)] and encodes the href of the result,
    and the token itself only when that constructor throws. *)
Theorem shortening_failure_shows_full_token pg evt data created key sdp net :
  JSON_parse evt = Some data ->
  get data "type" = Normal (JStr created) ->
  (created = "offer-created" /\ key = "offer" \/
   created = "answer-created" /\ key = "answer") ->
  get data key = Normal sdp ->
  (net = FetchRejected \/ exists json, net = FetchResponse false json) ->
  let token := JSON_stringify sdp in
  let res := ws_onmessage evt net pg in
  res.1 = Normal tt /\
  store_requests res.2 = store_requests pg ++ [token] /\
  tokenInput_value res.2 = dom_string token /\
  qrcode res.2 = qrcode (generateQRCode token 256 pg) /\
  qrcode res.2 =
    Some (match URL_href (dom_string token) location_origin with
          | Some href => Some href
          | None => token
          end, 256) /\
  (forall href,
     URL_href (dom_string token) location_origin = Some href ->
     qrcode res.2 = Some (Some href, 256)) /\
  statuses res.2 = statuses pg ++ [(ShortenFailed, "error")] /\
  answerSection_shown res.2 = answerSection_shown pg /\
  peerConnection res.2 = peerConnection pg /\
  added_candidates res.2 = added_candidates pg.
Proof.
  intros Hparse Htype Hkind Hsdp Hnet token res. subst res token.
  destruct (store_failure_throws net Hnet) as [e He].
  unfold ws_onmessage. rewrite Hparse, Htype.
  destruct Hkind as [[-> ->]|[-> ->]]; simpl; rewrite Hsdp, He; simpl;
    (split; [done|]); (split; [done|]); (split; [done|]); (split; [done|]);
    (split; [done|]); (split; [by intros href ->|done]).
Qed.

End ShorteningFacts.

(** ** Properties of the short link and of trickled candidates *)

Section ShortLinkFacts.
Import TokenStore Handshake ShortLink.
Context {J : JsonApi} {B : Browser}.

(** X16. The short link leads back to the token.  When the client stores
    the token text of an offer-created or answer-created frame and the
    server accepts it under an id that has no older timer, the client
    shows [origin/t/id] in the token field and draws a QR code of size 128
    whose text is the href of that short URL (the short URL itself when
    [new URL] throws); until the TTL the server answers GET /t/id with the
    reveal page, and the reveal button shows what the textarea of that
    page makes of the token text the client stored: the text itself
    whenever the HTML parser leaves it as it is. *)
Theorem short_link_leads_to_token pg evt data created key description s st now t uuid :
  JSON_parse evt = Some data ->
  get data "type" = Normal (JStr created) ->
  (created = "offer-created" /\ key = "offer" \/
   created = "answer-created" /\ key = "answer") ->
  get data key = Normal description ->
  JSON_stringify description = Some s ->
  s ≠ EmptyString ->
  uuid ∉ (timers st).*2 ->
  t < now + TOKEN_TTL ->
  let served := serve now (PostStore uuid (store_request_body (Some s))) st in
  let res := ws_onmessage evt (fetch_of served.1) pg in
  let short := location_origin +:+ "/t/" +:+ uuid in
  res.1 = Normal tt /\
  store_requests res.2 = store_requests pg ++ [Some s] /\
  tokenInput_value res.2 = short /\
  qrcode res.2 =
    Some (match URL_href short location_origin with
          | Some href => Some href
          | None => Some short
          end, 128) /\
  (serve t (GetT uuid) served.2).1 = Html 200 (RevealPage uuid) /\
  reveal (fetch_of (serve t (GetConsume uuid) served.2).1)
  = ShowToken (textarea_value s) /\
  (textarea_value s = s ->
   reveal (fetch_of (serve t (GetConsume uuid) served.2).1) = ShowToken s).
Proof.
  intros Hparse Htype Hkind Hdesc Hstr Hs Hfresh Ht served res short.
  assert (Htruthy : truthy (JStr s) = true).
  { simpl. apply negb_true_iff. by apply String.eqb_neq. }
  assert (Hserved : served =
            (Json 200 (JObj [("id", JStr uuid)]),
             Store (<[uuid := JStr s]> (tokens (run_timers now st)))
               (timers (run_timers now st) ++ [(now + TOKEN_TTL, uuid)]))).
  { subst served. unfold serve; simpl. unfold post_store. simpl.
    simpl in Htruthy. rewrite Htruthy. done. }
  assert (Hlive : tokens (run_timers t served.2) !! uuid = Some (JStr s)).
  { rewrite Hserved. unfold run_timers at 1. simpl.
    rewrite expire_keeps_live; [apply lookup_insert_eq|].
    intros d Hd. apply elem_of_app in Hd as [Hd|Hd].
    - exfalso. apply Hfresh. apply list_elem_of_filter in Hd as [_ Hd].
      apply list_elem_of_fmap. by exists (d, uuid).
    - apply list_elem_of_singleton in Hd. injection Hd as ->. lia. }
  assert (Hclient : res.1 = Normal tt /\
            store_requests res.2 = store_requests pg ++ [Some s] /\
            tokenInput_value res.2 = short /\
            qrcode res.2 =
              Some (match URL_href short location_origin with
                    | Some href => Some href
                    | None => Some short
                    end, 128)).
  { subst res. rewrite Hserved. unfold ws_onmessage. rewrite Hparse, Htype.
    destruct Hkind as [[-> ->]|[-> ->]]; simpl; rewrite Hdesc, Hstr; done. }
  destruct Hclient as (H1 & H2 & H3 & H4).
  split; [done|]. split; [done|]. split; [done|]. split; [done|].
  assert (Hreveal : reveal (fetch_of (serve t (GetConsume uuid) served.2).1)
                    = ShowToken (textarea_value s)).
  { unfold serve. generalize dependent (run_timers t served.2). intros s1 Hlive.
    simpl. unfold get_consume, mbind, handler_bind, tokens_get. simpl.
    rewrite Hlive. simpl. simpl in Htruthy. rewrite Htruthy. done. }
  split; [|split; [exact Hreveal|by intros <-]].
  unfold serve. generalize dependent (run_timers t served.2). intros s1 Hlive.
  simpl. unfold get_t, mbind, handler_bind, tokens_get. simpl.
  rewrite Hlive. simpl. simpl in Htruthy. rewrite Htruthy. done.
Qed.


(** X18. A frame from the relay that is neither offer-created nor
    answer-created never touches the token field, the QR code or the
    token store: an ice-candidate is handed to the peer connection when
    there is one and is dropped when there is none, and every other type
    is ignored. *)
Theorem candidates_need_a_peer_connection pg evt net data type :
  JSON_parse evt = Some data ->
  get data "type" = Normal type ->
  strict_eq_str type "offer-created" = false ->
  strict_eq_str type "answer-created" = false ->
  let res := ws_onmessage evt net pg in
  res.1 = Normal tt /\
  (strict_eq_str type "ice-candidate" = true -> peerConnection pg = true ->
     exists candidate,
       get data "candidate" = Normal candidate /\
       res.2 = addIceCandidate candidate pg) /\
  (strict_eq_str type "ice-candidate" = false \/ peerConnection pg = false ->
     res.2 = pg).
Proof.
  intros Hparse Htype Hoffer Hanswer res. subst res.
  unfold ws_onmessage. rewrite Hparse, Htype, Hoffer, Hanswer.
  assert (exists candidate, get data "candidate" = Normal candidate) as [candidate Hc].
  { destruct data; try discriminate Htype; eexists; reflexivity. }
  rewrite Hc.
  destruct (strict_eq_str type "ice-candidate"), (peerConnection pg); simpl;
    (split; [done|]); split; try done; try (intros [?|?]; done); eauto.
Qed.

End ShortLinkFacts.

Section TrickleFacts.
Import Relay Handshake Trickle.
Context {J : JsonApi} {W : WsLibrary} {B : Browser}.

(** X19. A candidate travels from peer to peer.  The candidate that one
    client's [onicecandidate] sends is written by the relay to every other
    open client once, and the handler of such a client hands that very
    candidate to its peer connection, or drops it when it has none.  The
    event that ends gathering (null candidate) sends nothing.  The frame
    text has to survive JSON.parse after JSON.stringify. *)
Theorem candidate_travels_to_peer v st a b candidate text pg net :
  truthy candidate = true ->
  JSON_stringify (encode (IceCandidate candidate)) = Some text ->
  JSON_parse text = Some (encode (IceCandidate candidate)) ->
  NoDup (clients st) ->
  b ∈ clients st -> b ≠ a -> readyState st b = OPEN ->
  onicecandidate JNull = None /\
  onicecandidate candidate = Some (Some text) /\
  exists frames,
    sent (on_message v a text st).2 = sent st ++ frames /\
    delivered_to b frames = [IceCandidate candidate] /\
    delivered_to a frames = [] /\
    (forall m, m ∈ delivered_to b frames ->
       JSON_stringify (encode m) = Some text /\
       ws_onmessage text net pg
       = (Normal tt, if peerConnection pg then addIceCandidate candidate pg else pg)).
Proof.
  intros Htruthy Hstr Hparse Hnd Hb Hne Hopen.
  split; [done|]. split.
  { unfold onicecandidate. rewrite Htruthy. simpl in Hstr. by rewrite Hstr. }
  eexists. split.
  { by rewrite (on_message_ice_candidate v a text _ candidate st Hparse). }
  assert (Hdel : delivered_to b
            ((fun c => (c, IceCandidate candidate)) <$>
               filter (fun c => c ≠ a /\ readyState st c = OPEN) (clients st))
            = [IceCandidate candidate]).
  { rewrite delivered_to_fmap.
    rewrite filter_eq_NoDup; [done|by apply NoDup_filter|].
    by apply list_elem_of_filter. }
  split; [done|]. split.
  { rewrite delivered_to_fmap. rewrite filter_eq_absent; [done|].
    rewrite list_elem_of_filter. tauto. }
  intros m Hm. rewrite Hdel in Hm. apply list_elem_of_singleton in Hm as ->.
  split; [done|].
  unfold ws_onmessage. rewrite Hparse. simpl. by destruct (peerConnection pg).
Qed.

End TrickleFacts.

(** ** Properties of the offer and answer handlers *)

Section NegotiationFacts.
Import Negotiation.
Context {J : JsonApi} {B : Handshake.Browser} {P : PageApi}.

Implicit Types (ss : session) (rtc : rtc_outcome).

(** Resolving a token asks the network at most once and leaves the
    session alone. *)
Lemma resolve_token_keeps text page ss :
  exists pre,
    steps (resolve_token text page ss).2 = steps ss ++ pre /\
    Forall (fun a => is_Fetch a = true) pre /\
    isInitiator (resolve_token text page ss).2 = isInitiator ss /\
    peerConnection (resolve_token text page ss).2 = peerConnection ss /\
    dataChannel_open (resolve_token text page ss).2 = dataChannel_open ss /\
    shown (resolve_token text page ss).2 = shown ss /\
    fileInput_disabled (resolve_token text page ss).2 = fileInput_disabled ss /\
    shareBtn_disabled (resolve_token text page ss).2 = shareBtn_disabled ss.
Proof.
  unfold resolve_token.
  destruct (URL_parts text Handshake.location_origin) as [[pathname href]|];
    [|exists []; simpl; rewrite app_nil_r; repeat split; constructor].
  destruct (String.prefix "/t/" pathname);
    [|exists []; simpl; rewrite app_nil_r; repeat split; constructor].
  exists [Fetch href].
  destruct page as [|[] [body|]]; simpl; repeat split; by repeat constructor.
Qed.

(** X20. The responder walks its handshake in order and stops at the
    first failure.  A pasted text that is a URL under /t/ is fetched,
    once, and replaced by the body of an ok response; no other text is
    fetched.  A text that then parses to an offer makes the page the
    responder and runs, each step only after the one before it
    succeeded: new peer connection, remote description, answer, local
    description, wait for ICE gathering, send of the answer on the relay
    socket.  A text that is not an offer touches neither the role nor the
    peer connection.  Exactly one status is shown: the success status
    when every step succeeded, the failure of the first failing step
    otherwise, or the parse error. *)
Theorem responder_walks_the_handshake tokenOrUrl page rtc ss :
  let pasted := String_trim tokenOrUrl in
  let fetched :=
    match URL_parts pasted Handshake.location_origin with
    | Some (pathname, href) =>
        if String.prefix "/t/" pathname then [Fetch href] else []
    | None => []
    end in
  let text :=
    match fetched, page with
    | _ :: _, PageResponse true (Some body) => body
    | _, _ => pasted
    end in
  let ss' := handleScannedOrPastedToken tokenOrUrl page rtc ss in
  let offer := default JUndefined (JSON_parse text) in
  let answer := default JUndefined (createAnswer_result rtc) in
  let sent := JSON_stringify
                (JObj [("type", JStr "answer"); ("answer", localDescription rtc)]) in
  let plan := responder_steps offer answer sent in
  let is_offer :=
    match JSON_parse text with
    | Some obj =>
        match get obj "type" with
        | Normal type => strict_eq_str type "offer"
        | Throw _ => false
        end
    | None => false
    end in
  let status :=
    match JSON_parse text with
    | None => (ErrorProcessingToken (Thrown SyntaxError), "error")
    | Some obj =>
        match get obj "type" with
        | Throw e => (ErrorProcessingToken (Thrown e), "error")
        | Normal type =>
            if strict_eq_str type "offer" then
              match first_failure rtc plan with
              | Some f => (ErrorProcessingToken f, "error")
              | None => (AnswerCreatedStatus, "info")
              end
            else (InvalidOfferToken, "error")
        end
    end in
  steps ss' = steps ss ++ fetched ++ (if is_offer then until_failure rtc plan else []) /\
  shown ss' = shown ss ++ [status] /\
  isInitiator ss' = (if is_offer then false else isInitiator ss) /\
  peerConnection ss' = (if is_offer && constructs rtc then true else peerConnection ss) /\
  dataChannel_open ss' = dataChannel_open ss /\
  answerInput_value ss' = answerInput_value ss /\
  fileInput_disabled ss' = fileInput_disabled ss /\
  shareBtn_disabled ss' = shareBtn_disabled ss.
Proof.
  intros pasted fetched text ss' offer answer sent plan is_offer status.
  subst ss' status is_offer plan offer text fetched answer sent.
  unfold handleScannedOrPastedToken, resolve_token. fold pasted.
  assert (Hend : forall A B C : Prop, A -> B -> C -> A /\ B /\ C) by done.
  assert (Hrun : forall text ss1 pre,
    steps ss1 = steps ss ++ pre -> shown ss1 = shown ss ->
    isInitiator ss1 = isInitiator ss -> peerConnection ss1 = peerConnection ss ->
    dataChannel_open ss1 = dataChannel_open ss ->
    answerInput_value ss1 = answerInput_value ss ->
    fileInput_disabled ss1 = fileInput_disabled ss ->
    shareBtn_disabled ss1 = shareBtn_disabled ss ->
    let ss' :=
      match JSON_parse text with
      | Some obj =>
          match get obj "type" with
          | Normal type =>
              if negb (strict_eq_str type "offer")
              then showStatus InvalidOfferToken "error" ss1
              else
                match answer_offer obj rtc ss1 with
                | (inl f, ss2) => showStatus (ErrorProcessingToken f) "error" ss2
                | (inr _, ss2) => ss2
                end
          | Throw e => showStatus (ErrorProcessingToken (Thrown e)) "error" ss1
          end
      | None => showStatus (ErrorProcessingToken (Thrown SyntaxError)) "error" ss1
      end in
    let plan :=
      responder_steps (default JUndefined (JSON_parse text))
        (default JUndefined (createAnswer_result rtc))
        (JSON_stringify
           (JObj [("type", JStr "answer"); ("answer", localDescription rtc)])) in
    let is_offer :=
      match JSON_parse text with
      | Some obj =>
          match get obj "type" with
          | Normal type => strict_eq_str type "offer"
          | Throw _ => false
          end
      | None => false
      end in
    steps ss' = steps ss ++ pre ++ (if is_offer then until_failure rtc plan else []) /\
    shown ss' =
      shown ss ++
      [match JSON_parse text with
       | None => (ErrorProcessingToken (Thrown SyntaxError), "error")
       | Some obj =>
           match get obj "type" with
           | Throw e => (ErrorProcessingToken (Thrown e), "error")
           | Normal type =>
               if strict_eq_str type "offer" then
                 match first_failure rtc plan with
                 | Some f => (ErrorProcessingToken f, "error")
                 | None => (AnswerCreatedStatus, "info")
                 end
               else (InvalidOfferToken, "error")
           end
       end] /\
    isInitiator ss' = (if is_offer then false else isInitiator ss) /\
    peerConnection ss' = (if is_offer && constructs rtc then true else peerConnection ss) /\
    dataChannel_open ss' = dataChannel_open ss /\
    answerInput_value ss' = answerInput_value ss /\
    fileInput_disabled ss' = fileInput_disabled ss /\
    shareBtn_disabled ss' = shareBtn_disabled ss).
  { intros text ss1 pre Hsteps Hshown Hini Hpc Hdc Hanswer Hfile Hshare; simpl.
    destruct (JSON_parse text) as [obj|]; simpl;
      [|by rewrite Hsteps, Hshown, Hini, Hpc, Hdc, Hanswer, Hfile, Hshare, app_nil_r].
    destruct (get obj "type") as [type|e]; simpl;
      [|by rewrite Hsteps, Hshown, Hini, Hpc, Hdc, Hanswer, Hfile, Hshare, app_nil_r].
    destruct (strict_eq_str type "offer"); simpl;
      [|by rewrite Hsteps, Hshown, Hini, Hpc, Hdc, Hanswer, Hfile, Hshare, app_nil_r].
    unfold answer_offer, createPeerConnection.
    destruct rtc as [c dc sr co ca sl ld ws]. simpl.
    destruct c; simpl;
      [|by rewrite Hsteps, Hshown, Hpc, Hdc, Hanswer, Hfile, Hshare, <- ?app_assoc].
    destruct sr; simpl;
      [|by rewrite Hsteps, Hshown, Hdc, Hanswer, Hfile, Hshare, <- ?app_assoc].
    destruct ca as [a|]; simpl;
      [|by rewrite Hsteps, Hshown, Hdc, Hanswer, Hfile, Hshare, <- ?app_assoc].
    destruct sl; simpl;
      [|by rewrite Hsteps, Hshown, Hdc, Hanswer, Hfile, Hshare, <- ?app_assoc].
    destruct ws; simpl;
      by rewrite Hsteps, Hshown, Hdc, Hanswer, Hfile, Hshare, <- ?app_assoc. }
  destruct (URL_parts pasted Handshake.location_origin) as [[pathname href]|];
    [|apply (Hrun pasted ss []); by rewrite ?app_nil_r].
  destruct (String.prefix "/t/" pathname);
    [|apply (Hrun pasted ss []); by rewrite ?app_nil_r].
  destruct page as [|[] [body|]];
    [apply (Hrun pasted (did (Fetch href) ss) [Fetch href])
    |apply (Hrun body (did (Fetch href) ss) [Fetch href])
    |apply (Hrun pasted (did (Fetch href) ss) [Fetch href])
    |apply (Hrun pasted (did (Fetch href) ss) [Fetch href])
    |apply (Hrun pasted (did (Fetch href) ss) [Fetch href])]; done.
Qed.

(** X21. The connect button applies a description only when the pasted
    text parses to an answer and a peer connection exists, and it enables
    the file input only after that description was accepted; the share
    button is enabled only if the data channel is open as well.  It shows
    exactly one status and never changes the role or the peer
    connection. *)
Theorem connect_applies_only_answers page rtc ss :
  let pasted := String_trim (answerInput_value ss) in
  let text := (resolve_token pasted page ss).1 in
  let ss' := connect_click page rtc ss in
  let answerData := default JUndefined (JSON_parse text) in
  let is_answer :=
    negb (String.eqb pasted EmptyString) &&
    match JSON_parse text with
    | Some obj =>
        match get obj "type" with
        | Normal type => strict_eq_str type "answer"
        | Throw _ => false
        end
    | None => false
    end in
  let established :=
    is_answer && peerConnection ss && setRemoteDescription_ok rtc in
  (exists pre,
     steps ss' =
       steps ss ++ pre ++
       (if is_answer && peerConnection ss
        then [SetRemoteDescription answerData] else []) /\
     Forall (fun a => is_Fetch a = true) pre) /\
  (exists status,
     shown ss' = shown ss ++ [status] /\
     (status = (ConnectionEstablished, "success") <-> established = true)) /\
  fileInput_disabled ss' =
    (if established then false else fileInput_disabled ss) /\
  shareBtn_disabled ss' =
    (if established && dataChannel_open ss then false else shareBtn_disabled ss) /\
  isInitiator ss' = isInitiator ss /\
  peerConnection ss' = peerConnection ss.
Proof.
  intros pasted text ss' answerData is_answer established.
  subst ss' is_answer established answerData text. unfold connect_click.
  fold pasted.
  destruct (String.eqb pasted EmptyString) eqn:Hempty; simpl.
  { split; [exists []; by rewrite !app_nil_r|].
    split; [eexists; split; [reflexivity|done]|done]. }
  destruct (resolve_token_keeps pasted page ss)
    as (pre & Hsteps & Hpre & Hini & Hpc & Hdc & Hshown & Hfile & Hshare).
  destruct (resolve_token pasted page ss) as [text ss1].
  simpl in Hsteps, Hini, Hpc, Hdc, Hshown, Hfile, Hshare. cbn [fst].
  destruct (JSON_parse text) as [obj|]; simpl.
  2: { rewrite Hsteps, Hshown, Hfile, Hshare, Hini, Hpc.
       split; [exists pre; by rewrite app_nil_r|].
       split; [eexists; split; [reflexivity|done]|done]. }
  destruct (get obj "type") as [type|e]; simpl.
  2: { rewrite Hsteps, Hshown, Hfile, Hshare, Hini, Hpc.
       split; [exists pre; by rewrite app_nil_r|].
       split; [eexists; split; [reflexivity|done]|done]. }
  destruct (strict_eq_str type "answer"); simpl.
  2: { rewrite Hsteps, Hshown, Hfile, Hshare, Hini, Hpc.
       split; [exists pre; by rewrite app_nil_r|].
       split; [eexists; split; [reflexivity|done]|done]. }
  rewrite Hpc.
  destruct (peerConnection ss); simpl.
  2: { rewrite Hsteps, Hshown, Hfile, Hshare, Hini, Hpc.
       split; [exists pre; by rewrite app_nil_r|].
       split; [eexists; split; [reflexivity|done]|done]. }
  destruct (setRemoteDescription_ok rtc); simpl.
  2: { rewrite Hsteps, Hshown, Hfile, Hshare, Hini, Hpc, <- app_assoc.
       split; [by exists pre|].
       split; [eexists; split; [reflexivity|done]|done]. }
  rewrite Hsteps, Hshown, Hshare, Hini, Hpc, Hdc, <- app_assoc.
  split; [by exists pre|].
  split; [eexists; split; [reflexivity|done]|done].
Qed.

(** X22. The initiator walks its handshake in order.  With the relay
    socket not open the click does nothing but show one error status.
    Otherwise it takes the initiator role and runs, each step only after
    the one before it succeeded: new peer connection, data channel,
    offer, local description, wait for ICE gathering, send of the offer.
    The first failure ends the handler with that failure, and since
    nothing catches it no status is shown for it; the success status is
    shown only when every step succeeded. *)
Theorem initiator_walks_the_handshake ws_open rtc ss :
  let r := create_connection_click ws_open rtc ss in
  let offer := default JUndefined (createOffer_result rtc) in
  let sent := JSON_stringify
                (JObj [("type", JStr "offer"); ("offer", localDescription rtc)]) in
  let plan := initiator_steps offer sent in
  steps r.2 = steps ss ++ (if ws_open then until_failure rtc plan else []) /\
  r.1 = (if ws_open then
           match first_failure rtc plan with
           | Some f => inl f
           | None => inr tt
           end
         else inr tt) /\
  shown r.2 =
    shown ss ++
    (if ws_open then
       match first_failure rtc plan with
       | Some _ => []
       | None => [(OfferCreatedStatus, "info")]
       end
     else [(SignalingNotConnected, "error")]) /\
  isInitiator r.2 = (if ws_open then true else isInitiator ss) /\
  peerConnection r.2 = (if ws_open && constructs rtc then true else peerConnection ss) /\
  dataChannel_open r.2 =
    (if ws_open && constructs rtc && createDataChannel_ok rtc then false
     else dataChannel_open ss) /\
  answerInput_value r.2 = answerInput_value ss /\
  fileInput_disabled r.2 = fileInput_disabled ss /\
  shareBtn_disabled r.2 = shareBtn_disabled ss.
Proof.
  intros r offer sent plan. subst r plan offer sent.
  unfold create_connection_click, createPeerConnection.
  destruct rtc as [c dc sr co ca sl ld ws]. simpl.
  destruct ws_open; simpl; [|by rewrite app_nil_r].
  destruct c; simpl; [|by rewrite app_nil_r].
  destruct dc; simpl; [|by rewrite <- ?app_assoc, ?app_nil_r].
  destruct co as [o|]; simpl; [|by rewrite <- ?app_assoc, ?app_nil_r].
  destruct sl; simpl; [|by rewrite <- ?app_assoc, ?app_nil_r].
  destruct ws; simpl; by rewrite <- ?app_assoc, ?app_nil_r.
Qed.

(** X23. A short link is not a token for the handler that fetches it.
    When the pasted text is a URL under /t/, the handler fetches it; what
    GET /t/:id answers is a page, found or not, and neither a page nor
    the URL itself parses as JSON.  So the handler ends with the
    processing error, never touches the peer connection, and the
    server's Map is as the request found it. *)
Theorem short_link_is_not_a_token (html : TokenStore.page -> string)
    tokenOrUrl id href now (st : TokenStore.store) rtc ss :
  URL_parts (String_trim tokenOrUrl) Handshake.location_origin
    = Some ("/t/" +:+ id, href) ->
  (forall p, JSON_parse (html p) = None) ->
  JSON_parse (String_trim tokenOrUrl) = None ->
  let r := TokenStore.serve now (TokenStore.GetT id) st in
  let ss' := handleScannedOrPastedToken tokenOrUrl (page_of html r.1) rtc ss in
  steps ss' = steps ss ++ [Fetch href] /\
  shown ss' = shown ss ++ [(ErrorProcessingToken (Thrown SyntaxError), "error")] /\
  isInitiator ss' = isInitiator ss /\
  peerConnection ss' = peerConnection ss /\
  TokenStore.tokens r.2 = TokenStore.tokens (TokenStore.run_timers now st).
Proof.
  intros Hurl Hhtml Htext r ss'. subst r ss'.
  unfold handleScannedOrPastedToken, resolve_token. rewrite Hurl.
  change (String.prefix "/t/" ("/t/" +:+ id)) with (String.prefix EmptyString id).
  replace (String.prefix EmptyString id) with true by (by destruct id).
  unfold TokenStore.serve, TokenStore.route, TokenStore.get_t,
    TokenStore.tokens_get, mbind, mret, TokenStore.handler_bind,
    TokenStore.handler_ret.
  destruct (negb (truthy (TokenStore.or_undefined
              (TokenStore.tokens (TokenStore.run_timers now st) !! id)))); simpl.
  - rewrite Htext. done.
  - rewrite Hhtml. done.
Qed.

End NegotiationFacts.

(** ** The properties at concrete inputs *)

Section ClientExamples.
Import Transfer Handshake.

Lemma sender_emits_metadata_then_chunks_witness :
  let f := Samples.three_bytes in
  let st0 := MkSender None 0 None [] [] in
  let st := transfer (J := Samples.json) [f] st0 in
  let n := chunk_count (file_size f) in
  let control :=
    JObj [("type", JStr "metadata"); ("name", JStr (file_name f));
          ("size", JNum (file_size f)); ("fileType", JStr (file_type f))] in
  let chunks :=
    (fun i => slice (i * chunkSize) (i * chunkSize + chunkSize) (file_content f))
    <$> seqZ 0 n in
  reading st = None /\
  offset st = file_size f /\
  wire st =
    wire st0 ++
    Send (text_frame (JSON_stringify (JsonApi := Samples.json) control)) ::
    concat ((fun i =>
               [ReadAsArrayBuffer (i * chunkSize) (i * chunkSize + chunkSize);
                Send (Binary (slice (i * chunkSize) (i * chunkSize + chunkSize)
                                (file_content f)))])
            <$> seqZ 0 n) /\
  sent_frames st =
    sent_frames st0 ++
    text_frame (JSON_stringify (JsonApi := Samples.json) control) ::
    (Binary <$> chunks) /\
  get control "type" = Normal (JStr "metadata") /\
  get control "name" = Normal (JStr (file_name f)) /\
  get control "size" = Normal (JNum (file_size f)) /\
  get control "fileType" = Normal (JStr (file_type f)) /\
  get control "mimeType" = Normal JUndefined /\
  Forall (fun c => byteLength c <= 16384) chunks /\
  concat chunks = file_content f /\
  total_length chunks = file_size f /\
  (file_size f = 40000 -> byteLength <$> chunks = [16384; 16384; 7232]).
Proof.
  apply (sender_emits_metadata_then_chunks (J := Samples.json)
           Samples.three_bytes [] (MkSender None 0 None [] [])).
  reflexivity.
Defined.

(** The control message of a three-byte file, as it is on the channel:
    the MIME type is under fileType, and a receiver that reads mimeType
    gets undefined. *)
Lemma control_message_has_no_mimeType :
  let st := transfer (J := Samples.json) [Samples.three_bytes]
              (MkSender None 0 None [] []) in
  exists text m,
    head (sent_frames st) = Some (Text text) /\
    JSON_parse (JsonApi := Samples.json) text = Some m /\
    m = JObj [("type", JStr "metadata"); ("name", JStr "a.bin"); ("size", JNum 3);
              ("fileType", JStr "application/octet-stream")] /\
    get m "mimeType" = Normal JUndefined /\
    ~ (exists mime, get m "mimeType" = Normal (JStr mime)) /\
    get m "fileType" = Normal (JStr "application/octet-stream").
Proof.
  exists (Samples.text_of (Samples.metadata_message 3)), (Samples.metadata_message 3).
  split; [vm_compute; reflexivity|].
  split; [vm_compute; reflexivity|].
  split; [reflexivity|]. split; [reflexivity|].
  split; [|reflexivity].
  intros [mime Hmime]. discriminate Hmime.
Qed.

(** The scenario of the 40000-byte file, run on the model. *)
Example forty_thousand_bytes :
  omap (fun d => match d with Binary b => Some (byteLength b) | Text _ => None end)
       (sent_frames (transfer (J := Samples.json) [Samples.zeros 40000]
                       (MkSender None 0 None [] [])))
  = [16384; 16384; 7232].
Proof. vm_compute. reflexivity. Qed.

(** An empty file goes out as its metadata and one empty chunk. *)
Example empty_file_sends_one_empty_chunk :
  wire (transfer (J := Samples.json) [Samples.zeros 0] (MkSender None 0 None [] []))
  = [Send (Text (Samples.text_of (metadata (Samples.zeros 0))));
     ReadAsArrayBuffer 0 16384; Send (Binary [])].
Proof. vm_compute. reflexivity. Qed.

Lemma receiver_completes_exactly_once_witness :
  let text := Samples.text_of (Samples.metadata_message 3) in
  let chunks := [[Byte.x01; Byte.x02]; [Byte.x03]] in
  let run := receive_all (J := Samples.json) (Text text :: (Binary <$> chunks))
               receiver_init in
  Forall (fun c => c = Normal tt) run.1 /\
  (exists mime name,
     get (Samples.metadata_message 3) "fileType" = Normal mime /\
     get (Samples.metadata_message 3) "name" = Normal name /\
     downloads run.2 = downloads receiver_init ++ [Download (concat chunks) mime name]) /\
  byteLength (concat chunks) = 3 /\
  (forall k : nat, (k < length chunks)%nat ->
     downloads (receive_all (J := Samples.json)
                  (Text text :: (Binary <$> take k chunks)) receiver_init).2
     = downloads receiver_init).
Proof.
  apply (receiver_completes_exactly_once (J := Samples.json) receiver_init
           (Samples.text_of (Samples.metadata_message 3)) (Samples.metadata_message 3)
           3 [[Byte.x01; Byte.x02]; [Byte.x03]] [Byte.x03]).
  - vm_compute. reflexivity.
  - reflexivity.
  - reflexivity.
  - reflexivity.
  - right. discriminate.
Defined.

(** C2 does not hold for every chunking: the chunks [01] and [] add up to
    the declared size 1, and the receiver completes twice, once after
    each of them. *)
Lemma trailing_empty_chunk_completes_twice :
  let text := Samples.text_of (Samples.metadata_message 1) in
  let chunks := [[Byte.x01]; []] in
  let blob := Download [Byte.x01] (JStr "application/octet-stream") (JStr "a.bin") in
  JSON_parse (JsonApi := Samples.json) text = Some (Samples.metadata_message 1) /\
  get (Samples.metadata_message 1) "size" = Normal (JNum 1) /\
  total_length chunks = 1 /\
  downloads (receive_all (J := Samples.json) (Text text :: (Binary <$> chunks))
               receiver_init).2 = [blob; blob].
Proof. vm_compute. repeat split; reflexivity. Qed.

(** Nor does a declared size of 0 with no chunk at all complete. *)
Example no_chunk_never_completes :
  let text := Samples.text_of (Samples.metadata_message 0) in
  total_length [] = 0 /\
  downloads (receive_all (J := Samples.json) [Text text] receiver_init).2 = [].
Proof. vm_compute. split; reflexivity. Qed.

Example binary_before_metadata :
  receiveFile (J := Samples.json) (Binary [Byte.x01; Byte.x02; Byte.x03]) receiver_init
  = (Throw TypeError, MkReceiver 3 [[Byte.x01; Byte.x02; Byte.x03]] JNull []).
Proof. reflexivity. Qed.

Lemma ice_gathering_wait_terminates_witness :
  let events := [(100, IceGathering); (250, IceComplete); (400, IceComplete)] in
  let w := run events (waitForIceGatheringComplete (Some IceNew) None 0) in
  exists t,
    settled w = Some t /\
    listening w = false /\
    0 <= t <= 0 + Z.max 0 (default 3000 None) /\
    (@None Z = None -> t <= 0 + 3000) /\
    (Some IceNew = None \/ Some IceNew = Some IceComplete -> t = 0) /\
    (Some IceNew = Some IceNew \/ Some IceNew = Some IceGathering ->
     t = match first_complete events with
         | Some tc => Z.min tc (0 + Z.max 0 (default 3000 None))
         | None => 0 + Z.max 0 (default 3000 None)
         end).
Proof.
  apply (ice_gathering_wait_terminates (Some IceNew) None 0
           [(100, IceGathering); (250, IceComplete); (400, IceComplete)]).
  reflexivity.
Defined.

Example gathering_completes_before_timeout :
  settled (run [(100, IceGathering); (250, IceComplete)]
             (waitForIceGatheringComplete (Some IceNew) None 0)) = Some 250.
Proof. reflexivity. Qed.

Example gathering_stalls_until_timeout :
  settled (run [(100, IceGathering); (5000, IceComplete)]
             (waitForIceGatheringComplete (Some IceNew) None 0)) = Some 3000.
Proof. reflexivity. Qed.

Lemma shortening_failure_shows_full_token_witness :
  let pg := MkPage EmptyString None false [] [] false [] in
  let evt := Samples.text_of Samples.offer_created_message in
  let res := ws_onmessage (J := Samples.json) (B := Samples.browser) evt
               (FetchResponse false None) pg in
  res.1 = Normal tt /\
  store_requests res.2 = [Some (Samples.text_of Samples.offer_sdp)] /\
  tokenInput_value res.2 = Samples.text_of Samples.offer_sdp /\
  qrcode res.2 =
    Some (Some "https://sendu.example/%7B%22type%22:%22offer%22,%22sdp%22:%22v=0%22%7D",
          256) /\
  statuses res.2 = [(ShortenFailed, "error")] /\
  answerSection_shown res.2 = false.
Proof.
  intros pg evt res.
  destruct (shortening_failure_shows_full_token (J := Samples.json) (B := Samples.browser)
              pg evt Samples.offer_created_message "offer-created" "offer"
              Samples.offer_sdp (FetchResponse false None))
    as (Hnormal & Hstore & Hinput & _ & _ & Hqr & Hstatus & Hanswer & _).
  - vm_compute. reflexivity.
  - reflexivity.
  - left. split; reflexivity.
  - reflexivity.
  - right. exists None. reflexivity.
  - split; [exact Hnormal|]. split; [exact Hstore|]. split; [exact Hinput|].
    split; [apply Hqr; vm_compute; reflexivity|].
    split; [exact Hstatus|exact Hanswer].
Defined.

End ClientExamples.

(** ** Further properties at concrete inputs *)

Section MoreExamples.
Import Relay Transfer Handshake.

Lemma overrun_never_completes_witness :
  let st := MkReceiver 5 [[Byte.x01; Byte.x02; Byte.x03; Byte.x04; Byte.x05]]
              (JObj [("name", JStr "a.bin"); ("size", JNum 3)]) [] in
  let chunks := [[Byte.x06]; []] in
  let run := receive_all (J := Samples.json) (Binary <$> chunks) st in
  Forall (fun c => c = Normal tt) run.1 /\
  receivedChunks run.2 = receivedChunks st ++ chunks /\
  receivedSize run.2 = receivedSize st + total_length chunks /\
  downloads run.2 = downloads st.
Proof.
  apply (overrun_never_completes (J := Samples.json)
           (MkReceiver 5 [[Byte.x01; Byte.x02; Byte.x03; Byte.x04; Byte.x05]]
              (JObj [("name", JStr "a.bin"); ("size", JNum 3)]) [])
           (JNum 3) [[Byte.x06]; []]).
  - reflexivity.
  - intros n [= <-]. reflexivity.
Defined.

Lemma description_is_echoed_to_sender_only_witness :
  let st := MkRelay [1; 2]%nat (fun _ => OPEN) [] [] in
  let res := on_message (J := Samples.json_with_offer) (W := Build_WsLibrary true) Stable 1%nat
               (Samples.text_of Samples.offer_message) st in
  res.1 = Normal tt /\ clients res.2 = [1; 2]%nat /\
  sent res.2 = [(1%nat, OfferCreated Samples.offer_sdp)].
Proof.
  intros st res.
  destruct (description_is_echoed_to_sender_only (J := Samples.json_with_offer)
              (W := Build_WsLibrary true) Stable st 1%nat
              (Samples.text_of Samples.offer_message) Samples.offer_message)
    as [Hoffer _].
  - vm_compute. reflexivity.
  - apply (Hoffer Samples.offer_sdp); reflexivity.
Defined.

Lemma closed_socket_gets_no_candidates_witness :
  let st := MkRelay [1; 2; 3]%nat (fun _ => OPEN) [] [] in
  let closed := on_close 3%nat st in
  clients closed.2 = [1; 2]%nat /\
  delivered_to 3%nat
    (sent (on_message (J := Samples.json) (W := Build_WsLibrary true) Hardened 1%nat
             (Samples.text_of Samples.ice_message) closed.2).2) = [].
Proof.
  intros st closed.
  destruct (closed_socket_gets_no_candidates (J := Samples.json)
              (W := Build_WsLibrary true) Hardened st 3%nat 1%nat
              (Samples.text_of Samples.ice_message) Samples.ice_message
              (JStr "candidate:1 1 udp 1 10.0.0.1 9 typ host"))
    as (_ & _ & Hclients & _ & _ & _ & _ & _ & frames & Hsent & Hnone).
  - vm_compute. reflexivity.
  - reflexivity.
  - reflexivity.
  - split; [exact Hclients|].
    subst closed. rewrite Hsent. exact Hnone.
Defined.


Lemma short_link_leads_to_token_witness :
  let s := Samples.text_of Samples.offer_sdp in
  let pg := MkPage EmptyString None false [] [] false [] in
  let served :=
    TokenStore.serve 0 (TokenStore.PostStore "id-1" (ShortLink.store_request_body (Some s)))
      (TokenStore.Store ∅ []) in
  let res := ws_onmessage (J := Samples.json) (B := Samples.browser)
               (Samples.text_of Samples.offer_created_message)
               (ShortLink.fetch_of served.1) pg in
  tokenInput_value res.2 = "https://sendu.example/t/id-1" /\
  qrcode res.2 = Some (Some "https://sendu.example/t/id-1", 128) /\
  (TokenStore.serve 1000 (TokenStore.GetT "id-1") served.2).1
  = TokenStore.Html 200 (TokenStore.RevealPage "id-1") /\
  ShortLink.reveal (B := Samples.browser)
    (ShortLink.fetch_of (TokenStore.serve 1000 (TokenStore.GetConsume "id-1") served.2).1)
  = ShortLink.ShowToken s.
Proof.
  intros s pg served res.
  destruct (short_link_leads_to_token (J := Samples.json) (B := Samples.browser)
              pg (Samples.text_of Samples.offer_created_message)
              Samples.offer_created_message "offer-created" "offer" Samples.offer_sdp
              s (TokenStore.Store ∅ []) 0 1000 "id-1")
    as (_ & _ & Hinput & Hqr & Hpage & _ & Hreveal).
  - vm_compute. reflexivity.
  - reflexivity.
  - left. split; reflexivity.
  - reflexivity.
  - reflexivity.
  - discriminate.
  - simpl. apply not_elem_of_nil.
  - reflexivity.
  - split; [exact Hinput|]. split; [exact Hqr|]. split; [exact Hpage|].
    apply Hreveal. reflexivity.
Defined.


Lemma candidates_need_a_peer_connection_witness :
  let pg := MkPage EmptyString None false [] [] false [] in
  ws_onmessage (J := Samples.json) (B := Samples.browser)
    (Samples.text_of Samples.ice_message) FetchRejected pg = (Normal tt, pg).
Proof.
  intros pg.
  destruct (candidates_need_a_peer_connection (J := Samples.json) (B := Samples.browser)
              pg (Samples.text_of Samples.ice_message) FetchRejected
              Samples.ice_message (JStr "ice-candidate"))
    as (Hnormal & _ & Hsame).
  - vm_compute. reflexivity.
  - reflexivity.
  - reflexivity.
  - reflexivity.
  - rewrite (surjective_pairing (ws_onmessage _ _ _)).
    rewrite Hnormal, Hsame; [reflexivity|by right].
Defined.

Lemma candidate_travels_to_peer_witness :
  let st := MkRelay [1; 2]%nat (fun _ => OPEN) [] [] in
  let candidate := JStr "candidate:1 1 udp 1 10.0.0.1 9 typ host" in
  let text := Samples.text_of Samples.ice_message in
  Trickle.onicecandidate (J := Samples.json) candidate = Some (Some text) /\
  delivered_to 2%nat
    (sent (on_message (J := Samples.json) (W := Build_WsLibrary true) Stable 1%nat text st).2)
  = [IceCandidate candidate].
Proof.
  intros st candidate text.
  destruct (candidate_travels_to_peer (J := Samples.json) (W := Build_WsLibrary true)
              (B := Samples.browser) Stable st 1%nat 2%nat candidate text
              (MkPage EmptyString None false [] [] true []) FetchRejected)
    as (_ & Hsend & frames & Hsent & Hb & _).
  - reflexivity.
  - vm_compute. reflexivity.
  - vm_compute. reflexivity.
  - subst st; simpl. by apply (bool_decide_unpack _).
  - subst st; simpl. by apply (bool_decide_unpack _).
  - done.
  - reflexivity.
  - split; [exact Hsend|]. rewrite Hsent. exact Hb.
Defined.

Lemma short_link_is_not_a_token_witness :
  let st := TokenStore.Store {[ "id-1" := JStr "v=0" ]} [(600000, "id-1")] in
  let ss := Negotiation.MkSession false false false [] [] EmptyString true true in
  let rtc := Negotiation.MkOutcome true true true None None true JNull true in
  let r := TokenStore.serve 1000 (TokenStore.GetT "id-1") st in
  let ss' :=
    Negotiation.handleScannedOrPastedToken (J := Samples.json) (B := Samples.browser)
      (P := Samples.page_api) "https://sendu.example/t/id-1"
      (Negotiation.page_of (J := Samples.json) Samples.html r.1) rtc ss in
  Negotiation.steps ss' = [Negotiation.Fetch "https://sendu.example/t/id-1"] /\
  Negotiation.shown ss'
  = [(Negotiation.ErrorProcessingToken (Negotiation.Thrown SyntaxError), "error")] /\
  Negotiation.isInitiator ss' = false /\
  Negotiation.peerConnection ss' = false /\
  TokenStore.tokens r.2 = TokenStore.tokens (TokenStore.run_timers 1000 st).
Proof.
  apply (short_link_is_not_a_token (J := Samples.json) (B := Samples.browser)
           (P := Samples.page_api) Samples.html "https://sendu.example/t/id-1"
           "id-1" "https://sendu.example/t/id-1" 1000
           (TokenStore.Store {[ "id-1" := JStr "v=0" ]} [(600000, "id-1")])
           (Negotiation.MkOutcome true true true None None true JNull true)
           (Negotiation.MkSession false false false [] [] EmptyString true true)).
  - reflexivity.
  - intros []; reflexivity.
  - reflexivity.
Defined.

End MoreExamples.
